(** * youtube-playlist-downloader: the batch downloader (src/downloader.js)
      and the range handling of its two entry points (src/index.js and the
      CLI [main] of src/downloader.js), as a shallow embedding.

    Conventions of the embedding.
    - A JavaScript string is the list of its UTF-16 code units ([list N]).
    - The numbers that reach the index arithmetic are [NaN], a (mathematical)
      integer, or [Infinity]: what [parseInt], a default value and [+ 1]
      can produce. Sums are exact: the rounding of double arithmetic, which
      sets in at 2^53, is outside the model.
    - The outside world (disk, network, the ffmpeg process) is an abstract
      state [W]; every library call the code makes is a collaborator taken
      as a section variable, and an [async] function is a state-passing
      function that also tells how its promise settles.
    - [console.log] and [console.error] are not modelled. *)

From Stdlib Require Import String Ascii.
From Stdlib Require Import List ZArith NArith Lia Bool Permutation.
Import ListNotations.

Set Implicit Arguments.

(* ------------------------------------------------------------------ *)
(** ** JavaScript strings *)
(* ------------------------------------------------------------------ *)

Module JS.

Definition jsstring := list N.

(** An ASCII literal of the source, as code units. *)
Fixpoint js (s : string) : jsstring :=
  match s with
  | EmptyString => []
  | String a s' => N_of_ascii a :: js s'
  end.

Definition str_eqb (a b : jsstring) : bool :=
  if list_eq_dec N.eq_dec a b then true else false.

(** Truthiness of a string: only the empty string is falsy. *)
Definition truthy (s : jsstring) : bool :=
  match s with [] => false | _ :: _ => true end.

(** ECMAScript WhiteSpace and LineTerminator code points: what
    [String.prototype.trim] strips and what the class [\s] matches. *)
Definition is_space (c : N) : bool :=
  ((9 <=? c) && (c <=? 13) || (c =? 32) || (c =? 160) || (c =? 5760)
   || (8192 <=? c) && (c <=? 8202) || (c =? 8232) || (c =? 8233)
   || (c =? 8239) || (c =? 8287) || (c =? 12288) || (c =? 65279))%N.

(** LineTerminator: what [.] does not match (no [s] flag in the source). *)
Definition is_line_terminator (c : N) : bool :=
  ((c =? 10) || (c =? 13) || (c =? 8232) || (c =? 8233))%N.

Fixpoint drop_while (p : N -> bool) (s : jsstring) : jsstring :=
  match s with
  | [] => []
  | c :: s' => if p c then drop_while p s' else s
  end.

Definition trimStart (s : jsstring) : jsstring := drop_while is_space s.
Definition trimEnd (s : jsstring) : jsstring := rev (drop_while is_space (rev s)).

(** [s.trim()] *)
Definition trim (s : jsstring) : jsstring := trimEnd (trimStart s).

(** [s.startsWith(p)] *)
Fixpoint startsWith (p s : jsstring) : bool :=
  match p, s with
  | [], _ => true
  | _ :: _, [] => false
  | a :: p', b :: s' => (a =? b)%N && startsWith p' s'
  end.

(** [s.includes(p)] *)
Fixpoint includes (p s : jsstring) : bool :=
  startsWith p s ||
  match s with
  | [] => false
  | _ :: s' => includes p s'
  end.

(** [s.split(sep)] for a one-character separator: never the empty array. *)
Fixpoint split (sep : N) (s : jsstring) : list jsstring :=
  match s with
  | [] => [[]]
  | c :: s' =>
      if (c =? sep)%N then [] :: split sep s'
      else match split sep s' with
           | [] => [[c]]
           | l :: ls => (c :: l) :: ls
           end
  end.

(** [lines.join(sep)], the inverse of [split]. *)
Fixpoint join (sep : N) (ls : list jsstring) : jsstring :=
  match ls with
  | [] => []
  | [l] => l
  | l :: ls' => l ++ sep :: join sep ls'
  end.

Definition LF : N := 10.

End JS.
Import JS.

(* ------------------------------------------------------------------ *)
(** ** JavaScript numbers used as indices, and [Array.prototype.slice] *)
(* ------------------------------------------------------------------ *)

Inductive num : Type :=
| NaN
| Int (z : Z)
| Infinity.

Definition num_eqb_Infinity (x : num) : bool :=
  match x with Infinity => true | _ => false end.

Definition isNaN (x : num) : bool :=
  match x with NaN => true | _ => false end.

(** [x + 1] and [x++], on a number whose sum with one is exact. A
    JavaScript number is a double: from 2^53 on the sum is rounded to a
    double again, which is not modelled. The successor is exact on the
    safe integers below; a statement that takes it of a value that has not
    been clamped to the length of an array carries that bound. *)
Definition succ_num (x : num) : num :=
  match x with
  | NaN => NaN
  | Int z => Int (z + 1)
  | Infinity => Infinity
  end.

(** The integers [z] for which [z + 1] is computed exactly in double
    arithmetic: [z] and [z + 1] lie between [-2^53] and [2^53]. *)
Definition safe_integer (z : Z) : Prop := (- 2 ^ 53 <= z < 2 ^ 53)%Z.

(** [a < b]: false as soon as one side is [NaN]. *)
Definition num_ltb (a b : num) : bool :=
  match a, b with
  | NaN, _ | _, NaN => false
  | Int x, Int y => (x <? y)%Z
  | Int _, Infinity => true
  | Infinity, _ => false
  end.

(** [Math.max(a, b)] and [Math.min(a, b)]: [NaN] is contagious. *)
Definition Math_max (a b : num) : num :=
  match a, b with
  | NaN, _ | _, NaN => NaN
  | Infinity, _ | _, Infinity => Infinity
  | Int x, Int y => Int (Z.max x y)
  end.

Definition Math_min (a b : num) : num :=
  match a, b with
  | NaN, _ | _, NaN => NaN
  | Infinity, y => y
  | x, Infinity => x
  | Int x, Int y => Int (Z.min x y)
  end.

(** The clamping of an argument of [slice] against the array length:
    ToIntegerOrInfinity, then a negative index counts from the end. *)
Definition relative_index (len : Z) (x : num) : Z :=
  match x with
  | NaN => 0
  | Int z => if (z <? 0)%Z then Z.max (len + z) 0 else Z.min z len
  | Infinity => len
  end.

(** [arr.slice(start, end)] *)
Definition slice {A : Type} (arr : list A) (start end_ : num) : list A :=
  let len := Z.of_nat (length arr) in
  let k := relative_index len start in
  let final := relative_index len end_ in
  firstn (Z.to_nat (final - k)) (skipn (Z.to_nat k) arr).

(* ------------------------------------------------------------------ *)
(** ** The regular expression of [extractVideoId] *)
(* ------------------------------------------------------------------ *)

(** The fragment of regular expressions the source uses. Repetition is
    only ever applied to a one-character class, and is greedy. *)
Inductive regex : Type :=
| Chars (s : jsstring)          (* literal characters *)
| Class (p : N -> bool)         (* one character of a class *)
| Many (p : N -> bool)          (* p*  *)
| Many1 (p : N -> bool)         (* p+  *)
| Times (n : nat) (p : N -> bool) (* p{n} *)
| Maybe (r : regex)             (* r?  *)
| Or (r1 r2 : regex)            (* r1|r2 *)
| Then (r1 r2 : regex).         (* r1r2 *)

Section Backtracking.
Variable A : Type.

(** Greedy [p*] followed by the continuation [k]: the longest run first,
    giving characters back one at a time. *)
Fixpoint many (p : N -> bool) (k : jsstring -> option A) (s : jsstring)
  : option A :=
  match s with
  | c :: s' =>
      if p c then
        match many p k s' with
        | Some a => Some a
        | None => k s
        end
      else k s
  | [] => k []
  end.

Fixpoint times (n : nat) (p : N -> bool) (k : jsstring -> option A)
         (s : jsstring) : option A :=
  match n with
  | O => k s
  | S n' =>
      match s with
      | c :: s' => if p c then times n' p k s' else None
      | [] => None
      end
  end.

(** Backtracking matcher in continuation-passing style: the first
    success in the priority order of the ECMAScript semantics. *)
Fixpoint exec (r : regex) (s : jsstring) (k : jsstring -> option A)
  : option A :=
  match r with
  | Chars l => if startsWith l s then k (skipn (length l) s) else None
  | Class p =>
      match s with
      | c :: s' => if p c then k s' else None
      | [] => None
      end
  | Many p => many p k s
  | Many1 p =>
      match s with
      | c :: s' => if p c then many p k s' else None
      | [] => None
      end
  | Times n p => times n p k s
  | Maybe r' =>
      match exec r' s k with
      | Some a => Some a
      | None => k s
      end
  | Or r1 r2 =>
      match exec r1 s k with
      | Some a => Some a
      | None => exec r2 s k
      end
  | Then r1 r2 => exec r1 s (fun s' => exec r2 s' k)
  end.
End Backtracking.

(** [s.match(/prefix(group)/)?.[1]]: the text of the only capture group,
    which closes the expression, for the leftmost match. *)
Definition capture_at (prefix group : regex) (s : jsstring) : option jsstring :=
  exec prefix s (fun s1 =>
    exec group s1 (fun s2 => Some (firstn (length s1 - length s2) s1))).

Fixpoint match_group1 (prefix group : regex) (s : jsstring) : option jsstring :=
  match capture_at prefix group s with
  | Some g => Some g
  | None =>
      match s with
      | [] => None
      | _ :: s' => match_group1 prefix group s'
      end
  end.

Definition one_of (l : jsstring) (c : N) : bool := existsb (N.eqb c) l.
Definition dot (c : N) : bool := negb (is_line_terminator c).

(** The prefix of the expression, up to its capture group:
    (?:youtube\.com\/(?:[^\/]+\/.+\/|(?:v|e(?:mbed)?)\/|.*[?&]v=)|youtu\.be\/) *)
Definition videoId_prefix : regex :=
  Or (Then (Chars (js "youtube.com/"))
           (Or (Then (Many1 (fun c => negb (one_of (js "/") c)))
                     (Then (Chars (js "/")) (Then (Many1 dot) (Chars (js "/")))))
               (Or (Then (Or (Chars (js "v"))
                             (Then (Chars (js "e")) (Maybe (Chars (js "mbed")))))
                         (Chars (js "/")))
                   (Then (Many dot) (Then (Class (one_of (js "?&"))) (Chars (js "v=")))))))
     (Chars (js "youtu.be/")).

(** The capture group: eleven characters, none of them a double quote,
    an ampersand, a question mark, a slash or a space. *)
Definition videoId_char (c : N) : bool :=
  negb (one_of [34; 38; 63; 47]%N c || is_space c).

Definition videoId_group : regex := Times 11 videoId_char.

(** [extractVideoId(url)]: [match?.[1] || null]. *)
Definition extractVideoId (url : jsstring) : option jsstring :=
  match match_group1 videoId_prefix videoId_group url with
  | Some g => if truthy g then Some g else None
  | None => None
  end.

(** [sanitizeFilename(filename)]. The characters removed first are
    less-than, greater-than, colon, double quote, slash, backslash,
    vertical bar, question mark and star. *)
Definition unsafe_char (c : N) : bool :=
  one_of [60; 62; 58; 34; 47; 92; 124; 63; 42]%N c.

Fixpoint collapse_spaces (in_run : bool) (s : jsstring) : jsstring :=
  match s with
  | [] => []
  | c :: s' =>
      if is_space c
      then (if in_run then collapse_spaces true s'
            else 32%N :: collapse_spaces true s')
      else c :: collapse_spaces false s'
  end.

Definition sanitizeFilename (filename : jsstring) : jsstring :=
  trim (collapse_spaces false (filter (fun c => negb (unsafe_char c)) filename)).

(* ------------------------------------------------------------------ *)
(** ** Values exchanged with the collaborators and with the caller *)
(* ------------------------------------------------------------------ *)

(** How a promise settles. A rejection carries the [message] of its
    [Error], the only part of it the code reads. *)
Inductive Settled (A : Type) : Type :=
| Resolved (value : A)
| Rejected (message : jsstring).
Arguments Resolved {A} value.
Arguments Rejected {A} message.

(** [info.videoDetails] of [ytdl.getInfo]. *)
Record VideoDetails : Type := {
  vd_title : jsstring;
  vd_lengthSeconds : Z;
  vd_author_name : jsstring
}.

(** The object [getVideoInfo] returns. *)
Record VideoInfo : Type := {
  title : jsstring;
  filename : jsstring;
  duration : Z;
  author : jsstring
}.

(** The two objects [downloadMp3] resolves to. *)
Inductive Download : Type :=
| AlreadyExists (filename : jsstring)
    (* { success: true, filename, message: 'File already exists', skipped: true } *)
| Converted (filename path title : jsstring).
    (* { success: true, filename, path, title } *)

Definition skipped (d : Download) : bool :=
  match d with AlreadyExists _ => true | Converted _ _ _ => false end.

(** What the ffmpeg command does once [run()] is called: it emits [end],
    it emits [error], or building the command throws inside the promise
    executor. The command is taken to finish: a promise that stays pending
    is not modelled. *)
Inductive Encoding : Type :=
| OnEnd
| OnError (message : jsstring)
| Thrown (message : jsstring).

(** The calls [downloadMp3] makes to its collaborators, in order. *)
Inductive IO : Type :=
| GetInfo (videoId : jsstring)        (* ytdl.getInfo(videoId) *)
| ExistsSync (path : jsstring)        (* fs.existsSync(outputPath) *)
| Stream (videoId : jsstring)         (* ytdl(videoId, { quality, filter }) *)
| Ffmpeg (outputPath : jsstring).     (* ffmpeg(ytdlStream)...output(outputPath)...run() *)

(** The calls that go to the network: the metadata lookup and the media
    stream. *)
Definition network_fetch (c : IO) : bool :=
  match c with
  | GetInfo _ | Stream _ => true
  | ExistsSync _ | Ffmpeg _ => false
  end.

Definition stream_or_transcode (c : IO) : bool :=
  match c with
  | Stream _ | Ffmpeg _ => true
  | GetInfo _ | ExistsSync _ => false
  end.

(** The entries of the arrays [results] and [errors]. *)
Inductive Entry : Type :=
| Success (url : jsstring) (result : Download)   (* { url, ...result } *)
| Failure (url : jsstring) (error : jsstring).   (* { url, error: error.message } *)

Definition entry_url (e : Entry) : jsstring :=
  match e with Success u _ | Failure u _ => u end.

(** [result.error] as a condition: [undefined] on a success entry, the
    message on a failure entry, and the empty message is falsy. *)
Definition error_truthy (e : Entry) : bool :=
  match e with
  | Success _ _ => false
  | Failure _ m => truthy m
  end.

Definition is_failure (e : Entry) : bool :=
  match e with Success _ _ => false | Failure _ _ => true end.

(** What [downloadFromFile] resolves to. *)
Record Report : Type := {
  results : list Entry;
  errors : list Entry;
  total : Z;
  fullListTotal : Z
}.

(** The [options] of [downloadFromFile]; [concurrent] and [delay] are
    taken to be integers. *)
Record Options : Type := {
  concurrent : Z;
  delay : Z;
  startIndex : num;
  endIndex : num
}.

(** The defaults of the destructuring in [downloadFromFile]. *)
Definition default_options : Options :=
  {| concurrent := 1; delay := 15000; startIndex := Int 0; endIndex := Infinity |}.

(** The fields of [this]. *)
Record Downloader : Type := {
  outputDir : jsstring;
  quality : jsstring
}.

(** [a || b] on an option that may be missing. *)
Definition or_default (a : option jsstring) (b : jsstring) : jsstring :=
  match a with
  | Some s => if truthy s then s else b
  | None => b
  end.

(** The fields the [constructor] sets from its [options]. Its calls to
    [ffmpeg.setFfmpegPath] and [fs.mkdirSync] are left out. *)
Definition new_downloader (outputDir' quality' : option jsstring) : Downloader :=
  {| outputDir := or_default outputDir' (js "./downloads");
     quality := or_default quality' (js "highestaudio") |}.

(** What the scheduler does, in order. The members of a chunk settle in
    an order the code does not see: [Promise.all] hands their values back
    in array order, which is the order kept here. *)
Inductive Event : Type :=
| Invoke (url : jsstring)                          (* this.downloadMp3(url) *)
| Settle (url : jsstring) (s : Settled Download)   (* that promise settles *)
| Join                                             (* await Promise.all(promises) is over *)
| Sleep (ms : Z).                                  (* await of setTimeout(resolve, delay) *)

Definition is_sleep (e : Event) : bool :=
  match e with Sleep _ => true | _ => false end.

Definition is_invoke (e : Event) : bool :=
  match e with Invoke _ => true | _ => false end.

Definition rejected {A : Type} (s : Settled A) : bool :=
  match s with Rejected _ => true | Resolved _ => false end.

(** Reading the list file (lines 150-157 of downloader.js). *)
Definition parse_urls (content : jsstring) : list jsstring :=
  filter (fun line => includes (js "youtube.com") line || includes (js "youtu.be") line)
    (filter (fun line => truthy line && negb (startsWith (js "#") line))
       (map trim (split LF content))).

(** Applying the index range (lines 163-169). *)
Definition select_range (urls : list jsstring) (startIndex endIndex : num)
  : list jsstring :=
  let len := Int (Z.of_nat (length urls)) in
  let startIdx := Math_max (Int 0) startIndex in
  let endIdx := Math_min len (if num_eqb_Infinity endIndex then len else endIndex) in
  slice urls startIdx endIdx.

(* ------------------------------------------------------------------ *)
(** ** The class [downloader] *)
(* ------------------------------------------------------------------ *)

(** The outside world and the library calls of the class: Node's [fs]
    and [path], [@distube/ytdl-core], [fluent-ffmpeg] and the timer. *)
Class Platform (W : Type) : Type := {
  fs_existsSync : W -> jsstring -> bool;
  fs_readFileSync : W -> jsstring -> Settled jsstring;
  path_join : jsstring -> jsstring -> jsstring;
  ytdl_getInfo : W -> jsstring -> W * Settled VideoDetails;
  (** [ytdl(videoId, { quality, filter: 'audioonly' })], given the quality
      and the id: [Some m] when the call throws. *)
  ytdl : W -> jsstring -> jsstring -> W * option jsstring;
  (** The ffmpeg command on the stream of [videoId], writing [outputPath]. *)
  ffmpeg_run : W -> jsstring -> jsstring -> W * Encoding;
  (** The world after a timer of [ms] milliseconds has fired. *)
  setTimeout : W -> Z -> W
}.

Section Downloader.

Context {W : Type} {platform : Platform W}.

(** The methods, for an instance [this]. *)
Section Methods.
Variable this : Downloader.

(** [getVideoInfo(videoId)] *)
Definition getVideoInfo (w : W) (videoId : jsstring) : W * Settled VideoInfo :=
  match ytdl_getInfo w videoId with
  | (w', Resolved videoDetails) =>
      let title' := sanitizeFilename (vd_title videoDetails) in
      (w', Resolved {| title := vd_title videoDetails;
                       filename := title' ++ js ".mp3";
                       duration := vd_lengthSeconds videoDetails;
                       author := vd_author_name videoDetails |})
  | (w', Rejected message) =>
      (w', Rejected (js "Failed to get video info: " ++ message))
  end.

(** [customName ? a : b]: [null] and the empty string take [b]. *)
Definition given (customName : option jsstring) : option jsstring :=
  match customName with
  | Some n => if truthy n then Some n else None
  | None => None
  end.

(** [downloadMp3(url, customName = null)], with the calls it made. *)
Definition downloadMp3 (w : W) (url : jsstring) (customName : option jsstring)
  : W * list IO * Settled Download :=
  match extractVideoId url with
  | None => (w, [], Rejected (js "Invalid YouTube URL: " ++ url))
  | Some videoId =>
      match getVideoInfo w videoId with
      | (w1, Rejected message) => (w1, [GetInfo videoId], Rejected message)
      | (w1, Resolved videoInfo) =>
          let filename' :=
            match given customName with
            | Some n => sanitizeFilename n ++ js ".mp3"
            | None => filename videoInfo
            end in
          let outputPath := path_join (outputDir this) filename' in
          if fs_existsSync w1 outputPath then
            (w1, [GetInfo videoId; ExistsSync outputPath],
             Resolved (AlreadyExists filename'))
          else
            match ytdl w1 (quality this) videoId with
            | (w2, Some message) =>
                (w2, [GetInfo videoId; ExistsSync outputPath; Stream videoId],
                 Rejected message)
            | (w2, None) =>
                let calls := [GetInfo videoId; ExistsSync outputPath;
                              Stream videoId; Ffmpeg outputPath] in
                match ffmpeg_run w2 videoId outputPath with
                | (w3, OnEnd) =>
                    (w3, calls,
                     Resolved (Converted filename' outputPath (title videoInfo)))
                | (w3, OnError message) =>
                    (w3, calls, Rejected (js "ffmpeg error: " ++ message))
                | (w3, Thrown message) => (w3, calls, Rejected message)
                end
            end
      end
  end.

(** [this.downloadMp3(url)] as the scheduler sees it. *)
Definition downloadMp3_url (w : W) (url : jsstring) : W * Settled Download :=
  let '(w', _, s) := downloadMp3 w url None in (w', s).

(** The state of a run of the scheduler: the world, the arrays
    [results] and [errors], and what has been done so far. *)
Record Run : Type := {
  run_world : W;
  run_results : list Entry;
  run_errors : list Entry;
  run_trace : list Event
}.

Definition start_run (w : W) : Run :=
  {| run_world := w; run_results := []; run_errors := []; run_trace := [] |}.

Definition log (evs : list Event) (r : Run) : Run :=
  {| run_world := run_world r; run_results := run_results r;
     run_errors := run_errors r; run_trace := run_trace r ++ evs |}.

Definition push_result (e : Entry) (r : Run) : Run :=
  {| run_world := run_world r; run_results := run_results r ++ [e];
     run_errors := run_errors r; run_trace := run_trace r |}.

Definition push_error (e : Entry) (r : Run) : Run :=
  {| run_world := run_world r; run_results := run_results r;
     run_errors := run_errors r ++ [e]; run_trace := run_trace r |}.

Definition set_world (w : W) (r : Run) : Run :=
  {| run_world := w; run_results := run_results r;
     run_errors := run_errors r; run_trace := run_trace r |}.

(** [await new Promise((resolve) => setTimeout(resolve, delay))] *)
Definition sleep (ms : Z) (r : Run) : Run :=
  log [Sleep ms] (set_world (setTimeout (run_world r) ms) r).

Section Loops.
Variable options : Options.
Variable urlsToProcess : list jsstring.

Definition todo_length : Z := Z.of_nat (length urlsToProcess).

(** The body of the sequential loop at index [i], [url] being
    [urlsToProcess[i]] (lines 184-201): the delay is inside the [try],
    after the [await] of the download. *)
Definition sequential_step (i : Z) (url : jsstring) (r : Run) : Run :=
  let '(w', s) := downloadMp3_url (run_world r) url in
  let r1 := log [Invoke url; Settle url s] (set_world w' r) in
  match s with
  | Resolved result =>
      let r2 := push_result (Success url result) r1 in
      if (i <? todo_length - 1)%Z && (0 <? delay options)%Z
      then sleep (delay options) r2
      else r2
  | Rejected message => push_error (Failure url message) r1
  end.

(** [for (let i = 0; i < urlsToProcess.length; i++)], entered at
    index [i] with [todo] the elements from [i] on. *)
Fixpoint sequential (i : Z) (todo : list jsstring) (r : Run) : Run :=
  match todo with
  | [] => r
  | url :: todo' => sequential (i + 1) todo' (sequential_step i url r)
  end.

(** [chunk.map(url => this.downloadMp3(url).then(...).catch(...))]
    under [Promise.all]: one settlement per member, in array order. The
    world goes through the members in that order: how their calls to the
    collaborators interleave is not modelled. *)
Fixpoint promise_all (w : W) (chunk : list jsstring)
  : W * list (Settled Download) :=
  match chunk with
  | [] => (w, [])
  | url :: chunk' =>
      let '(w1, s) := downloadMp3_url w url in
      let '(w2, ss) := promise_all w1 chunk' in
      (w2, s :: ss)
  end.

Definition to_entry (url : jsstring) (s : Settled Download) : Entry :=
  match s with
  | Resolved result => Success url result
  | Rejected message => Failure url message
  end.

(** The callback of [chunkResults.forEach]. *)
Definition classify (r : Run) (result : Entry) : Run :=
  if error_truthy result then push_error result r else push_result result r.

(** The body of the chunked loop at index [i] (lines 206-229). *)
Definition chunked_step (i : Z) (r : Run) : Run :=
  let chunk := slice urlsToProcess (Int i) (Int (i + concurrent options)) in
  let '(w', ss) := promise_all (run_world r) chunk in
  let chunkResults := map (fun p => to_entry (fst p) (snd p)) (combine chunk ss) in
  let r1 := log (map Invoke chunk
                   ++ map (fun p => Settle (fst p) (snd p)) (combine chunk ss)
                   ++ [Join])
                (set_world w' r) in
  let r2 := fold_left classify chunkResults r1 in
  if (i + concurrent options <? todo_length)%Z && (0 <? delay options)%Z
  then sleep (delay options) r2
  else r2.

(** [for (let i = 0; i < urlsToProcess.length; i += concurrent)]:
    [None] when [fuel] iterations were not enough. *)
Fixpoint chunked (fuel : nat) (i : Z) (r : Run) : option Run :=
  match fuel with
  | O => None
  | S fuel' =>
      if (i <? todo_length)%Z
      then chunked fuel' (i + concurrent options) (chunked_step i r)
      else Some r
  end.

(** Lines 178-231. *)
Definition schedule (fuel : nat) (w : W) : option Run :=
  if (concurrent options =? 1)%Z
  then Some (sequential 0 urlsToProcess (start_run w))
  else chunked fuel 0 (start_run w).
End Loops.

(** [downloadFromFile(filePath, options)]: the world it leaves, what the
    scheduler did, and how the promise settles. *)
Definition downloadFromFile (fuel : nat) (w : W) (filePath : jsstring)
           (options : Options) : option (W * list Event * Settled Report) :=
  if negb (fs_existsSync w filePath) then
    Some (w, [], Rejected (js "File not found: " ++ filePath))
  else
    match fs_readFileSync w filePath with
    | Rejected message => Some (w, [], Rejected message)
    | Resolved content =>
        let urls := parse_urls content in
        if (length urls =? 0)%nat then
          Some (w, [], Rejected (js "No valid YouTube URLs found in file"))
        else
          let urlsToProcess :=
            select_range urls (startIndex options) (endIndex options) in
          match schedule options urlsToProcess fuel w with
          | None => None
          | Some r =>
              Some (run_world r, run_trace r,
                    Resolved {| results := run_results r;
                                errors := run_errors r;
                                total := Z.of_nat (length urlsToProcess);
                                fullListTotal := Z.of_nat (length urls) |})
          end
    end.

End Methods.

(** The options [main] builds from the command line: [--end] is
    inclusive, hence the [+ 1]; without it the range is open. *)
Definition main_options (concurrent' delay' : Z) (start : num)
           (end_arg : option num) : Options :=
  {| concurrent := concurrent'; delay := delay'; startIndex := start;
     endIndex := match end_arg with
                 | Some e => succ_num e
                 | None => Infinity
                 end |}.

(** src/index.js, [getPlaylistDetails], once the playlist has been
    extracted to [playlist.txt]: the two answers of the user ([None] for
    an empty answer, else what [parseInt] made of it), the checks, and
    the call of a downloader built with [new downloader()]. The array
    [selectedVideos] it returns is left out. *)
Inductive Interactive : Type :=
| NotNumbers                       (* 'Error: Indices must be valid numbers' *)
| InvalidRange                     (* 'Error: Invalid index range' *)
| Downloaded (r : Settled Report).

Definition asked_start (answer : option num) : num :=
  match answer with None => Int 0 | Some n => n end.

Definition asked_end (totalVideos : Z) (answer : option num) : num :=
  succ_num (match answer with None => Int (totalVideos - 1) | Some n => n end).

Definition getPlaylistDetails (fuel : nat) (w : W) (totalVideos : Z)
           (startAnswer endAnswer : option num)
  : option (W * list Event * Interactive) :=
  let startIndex' := asked_start startAnswer in
  let endIndex' := asked_end totalVideos endAnswer in
  if isNaN startIndex' || isNaN endIndex' then Some (w, [], NotNumbers)
  else if num_ltb startIndex' (Int 0) || num_ltb endIndex' startIndex'
  then Some (w, [], InvalidRange)
  else
    match downloadFromFile (new_downloader None None) fuel w (js "playlist.txt")
            {| concurrent := 1; delay := 15000;
               startIndex := startIndex'; endIndex := endIndex' |} with
    | None => None
    | Some (w', tr, s) => Some (w', tr, Downloaded s)
    end.

End Downloader.

(* ------------------------------------------------------------------ *)
(** ** A scripted platform, to run the class on concrete inputs *)
(* ------------------------------------------------------------------ *)

Module Mock.

(** Text files with their content, the media files written so far, the
    time spent in timers, and the scripted failures: for a video id, the
    message of the error of its metadata lookup, of its stream fetch or
    of its encoding. *)
Record World : Type := {
  texts : list (jsstring * jsstring);
  media : list jsstring;
  clock : Z;
  no_info : list (jsstring * jsstring);
  no_stream : list (jsstring * jsstring);
  no_encode : list (jsstring * jsstring)
}.

Fixpoint lookup {A : Type} (k : jsstring) (l : list (jsstring * A)) : option A :=
  match l with
  | [] => None
  | (k', v) :: l' => if str_eqb k k' then Some v else lookup k l'
  end.

Definition written (path : jsstring) (w : World) : World :=
  {| texts := texts w; media := path :: media w; clock := clock w;
     no_info := no_info w; no_stream := no_stream w; no_encode := no_encode w |}.

Definition later (ms : Z) (w : World) : World :=
  {| texts := texts w; media := media w; clock := (clock w + ms)%Z;
     no_info := no_info w; no_stream := no_stream w; no_encode := no_encode w |}.

(** The scripted calls. [path.join] is a plain concatenation here: it
    does not normalise the path. *)
#[global] Instance platform : Platform World := {|
  fs_existsSync w path := existsb (str_eqb path) (map fst (texts w) ++ media w);
  fs_readFileSync w path :=
    match lookup path (texts w) with
    | Some content => Resolved content
    | None => Rejected (js "ENOENT: no such file or directory")
    end;
  path_join dir name := dir ++ js "/" ++ name;
  ytdl_getInfo w videoId :=
    match lookup videoId (no_info w) with
    | Some message => (w, Rejected message)
    | None => (w, Resolved {| vd_title := js "Track " ++ videoId;
                              vd_lengthSeconds := 215;
                              vd_author_name := js "Artist" |})
    end;
  ytdl w _ videoId := (w, lookup videoId (no_stream w));
  ffmpeg_run w videoId outputPath :=
    match lookup videoId (no_encode w) with
    | Some message => (w, OnError message)
    | None => (written outputPath w, OnEnd)
    end;
  setTimeout w ms := later ms w
|}.

(** [new downloader()] *)
Definition this : Downloader := new_downloader None None.

Definition watch (videoId : string) : jsstring :=
  js "https://www.youtube.com/watch?v=" ++ js videoId.

Definition seven : list jsstring :=
  [watch "AAAAAAAAAAA"; watch "BBBBBBBBBBB"; watch "CCCCCCCCCCC";
   watch "DDDDDDDDDDD"; watch "EEEEEEEEEEE"; watch "FFFFFFFFFFF";
   watch "GGGGGGGGGGG"].

(** A world whose only file is the list at [path], one line per url. *)
Definition listing (path : string) (lines : list jsstring) : World :=
  {| texts := [(js path, join LF lines)]; media := []; clock := 0;
     no_info := []; no_stream := []; no_encode := [] |}.

Definition failing_stream (videoId message : jsstring) (w : World) : World :=
  {| texts := texts w; media := media w; clock := clock w;
     no_info := no_info w; no_stream := (videoId, message) :: no_stream w;
     no_encode := no_encode w |}.

Definition failing_info (videoId message : jsstring) (w : World) : World :=
  {| texts := texts w; media := media w; clock := clock w;
     no_info := (videoId, message) :: no_info w; no_stream := no_stream w;
     no_encode := no_encode w |}.

Definition three : list jsstring := firstn 3 seven.

(** Three urls listed; fetching the stream of the second one throws an
    error whose message is empty. *)
Definition silent_failure : World :=
  failing_stream (js "BBBBBBBBBBB") [] (listing "urls.txt" three).

(** Two urls listed; the metadata lookup of the first one fails. *)
Definition unavailable_first : World :=
  failing_info (js "AAAAAAAAAAA") (js "Video unavailable")
               (listing "urls.txt" (firstn 2 seven)).

(** Three urls listed; the first one has been downloaded already. *)
Definition downloaded_first : World :=
  written (js "./downloads/Track AAAAAAAAAAA.mp3") (listing "urls.txt" three).

(** The options of [node downloader.js urls.txt --concurrent c --delay d]. *)
Definition cli (c d : Z) : Options := main_options c d (Int 0) None.

(** The lines of the scenario of the specification, with the host it
    names and with a host the reader knows. *)
Definition scenario (host : string) : list jsstring :=
  [js "https://" ++ js host ++ js "/watch?v=AAAAAAAAAAA";
   js "# comment";
   js "";
   js "not-a-url";
   js "https://" ++ js host ++ js "/watch?v=BBBBBBBBBBB"].

End Mock.

(* ------------------------------------------------------------------ *)
(** ** Vocabulary of the statements *)
(* ------------------------------------------------------------------ *)

(** The validity predicate of the reader: the line names a known host. *)
Definition recognized (line : jsstring) : bool :=
  includes (js "youtube.com") line || includes (js "youtu.be") line.

(** The reader in the words of the specification (section 4.1), line by
    line: trim; discard the empty line and the comment; keep the line
    that is recognized as an item reference. *)
Fixpoint read_lines (lines : list jsstring) : list jsstring :=
  match lines with
  | [] => []
  | raw :: rest =>
      let line := trim raw in
      if str_eqb line [] then read_lines rest
      else if startsWith (js "#") line then read_lines rest
      else if recognized line then line :: read_lines rest
      else read_lines rest
  end.

Definition spec_read (content : jsstring) : list jsstring :=
  read_lines (split LF content).

(** [subseq l1 l2]: [l1] is [l2] with some elements left out, the others
    in their order. *)
Inductive subseq {A : Type} : list A -> list A -> Prop :=
| subseq_nil : subseq [] []
| subseq_skip (x : A) (l1 l2 : list A) : subseq l1 l2 -> subseq l1 (x :: l2)
| subseq_keep (x : A) (l1 l2 : list A) : subseq l1 l2 -> subseq (x :: l1) (x :: l2).

(** Consecutive chunks of size [c], the last one possibly smaller. *)
Fixpoint chunks_of {A : Type} (fuel c : nat) (l : list A) : list (list A) :=
  match fuel with
  | O => []
  | S fuel' =>
      match l with
      | [] => []
      | _ :: _ => firstn c l :: chunks_of fuel' c (skipn c l)
      end
  end.

Definition chunks {A : Type} (c : nat) (l : list A) : list (list A) :=
  chunks_of (length l) c l.

(** An item of a run: the url with the way its download settled. *)
Definition Item : Type := (jsstring * Settled Download)%type.

Definition item_entry (it : Item) : Entry :=
  match snd it with
  | Resolved result => Success (fst it) result
  | Rejected message => Failure (fst it) message
  end.

Definition item_rejected (it : Item) : bool := rejected (snd it).

(** The items of a trace, in the order of their [Settle] events. *)
Fixpoint settlements (tr : list Event) : list Item :=
  match tr with
  | [] => []
  | Settle u s :: tr' => (u, s) :: settlements tr'
  | _ :: tr' => settlements tr'
  end.

Definition sleeps (tr : list Event) : nat := length (filter is_sleep tr).

(** The milliseconds spent in timers at the head of a trace, and, for
    each [Join] of a trace, the time the scheduler stays suspended after
    it, before it does anything else. *)
Fixpoint slept (tr : list Event) : Z :=
  match tr with
  | Sleep ms :: tr' => (ms + slept tr')%Z
  | _ => 0%Z
  end.

Fixpoint pauses (tr : list Event) : list Z :=
  match tr with
  | [] => []
  | Join :: tr' => slept tr' :: pauses tr'
  | _ :: tr' => pauses tr'
  end.

(** What the scheduler does for one item in sequential mode, and for one
    chunk in chunked mode. *)
Definition item_events (it : Item) : list Event :=
  [Invoke (fst it); Settle (fst it) (snd it)].

Definition chunk_events (block : list Item) : list Event :=
  map Invoke (map fst block)
  ++ map (fun it : Item => Settle (fst it) (snd it)) block
  ++ [Join].

(** Blocks of events with [sep] between two consecutive blocks, and
    nothing after the last. *)
Fixpoint separated (sep : list Event) (blocks : list (list Event)) : list Event :=
  match blocks with
  | [] => []
  | [b] => b
  | b :: blocks' => b ++ sep ++ separated sep blocks'
  end.

(** The trace of the sequential loop from index [i] on, given how the
    items settle: the timer follows a resolved item that is not the last
    one, when the delay is positive. *)
Fixpoint sequential_trace (delay' n i : Z) (items : list Item) : list Event :=
  match items with
  | [] => []
  | it :: items' =>
      item_events it
      ++ (if negb (item_rejected it) && (i <? n - 1)%Z && (0 <? delay')%Z
          then [Sleep delay'] else [])
      ++ sequential_trace delay' n (i + 1) items'
  end.

(** The trace of the chunked loop, given the chunks with the way their
    members settle. *)
Fixpoint chunked_trace (delay' : Z) (blocks : list (list Item)) : list Event :=
  match blocks with
  | [] => []
  | b :: blocks' =>
      chunk_events b
      ++ (match blocks' with
          | [] => []
          | _ :: _ => if (0 <? delay')%Z then [Sleep delay'] else []
          end)
      ++ chunked_trace delay' blocks'
  end.

(** The [filename] of a resolved download, and the name [downloadMp3]
    derives from the custom name, if one is given, or from the title. *)
Definition download_filename (d : Download) : jsstring :=
  match d with AlreadyExists f | Converted f _ _ => f end.

Definition output_name (customName : option jsstring) (details : VideoDetails)
  : jsstring :=
  match given customName with
  | Some n => sanitizeFilename n ++ js ".mp3"
  | None => sanitizeFilename (vd_title details) ++ js ".mp3"
  end.

(** What a loop has added to a run: the items that settled, the events,
    and the entries pushed on [results] and on [errors], the failures
    being told from the rest by [failed]. *)
Definition extends {W : Type} (failed : Entry -> bool) (r r' : @Run W)
           (items : list Item) (evs : list Event) : Prop :=
  run_trace r' = run_trace r ++ evs
  /\ run_results r' = run_results r
                      ++ filter (fun e => negb (failed e)) (map item_entry items)
  /\ run_errors r' = run_errors r ++ filter failed (map item_entry items).

(** How each mode tells a failure: the sequential loop by the [catch],
    the chunked loop by the truthiness of [result.error]. *)
Definition failed_in (options : Options) : Entry -> bool :=
  if (concurrent options =? 1)%Z then is_failure else error_truthy.

(** The world a trace tells of: at each [Invoke] the pipeline of the url
    runs in the world as it is then, at each [Sleep] the timer of that many
    milliseconds fires; a [Settle] and a [Join] leave the world as it is. *)
Fixpoint replay {W : Type} {platform : Platform W} (this : Downloader)
         (w : W) (tr : list Event) : W :=
  match tr with
  | [] => w
  | Invoke url :: tr' => replay this (fst (downloadMp3_url this w url)) tr'
  | Sleep ms :: tr' => replay this (setTimeout w ms) tr'
  | _ :: tr' => replay this w tr'
  end.

(** The milliseconds of all the timers of a trace. *)
Fixpoint total_sleep (tr : list Event) : Z :=
  match tr with
  | [] => 0%Z
  | Sleep ms :: tr' => (ms + total_sleep tr')%Z
  | _ :: tr' => total_sleep tr'
  end.

(* ------------------------------------------------------------------ *)
(** ** src/extractor.js and the array returned by src/index.js *)
(* ------------------------------------------------------------------ *)

(** The template string both methods of [extractYouTubeVideoUrls] add to
    the set. *)
Definition watch_url (videoId : jsstring) : jsstring :=
  js "https://www.youtube.com/watch?v=" ++ videoId.

(** The class [a-zA-Z0-9_-] of the fallback expression. *)
Definition id_char (c : N) : bool :=
  ((97 <=? c) && (c <=? 122) || (65 <=? c) && (c <=? 90)
   || (48 <=? c) && (c <=? 57) || (c =? 95) || (c =? 45))%N.

(** The fallback expression: the key videoId between double quotes, a
    colon, and between double quotes again eleven characters of the
    class, which are its capture group. [videoId_at s] is its match at the
    head of [s]. *)
Definition videoId_key : jsstring := [34%N] ++ js "videoId" ++ [34; 58; 34]%N.

Definition videoId_at (s : jsstring) : option jsstring :=
  if startsWith videoId_key s then
    let rest := skipn (length videoId_key) s in
    let id := firstn 11 rest in
    if (length id =? 11)%nat && forallb id_char id
       && startsWith [34%N] (skipn 11 rest)
    then Some id else None
  else None.

(** [while ((regexMatch = videoIdRegex.exec(html)) !== null)]: the ids of
    the successive matches of the global expression, each search starting
    where the match before ended ([skip] characters of the last match are
    still to be passed over). *)
Fixpoint scan_videoIds (skip : nat) (html : jsstring) : list jsstring :=
  match html with
  | [] => []
  | _ :: rest =>
      match skip with
      | S skip' => scan_videoIds skip' rest
      | O =>
          match videoId_at html with
          | Some id => id :: scan_videoIds (length videoId_key + 11) rest
          | None => scan_videoIds 0 rest
          end
      end
  end.

(** [videos.add(url)] on a [Set], kept as the array [...videos] of its
    elements in insertion order. *)
Definition set_add (videos : list jsstring) (url : jsstring) : list jsstring :=
  if existsb (str_eqb url) videos then videos else videos ++ [url].

(** [extractYouTubeVideoUrls], once the page has been fetched: [listed]
    are the truthy [videoId]s the first method reads in the parsed
    [ytInitialData], in order (none when the data is missing or cannot be
    parsed); the fallback scans the page only when the set is still
    empty. *)
Definition extractYouTubeVideoUrls (listed : list jsstring) (html : jsstring)
  : list jsstring :=
  let videos := fold_left set_add (map watch_url listed) [] in
  if (length videos =? 0)%nat
  then fold_left set_add (map watch_url (scan_videoIds 0 html)) videos
  else videos.

(** What [main] writes to playlist.txt: [videoUrls.join('\n')]. *)
Definition playlist_file (videoUrls : list jsstring) : jsstring :=
  join LF videoUrls.


(* ------------------------------------------------------------------ *)
(** ** Vocabulary of the further statements *)
(* ------------------------------------------------------------------ *)

(** [t] is what is left of [s] after some of its first characters. *)
Definition suffix (t s : jsstring) : Prop := exists a, s = a ++ t.

Definition starts_with_space (s : jsstring) : bool :=
  match s with
  | [] => false
  | c :: _ => is_space c
  end.

(** Every white space character is the plain space, and no white space
    follows it. *)
Fixpoint single_spaced (s : jsstring) : bool :=
  match s with
  | [] => true
  | c :: s' =>
      (if is_space c then (c =? 32)%N && negb (starts_with_space s') else true)
      && single_spaced s'
  end.

(** A name [sanitizeFilename] has nothing to do on. *)
Definition clean_name (s : jsstring) : bool :=
  forallb (fun c => negb (unsafe_char c)) s
  && single_spaced s
  && negb (starts_with_space s)
  && negb (starts_with_space (rev s)).

(** The number of items of a run that resolved, the last position left
    out: where the sequential loop sets its timer. *)
Fixpoint resolved_before_last (items : list Item) : nat :=
  match items with
  | [] => O
  | [_] => O
  | it :: items' =>
      ((if item_rejected it then 0 else 1) + resolved_before_last items')%nat
  end.

(* ------------------------------------------------------------------ *)
(** ** Facts on strings *)
(* ------------------------------------------------------------------ *)

Lemma split_not_nil (sep : N) (s : jsstring) : split sep s <> [].
Proof.
  destruct s as [|c s]; simpl; [discriminate|].
  destruct (c =? sep)%N; [discriminate|].
  destruct (split sep s); discriminate.
Qed.

(** Joining the lines back gives the content: nothing is lost by [split]. *)
Lemma join_split (sep : N) (s : jsstring) : join sep (split sep s) = s.
Proof.
  induction s as [|c s IH]; simpl; [reflexivity|].
  destruct (N.eqb_spec c sep) as [->|Hne].
  - pose proof (split_not_nil sep s) as Hnil.
    destruct (split sep s) as [|l ls]; [contradiction|].
    simpl in *. now rewrite IH.
  - pose proof (split_not_nil sep s) as Hnil.
    destruct (split sep s) as [|l ls]; [contradiction|].
    simpl in *. destruct ls; simpl in *; now rewrite <- IH.
Qed.

(** No line of [split] holds the separator. *)
Lemma split_no_sep (sep : N) (s : jsstring) :
  Forall (fun l => ~ In sep l) (split sep s).
Proof.
  induction s as [|c s IH]; simpl.
  - constructor; [intros []|constructor].
  - destruct (N.eqb_spec c sep) as [->|Hne].
    + constructor; [intros []|exact IH].
    + destruct (split sep s) as [|l ls]; [repeat constructor; intros [?|[]]; congruence|].
      inversion IH; subst. constructor; [|assumption].
      intros [?|?]; [congruence|contradiction].
Qed.

Lemma drop_while_suffix (p : N -> bool) (s : jsstring) :
  exists a, s = a ++ drop_while p s /\ forallb p a = true.
Proof.
  induction s as [|c s [a [E Ha]]]; simpl.
  - exists []. split; reflexivity.
  - destruct (p c) eqn:Hc.
    + exists (c :: a). simpl. rewrite Hc, Ha. split; [now f_equal|reflexivity].
    + exists []. split; reflexivity.
Qed.

Lemma drop_while_head (p : N -> bool) (s : jsstring) :
  match drop_while p s with
  | [] => True
  | c :: _ => p c = false
  end.
Proof.
  induction s as [|c s IH]; simpl; [exact I|].
  destruct (p c) eqn:Hc; [exact IH|exact Hc].
Qed.

(** [trim] only removes white space, at both ends. *)
Lemma trim_spec (s : jsstring) :
  exists a b, s = a ++ trim s ++ b
              /\ forallb is_space a = true /\ forallb is_space b = true.
Proof.
  unfold trim, trimEnd, trimStart.
  destruct (drop_while_suffix is_space s) as [a [Ea Ha]].
  destruct (drop_while_suffix is_space (rev (drop_while is_space s))) as [b [Eb Hb]].
  exists a, (rev b). repeat split; [|assumption|].
  - rewrite <- rev_app_distr, <- Eb, rev_involutive. exact Ea.
  - rewrite forallb_forall in *. intros x Hx. apply Hb. now apply in_rev.
Qed.

(** What [trim] returns neither starts nor ends with white space. *)
Lemma trim_ends (s : jsstring) :
  match trim s with [] => True | c :: _ => is_space c = false end
  /\ match rev (trim s) with [] => True | c :: _ => is_space c = false end.
Proof.
  unfold trim, trimEnd, trimStart. split.
  - pose proof (drop_while_head is_space s) as Hh.
    destruct (drop_while_suffix is_space (rev (drop_while is_space s))) as [b [Eb Hb]].
    remember (drop_while is_space (rev (drop_while is_space s))) as t eqn:Et.
    destruct (rev t) as [|c r] eqn:Er; [exact I|].
    assert (E : drop_while is_space s = rev t ++ rev b).
    { rewrite <- rev_app_distr, <- Eb, rev_involutive. reflexivity. }
    rewrite Er in E. rewrite E in Hh. exact Hh.
  - rewrite rev_involutive. apply drop_while_head.
Qed.

(* ------------------------------------------------------------------ *)
(** ** Facts on [slice] and on the index range *)
(* ------------------------------------------------------------------ *)

Local Open Scope Z_scope.

Lemma slice_Int {A : Type} (arr : list A) (a b : Z) :
  0 <= a -> 0 <= b ->
  slice arr (Int a) (Int b)
  = firstn (Z.to_nat (Z.min b (Z.of_nat (length arr)) - Z.min a (Z.of_nat (length arr))))
           (skipn (Z.to_nat (Z.min a (Z.of_nat (length arr)))) arr).
Proof.
  intros Ha Hb. unfold slice, relative_index.
  destruct (Z.ltb_spec a 0); [lia|]. destruct (Z.ltb_spec b 0); [lia|]. reflexivity.
Qed.

(** A start at or beyond the end of the array selects nothing, whatever
    the end index. *)
Lemma slice_from_end {A : Type} (arr : list A) (a : Z) (e : num) :
  Z.of_nat (length arr) <= a -> slice arr (Int a) e = [].
Proof.
  intros Ha. unfold slice.
  assert (Hk : relative_index (Z.of_nat (length arr)) (Int a) = Z.of_nat (length arr)).
  { unfold relative_index. destruct (Z.ltb_spec a 0); lia. }
  rewrite Hk.
  assert (Hf : relative_index (Z.of_nat (length arr)) e <= Z.of_nat (length arr)).
  { unfold relative_index. destruct e as [|z|]; try lia. destruct (Z.ltb_spec z 0); lia. }
  replace (Z.to_nat (relative_index (Z.of_nat (length arr)) e - Z.of_nat (length arr)))
    with O by lia.
  reflexivity.
Qed.

Lemma select_range_Int (urls : list jsstring) (s e : Z) :
  select_range urls (Int s) (Int e)
  = slice urls (Int (Z.max 0 s)) (Int (Z.min (Z.of_nat (length urls)) e)).
Proof. reflexivity. Qed.

Lemma nth_error_firstn_skipn {A : Type} (l : list A) (k n i : nat) :
  (i < n)%nat -> (k + n <= length l)%nat ->
  nth_error (firstn n (skipn k l)) i = nth_error l (k + i).
Proof.
  intros Hi Hn.
  rewrite nth_error_firstn.
  destruct (Nat.ltb_spec i n); [|lia].
  now rewrite nth_error_skipn.
Qed.

(** C5. With an inclusive end index [end_], which [main] turns into
    [end_ + 1] before it calls [downloadFromFile] (as index.js does), and
    [0 <= start <= end_] with [start] inside a non-empty list, the
    selection holds [end_ - start + 1] items ([end_] being clamped to the
    last index), and its [i]-th item is item [start + i] of the list. *)
Theorem select_range_inclusive (urls : list jsstring) (start end_ : Z)
        (c d : Z) :
  urls <> [] ->
  0 <= start <= end_ ->
  start < Z.of_nat (length urls) ->
  let last := Z.min end_ (Z.of_nat (length urls) - 1) in
  let options := main_options c d (Int start) (Some (Int end_)) in
  let selected := select_range urls (startIndex options) (endIndex options) in
  selected = firstn (Z.to_nat (last - start + 1)) (skipn (Z.to_nat start) urls)
  /\ Z.of_nat (length selected) = last - start + 1
  /\ (forall i : nat, (i < length selected)%nat ->
        nth_error selected i = nth_error urls (Z.to_nat start + i))
  /\ (end_ < Z.of_nat (length urls) ->
        Z.of_nat (length selected) = end_ - start + 1)
  /\ endIndex options = asked_end (Z.of_nat (length urls)) (Some (Int end_)).
Proof.
  intros Hne Hse Hlt last options selected.
  assert (E : selected
              = firstn (Z.to_nat (last - start + 1)) (skipn (Z.to_nat start) urls)).
  { unfold selected, last, options.
    cbn [main_options startIndex endIndex succ_num]. rewrite select_range_Int.
    rewrite slice_Int by lia. f_equal; [|f_equal]; lia. }
  assert (L : Z.of_nat (length selected) = last - start + 1).
  { rewrite E, length_firstn, length_skipn. unfold last. lia. }
  repeat split; try assumption.
  - intros i Hi. rewrite E. apply nth_error_firstn_skipn.
    + rewrite E, length_firstn in Hi. lia.
    + unfold last. lia.
  - intros Hend. rewrite L. unfold last. lia.
Qed.

(* ------------------------------------------------------------------ *)
(** ** The reader *)
(* ------------------------------------------------------------------ *)

Lemma str_eqb_nil (s : jsstring) : str_eqb s [] = negb (truthy s).
Proof. unfold str_eqb. destruct s; destruct (list_eq_dec _ _ _); simpl; congruence. Qed.

(** The two [filter] calls of the source keep what the one-pass reader of
    the specification keeps. *)
Lemma parse_urls_spec (content : jsstring) : parse_urls content = spec_read content.
Proof.
  unfold parse_urls, spec_read.
  induction (split LF content) as [|raw rest IH]; [reflexivity|].
  cbn [map filter read_lines].
  rewrite str_eqb_nil.
  destruct (truthy (trim raw)); cbn [andb negb]; [|exact IH].
  destruct (startsWith (js "#") (trim raw)); cbn [negb filter]; [exact IH|].
  fold (recognized (trim raw)).
  destruct (recognized (trim raw)); now rewrite IH.
Qed.

Lemma subseq_refl {A : Type} (l : list A) : subseq l l.
Proof. induction l; constructor; assumption. Qed.

Lemma subseq_filter {A : Type} (p : A -> bool) (l : list A) : subseq (filter p l) l.
Proof.
  induction l as [|x l IH]; simpl; [constructor|].
  destruct (p x); constructor; assumption.
Qed.

Lemma subseq_trans {A : Type} (l1 l2 l3 : list A) :
  subseq l1 l2 -> subseq l2 l3 -> subseq l1 l3.
Proof.
  intros H12 H23. revert l1 H12.
  induction H23 as [|x l2 l3 H IH|x l2 l3 H IH]; intros l1 H12.
  - exact H12.
  - constructor. now apply IH.
  - inversion H12; subst; constructor; now apply IH.
Qed.

Lemma parse_urls_subseq (content : jsstring) :
  subseq (parse_urls content) (map trim (split LF content)).
Proof.
  unfold parse_urls.
  eapply subseq_trans; apply subseq_filter.
Qed.

Lemma parse_urls_In (content line : jsstring) :
  In line (parse_urls content)
  <-> In line (map trim (split LF content))
      /\ line <> [] /\ startsWith (js "#") line = false /\ recognized line = true.
Proof.
  unfold parse_urls. rewrite !filter_In. fold (recognized line).
  rewrite andb_true_iff, negb_true_iff.
  assert (T : truthy line = true <-> line <> []).
  { destruct line; cbn [truthy]; split; intros; congruence. }
  rewrite T. tauto.
Qed.

Section Reader.
Context {W : Type} {platform : Platform W}.
Variable this : Downloader.

Lemma downloadFromFile_missing (fuel : nat) (w : W) (filePath : jsstring)
      (options : Options) :
  fs_existsSync w filePath = false ->
  downloadFromFile this fuel w filePath options
  = Some (w, [], Rejected (js "File not found: " ++ filePath)).
Proof. intros Hex. unfold downloadFromFile. now rewrite Hex. Qed.

Lemma downloadFromFile_empty (fuel : nat) (w : W) (filePath : jsstring)
      (options : Options) (content : jsstring) :
  fs_existsSync w filePath = true ->
  fs_readFileSync w filePath = Resolved content ->
  parse_urls content = [] ->
  downloadFromFile this fuel w filePath options
  = Some (w, [], Rejected (js "No valid YouTube URLs found in file")).
Proof.
  intros Hex Hread Hurls. unfold downloadFromFile.
  now rewrite Hex, Hread, Hurls.
Qed.

Lemma downloadFromFile_schedules (fuel : nat) (w : W) (filePath : jsstring)
      (options : Options) (content : jsstring) :
  fs_existsSync w filePath = true ->
  fs_readFileSync w filePath = Resolved content ->
  parse_urls content <> [] ->
  downloadFromFile this fuel w filePath options
  = match schedule this options
            (select_range (parse_urls content) (startIndex options) (endIndex options))
            fuel w with
    | None => None
    | Some r =>
        Some (run_world r, run_trace r,
              Resolved
                {| results := run_results r;
                   errors := run_errors r;
                   total := Z.of_nat (length
                     (select_range (parse_urls content) (startIndex options)
                                   (endIndex options)));
                   fullListTotal := Z.of_nat (length (parse_urls content)) |})
    end.
Proof.
  intros Hex Hread Hurls. unfold downloadFromFile. rewrite Hex, Hread.
  cbn [negb]. destruct (parse_urls content); [contradiction|reflexivity].
Qed.

(** C7. [downloadFromFile] rejects with a not-found error when the list
    file does not exist. When it exists and can be read, the work list is
    what the reader of the specification gives: the lines of the content,
    trimmed, without the empty lines, the comments and the lines that are
    not recognized, in the order of the file; the call rejects with the
    empty-source error when that list is empty, and otherwise goes on to
    schedule the selected part of exactly that list. *)
Theorem reader_contract (fuel : nat) (w : W) (filePath : jsstring)
        (options : Options) :
  (fs_existsSync w filePath = false ->
   downloadFromFile this fuel w filePath options
   = Some (w, [], Rejected (js "File not found: " ++ filePath)))
  /\ (forall content : jsstring,
        fs_existsSync w filePath = true ->
        fs_readFileSync w filePath = Resolved content ->
        let lines := split LF content in
        let urls := parse_urls content in
        join LF lines = content
        /\ urls = spec_read content
        /\ subseq urls (map trim lines)
        /\ (forall line : jsstring,
              In line urls
              <-> In line (map trim lines) /\ line <> []
                  /\ startsWith (js "#") line = false /\ recognized line = true)
        /\ (urls = [] ->
            downloadFromFile this fuel w filePath options
            = Some (w, [], Rejected (js "No valid YouTube URLs found in file")))
        /\ (urls <> [] ->
            downloadFromFile this fuel w filePath options
            = match schedule this options
                      (select_range urls (startIndex options) (endIndex options))
                      fuel w with
              | None => None
              | Some r =>
                  Some (run_world r, run_trace r,
                        Resolved
                          {| results := run_results r;
                             errors := run_errors r;
                             total := Z.of_nat (length
                               (select_range urls (startIndex options)
                                             (endIndex options)));
                             fullListTotal := Z.of_nat (length urls) |})
              end)).
Proof.
  split; [apply downloadFromFile_missing|].
  intros content Hex Hread lines urls.
  split; [apply join_split|].
  split; [apply parse_urls_spec|].
  split; [apply parse_urls_subseq|].
  split; [apply parse_urls_In|].
  split; intros Hurls.
  - now apply downloadFromFile_empty with (content := content).
  - now apply downloadFromFile_schedules.
Qed.

End Reader.

(* ------------------------------------------------------------------ *)
(** ** Facts on chunks *)
(* ------------------------------------------------------------------ *)

Lemma chunks_of_enough {A : Type} (c : nat) :
  (1 <= c)%nat ->
  forall (fuel1 fuel2 : nat) (l : list A),
    (length l <= fuel1)%nat -> (length l <= fuel2)%nat ->
    chunks_of fuel1 c l = chunks_of fuel2 c l.
Proof.
  intros Hc. induction fuel1 as [|fuel1 IH]; intros fuel2 l H1 H2.
  - destruct l; [|cbn [length] in H1; lia]. destruct fuel2; reflexivity.
  - destruct l as [|x l]; [destruct fuel2; reflexivity|].
    destruct fuel2 as [|fuel2]; [cbn [length] in H2; lia|].
    cbn [chunks_of]. f_equal.
    cbn [length] in H1, H2.
    apply IH; rewrite length_skipn; cbn [length]; lia.
Qed.

Lemma chunks_cons {A : Type} (c : nat) (l : list A) :
  (1 <= c)%nat -> l <> [] ->
  chunks c l = firstn c l :: chunks c (skipn c l).
Proof.
  intros Hc Hl. unfold chunks. destruct l as [|x l]; [contradiction|].
  cbn [length chunks_of]. f_equal.
  apply chunks_of_enough; [assumption| |lia].
  rewrite length_skipn. cbn [length]. lia.
Qed.

Lemma chunks_nil {A : Type} (c : nat) : chunks c (@nil A) = [].
Proof. reflexivity. Qed.

(** Induction on a list, chunk by chunk. *)
Lemma chunk_induction {A : Type} (c : nat) (Hc : (1 <= c)%nat)
      (P : list A -> Prop) :
  P [] ->
  (forall l, l <> [] -> P (skipn c l) -> P l) ->
  forall l, P l.
Proof.
  intros Hnil Hstep l.
  remember (length l) as n eqn:Hn. revert l Hn.
  induction n as [n IH] using lt_wf_ind. intros l Hn.
  destruct l as [|x l]; [exact Hnil|].
  apply Hstep; [discriminate|].
  apply (IH (length (skipn c (x :: l)))); [|reflexivity].
  subst n. rewrite length_skipn. cbn [length]. lia.
Qed.

(** The chunks, put end to end, are the list. *)
Lemma concat_chunks {A : Type} (c : nat) (l : list A) :
  (1 <= c)%nat -> concat (chunks c l) = l.
Proof.
  intros Hc. induction l as [|l Hl IH] using (@chunk_induction A c Hc);
    [reflexivity|].
  rewrite chunks_cons by assumption. cbn [concat]. rewrite IH.
  apply firstn_skipn.
Qed.

(** Their sizes: [c] as often as it fits, then the remainder, if any. *)
Lemma chunk_sizes {A : Type} (c : nat) (l : list A) :
  (1 <= c)%nat ->
  map (@length A) (chunks c l)
  = repeat c (length l / c)
    ++ (if (length l mod c =? 0)%nat then [] else [(length l mod c)%nat]).
Proof.
  intros Hc. induction l as [|l Hl IH] using (@chunk_induction A c Hc).
  - cbn [length]. rewrite Nat.Div0.div_0_l, Nat.Div0.mod_0_l. reflexivity.
  - rewrite chunks_cons by assumption. cbn [map]. rewrite IH.
    rewrite length_firstn, length_skipn.
    destruct (Nat.le_gt_cases c (length l)) as [Hge|Hlt].
    + replace (Nat.min c (length l)) with c by lia.
      assert (E : length l = (length l - c + 1 * c)%nat) by lia.
      assert (Hd : (length l / c = S ((length l - c) / c))%nat).
      { rewrite E at 1. rewrite Nat.div_add by lia. lia. }
      assert (Hm : (length l mod c = (length l - c) mod c)%nat).
      { rewrite E at 1. now rewrite Nat.Div0.mod_add. }
      rewrite Hd, Hm. reflexivity.
    + replace (Nat.min c (length l)) with (length l) by lia.
      replace (length l - c)%nat with O by lia.
      rewrite Nat.Div0.div_0_l, Nat.Div0.mod_0_l.
      rewrite (Nat.div_small (length l) c), (Nat.mod_small (length l) c) by lia.
      destruct l as [|x l]; [contradiction|]. reflexivity.
Qed.

Lemma firstn_cap {A : Type} (n m : nat) (l : list A) :
  (length l <= n)%nat -> (length l <= m)%nat -> firstn n l = firstn m l.
Proof. intros Hn Hm. now rewrite !firstn_all2. Qed.

(** The chunk the loop takes at index [i]. *)
Lemma slice_chunk {A : Type} (arr : list A) (i c : Z) :
  0 <= i -> 1 <= c ->
  slice arr (Int i) (Int (i + c))
  = firstn (Z.to_nat c) (skipn (Z.to_nat i) arr).
Proof.
  intros Hi Hc. rewrite slice_Int by lia.
  destruct (Z.le_gt_cases (Z.of_nat (length arr)) i) as [Hout|Hin].
  - rewrite !skipn_all2 by lia. now rewrite !firstn_nil.
  - replace (Z.min i (Z.of_nat (length arr))) with i by lia.
    destruct (Z.le_gt_cases (i + c) (Z.of_nat (length arr))) as [Hfit|Hcut].
    + f_equal. lia.
    + apply firstn_cap; rewrite length_skipn; lia.
Qed.

(* ------------------------------------------------------------------ *)
(** ** Facts on traces *)
(* ------------------------------------------------------------------ *)

Lemma settlements_app (t1 t2 : list Event) :
  settlements (t1 ++ t2) = settlements t1 ++ settlements t2.
Proof.
  induction t1 as [|e t1 IH]; [reflexivity|].
  destruct e; cbn [app settlements]; now rewrite IH.
Qed.

Lemma sleeps_app (t1 t2 : list Event) :
  sleeps (t1 ++ t2) = (sleeps t1 + sleeps t2)%nat.
Proof. unfold sleeps. now rewrite filter_app, length_app. Qed.

Lemma settlements_item_events (it : Item) : settlements (item_events it) = [it].
Proof. destruct it; reflexivity. Qed.

Lemma settlements_chunk_events (block : list Item) :
  settlements (chunk_events block) = block.
Proof.
  unfold chunk_events. rewrite !settlements_app.
  assert (E1 : forall us, settlements (map Invoke us) = []).
  { induction us; [reflexivity|assumption]. }
  assert (E2 : forall b : list Item,
             settlements (map (fun it : Item => Settle (fst it) (snd it)) b) = b).
  { induction b as [|[u s] b IH]; [reflexivity|]. cbn [map settlements fst snd].
    now rewrite IH. }
  rewrite E1, E2. cbn [settlements app]. now rewrite app_nil_r.
Qed.

Lemma sleeps_chunk_events (block : list Item) : sleeps (chunk_events block) = O.
Proof.
  unfold chunk_events. rewrite !sleeps_app.
  assert (E1 : forall us, sleeps (map Invoke us) = O).
  { induction us; [reflexivity|assumption]. }
  assert (E2 : forall b : list Item,
             sleeps (map (fun it : Item => Settle (fst it) (snd it)) b) = O).
  { induction b; [reflexivity|assumption]. }
  now rewrite E1, E2.
Qed.

Lemma settlements_sequential_trace (d n : Z) (items : list Item) :
  forall i, settlements (sequential_trace d n i items) = items.
Proof.
  induction items as [|it items IH]; intros i; [reflexivity|].
  cbn [sequential_trace]. rewrite !settlements_app, settlements_item_events, IH.
  destruct (negb (item_rejected it) && (i <? n - 1) && (0 <? d)); reflexivity.
Qed.

Lemma sequential_trace_cons (d n i : Z) (it : Item) (items : list Item) :
  sequential_trace d n i (it :: items)
  = sequential_trace d n i [it] ++ sequential_trace d n (i + 1) items.
Proof. cbn [sequential_trace]. now rewrite app_nil_r, <- !app_assoc. Qed.

Lemma settlements_chunked_trace (d : Z) (blocks : list (list Item)) :
  settlements (chunked_trace d blocks) = concat blocks.
Proof.
  induction blocks as [|b blocks IH]; [reflexivity|].
  cbn [chunked_trace concat].
  rewrite !settlements_app, settlements_chunk_events, IH.
  destruct blocks; [reflexivity|]. destruct (0 <? d); reflexivity.
Qed.

(** With a positive delay and no rejected item, the sequential trace is
    the items one after the other with a timer between two of them. *)
Lemma sequential_trace_all_resolved (d n : Z) (items : list Item) :
  0 < d ->
  forallb (fun it => negb (item_rejected it)) items = true ->
  forall i, i + Z.of_nat (length items) = n ->
  sequential_trace d n i items = separated [Sleep d] (map item_events items).
Proof.
  intros Hd. induction items as [|it items IH]; intros Hall i Hn; [reflexivity|].
  cbn [forallb] in Hall. apply andb_true_iff in Hall as [Hit Hall].
  cbn [sequential_trace map separated]. rewrite Hit.
  rewrite (IH Hall (i + 1)) by (cbn [length] in Hn; lia).
  destruct (Z.ltb_spec 0 d); [|lia].
  destruct items as [|it' items].
  - cbn [length] in Hn. destruct (Z.ltb_spec i (n - 1)); [lia|].
    cbn [andb map separated]. now rewrite !app_nil_r.
  - cbn [length] in Hn. destruct (Z.ltb_spec i (n - 1)); [|lia].
    reflexivity.
Qed.

Lemma sequential_trace_no_delay (d n : Z) (items : list Item) :
  d <= 0 ->
  forall i, sequential_trace d n i items = concat (map item_events items).
Proof.
  intros Hd. induction items as [|it items IH]; intros i; [reflexivity|].
  cbn [sequential_trace map concat]. rewrite IH.
  destruct (Z.ltb_spec 0 d); [lia|]. now rewrite andb_false_r.
Qed.

Lemma chunked_trace_delay (d : Z) (blocks : list (list Item)) :
  0 < d ->
  chunked_trace d blocks = separated [Sleep d] (map chunk_events blocks).
Proof.
  intros Hd. induction blocks as [|b blocks IH]; [reflexivity|].
  cbn [chunked_trace map separated]. rewrite IH.
  destruct (Z.ltb_spec 0 d); [|lia].
  destruct blocks; [cbn [map separated]; now rewrite !app_nil_r|reflexivity].
Qed.

Lemma chunked_trace_no_delay (d : Z) (blocks : list (list Item)) :
  d <= 0 ->
  chunked_trace d blocks = concat (map chunk_events blocks).
Proof.
  intros Hd. induction blocks as [|b blocks IH]; [reflexivity|].
  cbn [chunked_trace map concat]. rewrite IH.
  destruct (Z.ltb_spec 0 d); [lia|].
  destruct blocks; reflexivity.
Qed.

Lemma pauses_chunk_events (block : list Item) (rest : list Event) :
  pauses (chunk_events block ++ rest) = slept rest :: pauses rest.
Proof.
  unfold chunk_events.
  assert (E1 : forall us t, pauses (map Invoke us ++ t) = pauses t).
  { induction us; intros t; [reflexivity|apply IHus]. }
  assert (E2 : forall (b : list Item) t,
             pauses (map (fun it : Item => Settle (fst it) (snd it)) b ++ t) = pauses t).
  { induction b; intros t; [reflexivity|apply IHb]. }
  now rewrite <- !app_assoc, E1, E2.
Qed.

Lemma slept_chunked_trace (d : Z) (blocks : list (list Item)) :
  slept (chunked_trace d blocks) = 0.
Proof.
  destruct blocks as [|b blocks]; [reflexivity|].
  cbn [chunked_trace]. unfold chunk_events.
  destruct b as [|it b]; reflexivity.
Qed.

(** After each chunk but the last the scheduler stays suspended for the
    delay, and after the last one it goes on at once. *)
Lemma pauses_chunked_trace (d : Z) (blocks : list (list Item)) :
  0 <= d ->
  pauses (chunked_trace d blocks)
  = match blocks with
    | [] => []
    | _ :: blocks' => repeat d (length blocks') ++ [0]
    end.
Proof.
  intros Hd. induction blocks as [|b blocks IH]; [reflexivity|].
  cbn [chunked_trace]. rewrite pauses_chunk_events.
  destruct blocks as [|b' blocks]; [reflexivity|].
  cbn [length repeat app]. rewrite <- IH.
  destruct (Z.ltb_spec 0 d); cbn [app slept pauses];
    rewrite slept_chunked_trace; f_equal; lia.
Qed.

Lemma chunked_trace_order (d : Z) (blocks : list (list Item)) :
  filter (fun e => negb (is_sleep e)) (chunked_trace d blocks)
  = concat (map chunk_events blocks).
Proof.
  assert (E : forall b, filter (fun e => negb (is_sleep e)) (chunk_events b)
                        = chunk_events b).
  { intros b. apply forallb_filter_id. unfold chunk_events.
    rewrite !forallb_app.
    assert (E1 : forallb (fun e => negb (is_sleep e)) (map Invoke (map fst b)) = true)
      by (induction (map fst b); [reflexivity|assumption]).
    assert (E2 : forallb (fun e => negb (is_sleep e))
                         (map (fun it : Item => Settle (fst it) (snd it)) b) = true)
      by (clear E1; induction b; [reflexivity|assumption]).
    now rewrite E1, E2. }
  induction blocks as [|b blocks IH]; [reflexivity|].
  cbn [chunked_trace map concat]. rewrite !filter_app, IH, E. f_equal.
  destruct blocks; [reflexivity|]. destruct (0 <? d); reflexivity.
Qed.

Lemma sleeps_separated (d : Z) (blocks : list (list Event)) :
  Forall (fun b => sleeps b = O) blocks ->
  sleeps (separated [Sleep d] blocks) = (length blocks - 1)%nat.
Proof.
  induction 1 as [|b blocks Hb Hall IH]; [reflexivity|].
  destruct blocks as [|b' blocks].
  - cbn [separated length]. rewrite Hb. reflexivity.
  - change (separated [Sleep d] (b :: b' :: blocks))
      with (b ++ [Sleep d] ++ separated [Sleep d] (b' :: blocks)).
    rewrite !sleeps_app, Hb, IH. cbn [length]. unfold sleeps at 1. cbn. lia.
Qed.

Lemma sleeps_concat (blocks : list (list Event)) :
  Forall (fun b => sleeps b = O) blocks -> sleeps (concat blocks) = O.
Proof.
  induction 1 as [|b blocks Hb Hall IH]; [reflexivity|].
  cbn [concat]. now rewrite sleeps_app, Hb, IH.
Qed.

Lemma filter_split_perm {A : Type} (p : A -> bool) (l : list A) :
  Permutation (filter (fun x => negb (p x)) l ++ filter p l) l.
Proof.
  induction l as [|x l IH]; [constructor|].
  cbn [filter]. destruct (p x); cbn [negb app].
  - apply Permutation_sym, Permutation_cons_app, Permutation_sym, IH.
  - now constructor.
Qed.

Lemma filter_split_length {A : Type} (p : A -> bool) (l : list A) :
  (length (filter (fun x => negb (p x)) l) + length (filter p l) = length l)%nat.
Proof.
  rewrite <- length_app. apply Permutation_length, filter_split_perm.
Qed.

Lemma map_fst_combine {A B : Type} (l : list A) (l' : list B) :
  length l = length l' -> map fst (combine l l') = l.
Proof.
  revert l'. induction l as [|x l IH]; intros [|y l'] H; try discriminate;
    [reflexivity|].
  cbn [combine map fst]. f_equal. apply IH. now injection H.
Qed.

(* ------------------------------------------------------------------ *)
(** ** The scheduler *)
(* ------------------------------------------------------------------ *)

Section Scheduling.
Context {W : Type} {platform : Platform W}.
Variable this : Downloader.
Variable options : Options.
Variable urls : list jsstring.

Lemma extends_trans (failed : Entry -> bool) (r1 r2 r3 : @Run W)
      (items1 items2 : list Item) (evs1 evs2 : list Event) :
  extends failed r1 r2 items1 evs1 ->
  extends failed r2 r3 items2 evs2 ->
  extends failed r1 r3 (items1 ++ items2) (evs1 ++ evs2).
Proof.
  intros (T1 & R1 & E1) (T2 & R2 & E2). unfold extends.
  rewrite T2, T1, R2, R1, E2, E1, map_app, !filter_app, !app_assoc. auto.
Qed.

(** One turn of the sequential loop. *)
Lemma sequential_step_spec (i : Z) (url : jsstring) (r : @Run W) :
  exists s : Settled Download,
    extends is_failure r (sequential_step this options urls i url r) [(url, s)]
      (sequential_trace (delay options) (todo_length urls) i [(url, s)]).
Proof.
  unfold sequential_step.
  destruct (downloadMp3_url this (run_world r) url) as [w' s].
  exists s. unfold extends. cbn [sequential_trace item_events fst snd map].
  unfold item_entry, item_rejected. cbn [fst snd].
  destruct s as [result|message]; cbn [rejected negb andb filter is_failure].
  - destruct ((i <? todo_length urls - 1) && (0 <? delay options));
      cbn; rewrite ?app_nil_r, <- ?app_assoc; auto.
  - cbn. rewrite ?app_nil_r. auto.
Qed.

(** The sequential loop, entered at index [i]. *)
Lemma sequential_spec (todo : list jsstring) :
  forall (i : Z) (r : @Run W),
  exists items : list Item,
    map fst items = todo
    /\ extends is_failure r (sequential this options urls i todo r) items
         (sequential_trace (delay options) (todo_length urls) i items).
Proof.
  induction todo as [|url todo IH]; intros i r.
  - exists []. split; [reflexivity|]. unfold extends. cbn.
    now rewrite !app_nil_r.
  - cbn [sequential].
    destruct (sequential_step_spec i url r) as [s Hs].
    destruct (IH (i + 1) (sequential_step this options urls i url r))
      as (items & Hfst & Hrest).
    exists ((url, s) :: items). split; [cbn [map fst]; now rewrite Hfst|].
    rewrite sequential_trace_cons.
    exact (extends_trans Hs Hrest).
Qed.

Lemma promise_all_length (chunk : list jsstring) :
  forall w : W, length (snd (promise_all this w chunk)) = length chunk.
Proof.
  induction chunk as [|url chunk IH]; intros w; [reflexivity|].
  cbn [promise_all].
  destruct (downloadMp3_url this w url) as [w1 s].
  specialize (IH w1). destruct (promise_all this w1 chunk) as [w2 ss].
  cbn [snd length] in *. now rewrite IH.
Qed.

Lemma classify_spec (es : list Entry) :
  forall r : @Run W,
    let r' := fold_left classify es r in
    run_world r' = run_world r
    /\ run_trace r' = run_trace r
    /\ run_results r' = run_results r ++ filter (fun e => negb (error_truthy e)) es
    /\ run_errors r' = run_errors r ++ filter error_truthy es.
Proof.
  induction es as [|e es IH]; intros r; cbn [fold_left filter].
  - now rewrite !app_nil_r.
  - destruct (IH (classify r e)) as (Hw & Ht & Hr & He).
    cbn zeta. rewrite Hw, Ht, Hr, He. unfold classify.
    destruct (error_truthy e); cbn [negb run_world run_trace run_results
      run_errors push_error push_result]; rewrite <- ?app_assoc; auto.
Qed.

(** One turn of the chunked loop: the chunk is the next [concurrent]
    urls, and the timer follows when urls remain and the delay is
    positive. *)
Lemma chunked_step_spec (i : Z) (r : @Run W) :
  0 <= i -> 1 <= concurrent options ->
  exists block : list Item,
    map fst block
    = firstn (Z.to_nat (concurrent options)) (skipn (Z.to_nat i) urls)
    /\ extends error_truthy r (chunked_step this options urls i r) block
         (chunk_events block
          ++ (if (i + concurrent options <? todo_length urls) && (0 <? delay options)
              then [Sleep (delay options)] else [])).
Proof.
  intros Hi Hc. unfold chunked_step. rewrite slice_chunk by assumption.
  set (chunk := firstn (Z.to_nat (concurrent options)) (skipn (Z.to_nat i) urls)).
  pose proof (promise_all_length chunk (run_world r)) as Hlen.
  destruct (promise_all this (run_world r) chunk) as [w' ss]. cbn [snd] in Hlen.
  exists (combine chunk ss).
  assert (Hfst : map fst (combine chunk ss) = chunk)
    by (apply map_fst_combine; now symmetry).
  split; [exact Hfst|].
  assert (Hentries : map (fun p : jsstring * Settled Download => to_entry (fst p) (snd p))
                         (combine chunk ss)
                     = map item_entry (combine chunk ss)).
  { apply map_ext. intros [u s]. reflexivity. }
  rewrite Hentries.
  match goal with
  | |- context [fold_left classify ?es ?r0] =>
      destruct (classify_spec es r0) as (Hw & Ht & Hr & He);
      set (r2 := fold_left classify es r0) in *
  end.
  unfold extends, chunk_events. rewrite Hfst.
  destruct ((i + concurrent options <? todo_length urls) && (0 <? delay options));
    cbn [sleep log set_world run_trace run_results run_errors];
    rewrite Ht, Hr, He; cbn [log set_world run_trace run_results run_errors];
    rewrite ?app_nil_r, <- ?app_assoc; auto.
Qed.

(** The chunked loop, entered at index [i]: with a chunk size of at
    least one, [fuel] iterations are enough as soon as [fuel] exceeds the
    number of urls left. *)
Lemma chunked_spec (fuel : nat) :
  1 <= concurrent options ->
  forall (i : Z) (r : @Run W),
    0 <= i ->
    (Z.to_nat (todo_length urls - i) < fuel)%nat ->
    exists (r' : @Run W) (blocks : list (list Item)),
      chunked this options urls fuel i r = Some r'
      /\ map (map fst) blocks
         = chunks (Z.to_nat (concurrent options)) (skipn (Z.to_nat i) urls)
      /\ extends error_truthy r r' (concat blocks)
           (chunked_trace (delay options) blocks).
Proof.
  intros Hc. unfold todo_length.
  induction fuel as [|fuel IH]; intros i r Hi Hfuel; [lia|].
  cbn [chunked]. unfold todo_length.
  destruct (Z.ltb_spec i (Z.of_nat (length urls))) as [Hin|Hout].
  - destruct (chunked_step_spec r Hi Hc) as (block & Hblock & Hstep).
    destruct (IH (i + concurrent options) (chunked_step this options urls i r))
      as (r' & blocks & Hrun & Hblocks & Hrest); [lia|lia|].
    exists r', (block :: blocks). split; [exact Hrun|].
    assert (Hskip : skipn (Z.to_nat (i + concurrent options)) urls
                    = skipn (Z.to_nat (concurrent options)) (skipn (Z.to_nat i) urls)).
    { rewrite skipn_skipn. f_equal. lia. }
    assert (Hne : skipn (Z.to_nat i) urls <> []).
    { intros E. apply (f_equal (@length _)) in E.
      rewrite length_skipn in E. cbn [length] in E. lia. }
    split.
    + cbn [map]. rewrite chunks_cons by (assumption || lia).
      rewrite Hblock, Hblocks, Hskip. reflexivity.
    + pose proof (extends_trans Hstep Hrest) as H.
      cbn [concat chunked_trace].
      assert (Hsep : (if (i + concurrent options <? todo_length urls)
                         && (0 <? delay options)
                      then [Sleep (delay options)] else [])
                     = match blocks with
                       | [] => []
                       | _ :: _ => if 0 <? delay options
                                   then [Sleep (delay options)] else []
                       end).
      { unfold todo_length.
        destruct (Z.ltb_spec (i + concurrent options) (Z.of_nat (length urls)))
          as [Hmore|Hlast].
        - destruct blocks as [|b blocks]; [|reflexivity].
          exfalso. cbn [map] in Hblocks. symmetry in Hblocks.
          assert (Hne' : skipn (Z.to_nat (i + concurrent options)) urls <> []).
          { intros E. apply (f_equal (@length _)) in E.
            rewrite length_skipn in E. cbn [length] in E. lia. }
          rewrite chunks_cons in Hblocks by (assumption || lia). discriminate.
        - destruct blocks as [|b blocks]; [reflexivity|].
          exfalso. rewrite skipn_all2 in Hblocks by lia. discriminate. }
      rewrite <- Hsep, <- app_assoc in *. exact H.
  - exists r, []. split; [reflexivity|].
    split; [rewrite skipn_all2 by lia; reflexivity|].
    unfold extends. cbn. now rewrite !app_nil_r.
Qed.

(** With a chunk size of zero or less the index never reaches the end of
    a list that is not empty: no amount of fuel lets the loop finish. *)
Lemma chunked_diverges (fuel : nat) :
  concurrent options <= 0 ->
  urls <> [] ->
  forall (i : Z) (r : @Run W),
    i <= 0 -> chunked this options urls fuel i r = None.
Proof.
  intros Hc Hurls. induction fuel as [|fuel IH]; intros i r Hi; [reflexivity|].
  cbn [chunked]. unfold todo_length.
  destruct (Z.ltb_spec i (Z.of_nat (length urls))) as [_|Hout].
  - apply IH. lia.
  - destruct urls; [contradiction|]. cbn [length] in Hout. lia.
Qed.

Lemma concat_map_fst (blocks : list (list Item)) :
  map fst (concat blocks) = concat (map (map fst) blocks).
Proof. now rewrite concat_map. Qed.

(** Both modes at once: the run ends, every url settles once, in the
    order of the list, and its entry goes to [errors] when the mode sees
    a failure in it, and to [results] otherwise. *)
Lemma schedule_spec (fuel : nat) (w : W) :
  1 <= concurrent options ->
  (length urls < fuel)%nat ->
  exists r : @Run W,
    schedule this options urls fuel w = Some r
    /\ map fst (settlements (run_trace r)) = urls
    /\ run_results r
       = filter (fun e => negb (failed_in options e))
                (map item_entry (settlements (run_trace r)))
    /\ run_errors r
       = filter (failed_in options) (map item_entry (settlements (run_trace r))).
Proof.
  intros Hc Hfuel. unfold schedule, failed_in.
  destruct (Z.eqb_spec (concurrent options) 1) as [Hseq|Hpar].
  - destruct (sequential_spec urls 0 (start_run w)) as (items & Hfst & Ht & Hr & He).
    eexists. split; [reflexivity|].
    rewrite Ht, Hr, He. cbn [start_run run_trace run_results run_errors app].
    rewrite settlements_sequential_trace. auto.
  - destruct (@chunked_spec fuel Hc 0 (start_run w)) as
        (r & blocks & Hrun & Hblocks & Ht & Hr & He);
      [lia|unfold todo_length; lia|].
    exists r. split; [exact Hrun|].
    rewrite Ht, Hr, He. cbn [start_run run_trace run_results run_errors app].
    rewrite settlements_chunked_trace, concat_map_fst, Hblocks.
    cbn [Z.to_nat skipn]. rewrite concat_chunks by lia. auto.
Qed.

End Scheduling.

Lemma sequential_trace_order (d n : Z) (items : list Item) :
  forall i,
    filter (fun e => negb (is_sleep e)) (sequential_trace d n i items)
    = concat (map item_events items).
Proof.
  induction items as [|it items IH]; intros i; [reflexivity|].
  cbn [sequential_trace map concat]. rewrite !filter_app, IH.
  destruct (negb (item_rejected it) && (i <? n - 1) && (0 <? d)); reflexivity.
Qed.

Lemma sleeps_blocks (A : Type) (f : A -> list Event) (l : list A) :
  (forall x, sleeps (f x) = O) -> Forall (fun b => sleeps b = O) (map f l).
Proof. intros H. apply Forall_forall. intros b (x & <- & _)%in_map_iff. apply H. Qed.

Lemma sleeps_item_events (it : Item) : sleeps (item_events it) = O.
Proof. reflexivity. Qed.

Lemma block_sizes (blocks : list (list Item)) :
  map (@length _) (map (map fst) blocks) = map (@length _) blocks.
Proof. rewrite map_map. apply map_ext. intros b. apply length_map. Qed.

Lemma exactly_one {A : Type} (p : A -> bool) (l : list A) :
  forall (k : nat) (x : A),
    nth_error l k = Some x ->
    p x = true ->
    (forall j y, j <> k -> nth_error l j = Some y -> p y = false) ->
    filter p l = [x]
    /\ length (filter (fun y => negb (p y)) l) = (length l - 1)%nat.
Proof.
  induction l as [|a l IH]; intros k x Hk Hx Hothers.
  - destruct k; discriminate.
  - destruct k as [|k]; cbn [nth_error] in Hk.
    + injection Hk as ->. cbn [filter]. rewrite Hx. cbn [negb].
      assert (Hnone : forall y, In y l -> p y = false).
      { intros y (j & Hj)%In_nth_error. apply (Hothers (S j)); [lia|exact Hj]. }
      assert (E : filter p l = []).
      { clear -Hnone. induction l as [|b l IH]; [reflexivity|].
        cbn [filter]. rewrite (Hnone b) by now left.
        apply IH. intros y Hy. apply Hnone. now right. }
      split; [now rewrite E|].
      pose proof (filter_split_length p l) as Hlen. rewrite E in Hlen.
      cbn [length] in *. lia.
    + assert (Ha : p a = false) by (apply (Hothers O); [lia|reflexivity]).
      destruct (IH k x Hk Hx) as [E L].
      { intros j y Hj Hy. apply (Hothers (S j)); [lia|exact Hy]. }
      cbn [filter]. rewrite Ha. cbn [negb length]. split; [exact E|].
      rewrite L. assert (Hb : (k < length l)%nat)
        by (apply nth_error_Some; congruence). lia.
Qed.

Lemma select_range_length (urls : list jsstring) (a b : num) :
  (length (select_range urls a b) <= length urls)%nat.
Proof.
  unfold select_range, slice. rewrite length_firstn, length_skipn. lia.
Qed.

(* ------------------------------------------------------------------ *)
(** ** The world of a run *)
(* ------------------------------------------------------------------ *)

Lemma total_sleep_app (t1 t2 : list Event) :
  total_sleep (t1 ++ t2) = total_sleep t1 + total_sleep t2.
Proof.
  induction t1 as [|e t1 IH]; [reflexivity|].
  destruct e; cbn [app total_sleep]; rewrite IH; lia.
Qed.

Lemma total_sleep_chunk_events (block : list Item) :
  total_sleep (chunk_events block) = 0.
Proof.
  unfold chunk_events. rewrite !total_sleep_app.
  assert (H1 : forall us, total_sleep (map Invoke us) = 0)
    by (induction us; [reflexivity|assumption]).
  assert (H2 : total_sleep (map (fun it : Item => Settle (fst it) (snd it)) block) = 0)
    by (induction block; [reflexivity|assumption]).
  rewrite H1, H2. reflexivity.
Qed.

(** The timers of the chunked loop add up to the delay, once for each
    chunk but the last. *)
Lemma total_sleep_chunked_trace (d : Z) (blocks : list (list Item)) :
  0 <= d ->
  total_sleep (chunked_trace d blocks) = d * Z.of_nat (length blocks - 1).
Proof.
  intros Hd. induction blocks as [|b blocks IH]; [cbn; lia|].
  cbn [chunked_trace]. rewrite !total_sleep_app, total_sleep_chunk_events, IH.
  destruct blocks as [|b' blocks]; [cbn; lia|].
  cbn [length]. destruct (Z.ltb_spec 0 d); cbn [total_sleep]; [lia|].
  replace d with 0 by lia. lia.
Qed.

Section World.
Context {W : Type} {platform : Platform W}.
Variable this : Downloader.

Lemma replay_app (t1 t2 : list Event) :
  forall w : W, replay this w (t1 ++ t2) = replay this (replay this w t1) t2.
Proof.
  induction t1 as [|e t1 IH]; intros w; [reflexivity|].
  destruct e; cbn [app replay]; apply IH.
Qed.

Lemma replay_invokes (chunk : list jsstring) :
  forall w : W,
    replay this w (map Invoke chunk) = fst (promise_all this w chunk).
Proof.
  induction chunk as [|url chunk IH]; intros w; [reflexivity|].
  cbn [map replay promise_all]. rewrite IH.
  destruct (downloadMp3_url this w url) as [w1 s]. cbn [fst].
  now destruct (promise_all this w1 chunk).
Qed.

Lemma replay_settles {A : Type} (f : A -> jsstring) (g : A -> Settled Download)
      (l : list A) (w : W) :
  replay this w (map (fun p => Settle (f p) (g p)) l) = w.
Proof. induction l as [|p l IH]; [reflexivity|exact IH]. Qed.

(** Each turn of either loop leaves the world its events tell of. *)
Lemma sequential_step_world (options : Options) (urls : list jsstring)
      (i : Z) (url : jsstring) (w : W) (r : @Run W) :
  run_world r = replay this w (run_trace r) ->
  run_world (sequential_step this options urls i url r)
  = replay this w (run_trace (sequential_step this options urls i url r)).
Proof.
  intros Hr. unfold sequential_step.
  destruct (downloadMp3_url this (run_world r) url) as [w' s] eqn:E.
  assert (Hw : w' = fst (downloadMp3_url this (replay this w (run_trace r)) url))
    by (rewrite <- Hr, E; reflexivity).
  destruct s as [result|message].
  - destruct ((i <? todo_length urls - 1) && (0 <? delay options));
      cbn [sleep log set_world push_result run_world run_trace];
      rewrite ?replay_app; cbn [replay]; now rewrite <- Hw.
  - cbn [log set_world push_error run_world run_trace].
    rewrite replay_app. cbn [replay]. now rewrite <- Hw.
Qed.

Lemma sequential_world (options : Options) (urls : list jsstring) (w : W)
      (todo : list jsstring) :
  forall (i : Z) (r : @Run W),
    run_world r = replay this w (run_trace r) ->
    run_world (sequential this options urls i todo r)
    = replay this w (run_trace (sequential this options urls i todo r)).
Proof.
  induction todo as [|url todo IH]; intros i r Hr; [exact Hr|].
  cbn [sequential]. apply IH. now apply sequential_step_world.
Qed.

Lemma chunked_step_world (options : Options) (urls : list jsstring)
      (i : Z) (w : W) (r : @Run W) :
  run_world r = replay this w (run_trace r) ->
  run_world (chunked_step this options urls i r)
  = replay this w (run_trace (chunked_step this options urls i r)).
Proof.
  intros Hr. unfold chunked_step.
  set (chunk := slice urls (Int i) (Int (i + concurrent options))).
  pose proof (replay_invokes chunk (run_world r)) as Hinv.
  destruct (promise_all this (run_world r) chunk) as [w' ss]. cbn [fst] in Hinv.
  match goal with
  | |- context [fold_left classify ?es ?r0] =>
      destruct (classify_spec es r0) as (Hw & Ht & _);
      set (r2 := fold_left classify es r0) in *
  end.
  cbn [log set_world run_world run_trace] in Hw, Ht.
  assert (H2 : run_world r2 = replay this w (run_trace r2)).
  { rewrite Hw, Ht, !replay_app, <- Hr, Hinv, replay_settles. reflexivity. }
  destruct ((i + concurrent options <? todo_length urls) && (0 <? delay options));
    [|exact H2].
  cbn [sleep log set_world run_world run_trace].
  rewrite replay_app, <- H2. reflexivity.
Qed.

Lemma chunked_world (options : Options) (urls : list jsstring) (w : W)
      (fuel : nat) :
  forall (i : Z) (r r' : @Run W),
    chunked this options urls fuel i r = Some r' ->
    run_world r = replay this w (run_trace r) ->
    run_world r' = replay this w (run_trace r').
Proof.
  induction fuel as [|fuel IH]; intros i r r' Hrun Hr; [discriminate|].
  cbn [chunked] in Hrun.
  destruct (i <? todo_length urls).
  - apply (IH _ _ r' Hrun). now apply chunked_step_world.
  - now injection Hrun as <-.
Qed.

(** In either mode the world a run leaves is the one its trace tells of:
    the pipelines ran in the order of the [Invoke]s, and a timer fired
    wherever the trace has a [Sleep]. *)
Lemma schedule_world (options : Options) (urls : list jsstring) (fuel : nat)
      (w : W) (r : @Run W) :
  schedule this options urls fuel w = Some r ->
  run_world r = replay this w (run_trace r).
Proof.
  unfold schedule. destruct (concurrent options =? 1).
  - intros [= <-]. now apply sequential_world.
  - intros H. now apply (@chunked_world options urls w fuel 0 (start_run w) r H).
Qed.

(** What the timers add to a measure of the time that has gone by in the
    world: exactly their milliseconds when the pipelines take no time, and
    at least as much when they do not turn the time back. *)
Lemma elapsed_replay (elapsed : W -> Z) (tr : list Event) :
  (forall v ms, elapsed (setTimeout v ms) = elapsed v + ms) ->
  forall w : W,
    ((forall v url, elapsed v <= elapsed (fst (downloadMp3_url this v url))) ->
     elapsed w + total_sleep tr <= elapsed (replay this w tr))
    /\ ((forall v url, elapsed (fst (downloadMp3_url this v url)) = elapsed v) ->
        elapsed (replay this w tr) = elapsed w + total_sleep tr).
Proof.
  intros Htimer. induction tr as [|e tr IH]; intros w.
  - cbn. split; intros _; lia.
  - destruct e as [url|url s| |ms]; cbn [replay total_sleep].
    + destruct (IH (fst (downloadMp3_url this w url))) as [Hle Heq]. split.
      * intros Hmono. specialize (Hle Hmono). specialize (Hmono w url). lia.
      * intros Hkeep. rewrite (Heq Hkeep), Hkeep. reflexivity.
    + apply IH.
    + apply IH.
    + destruct (IH (setTimeout w ms)) as [Hle Heq]. split.
      * intros Hmono. specialize (Hle Hmono). rewrite Htimer in Hle. lia.
      * intros Hkeep. rewrite (Heq Hkeep), Htimer. lia.
Qed.

End World.

Section Claims.
Context {W : Type} {platform : Platform W}.
Variable this : Downloader.

(** In sequential mode, and in chunked mode when the failing item has a
    non-empty message: one failing item gives one failure entry, which
    names it, and every other item its success entry; every item of the
    list is processed. *)
Lemma partial_failure (fuel : nat) (w : W) (options : Options)
      (urls : list jsstring) (k : nat) (url message : jsstring) :
  1 <= concurrent options ->
  (length urls < fuel)%nat ->
  concurrent options = 1 \/ message <> [] ->
  exists r : @Run W,
    schedule this options urls fuel w = Some r
    /\ map fst (settlements (run_trace r)) = urls
    /\ (nth_error (settlements (run_trace r)) k = Some (url, Rejected message) ->
        (forall j it, j <> k -> nth_error (settlements (run_trace r)) j = Some it ->
                      item_rejected it = false) ->
        run_errors r = [Failure url message]
        /\ length (run_results r) = (length urls - 1)%nat
        /\ Forall (fun e => is_failure e = false) (run_results r)).
Proof.
  intros Hc Hfuel Hmode.
  destruct (schedule_spec this options urls w Hc Hfuel) as (r & Hrun & Hfst & Hr & He).
  exists r. split; [exact Hrun|]. split; [exact Hfst|].
  intros Hk Hothers.
  assert (Hfail : forall it, failed_in options (item_entry it) = true ->
                             item_rejected it = true).
  { intros [u [d|m]]; unfold failed_in, item_entry, item_rejected; cbn [fst snd rejected];
      destruct (concurrent options =? 1); cbn; congruence. }
  assert (Hkfail : failed_in options (Failure url message) = true).
  { unfold failed_in. destruct (Z.eqb_spec (concurrent options) 1) as [|Hne]; [reflexivity|].
    destruct Hmode as [|Hm]; [contradiction|].
    destruct message; [contradiction|reflexivity]. }
  destruct (@exactly_one _ (failed_in options)
              (map item_entry (settlements (run_trace r))) k (Failure url message))
    as [E L].
  - rewrite nth_error_map, Hk. reflexivity.
  - exact Hkfail.
  - intros j y Hj Hy. rewrite nth_error_map in Hy.
    destruct (nth_error (settlements (run_trace r)) j) as [it|] eqn:Hit; [|discriminate].
    injection Hy as <-. specialize (Hothers j it Hj Hit).
    destruct (failed_in options (item_entry it)) eqn:F; [|reflexivity].
    apply Hfail in F. congruence.
  - rewrite He, Hr, E, L, length_map, <- Hfst, length_map.
    split; [reflexivity|]. split; [reflexivity|].
    apply Forall_forall. intros e [(it & <- & Hin)%in_map_iff Hf]%filter_In.
    destruct it as [u [d|m]]; [reflexivity|].
    apply In_nth_error in Hin as [j Hj].
    destruct (Nat.eq_dec j k) as [->|Hne].
    + rewrite Hk in Hj. injection Hj as <- <-.
      change (item_entry (url, Rejected message)) with (Failure url message) in Hf.
      now rewrite Hkfail in Hf.
    + specialize (Hothers j _ Hne Hj). discriminate.
Qed.

(** C10. In chunked mode an entry goes to [errors] exactly when its
    [error] field is truthy: an item rejected with the empty message has
    its entry, whose [error] is the empty string, in [results] and not in
    [errors], and is counted with the successes. *)
Theorem empty_message_counts_as_success (fuel : nat) (w : W) (options : Options)
        (urls : list jsstring) :
  1 < concurrent options ->
  (length urls < fuel)%nat ->
  exists r : @Run W,
    schedule this options urls fuel w = Some r
    /\ run_results r
       = filter (fun e => negb (error_truthy e))
                (map item_entry (settlements (run_trace r)))
    /\ run_errors r
       = filter error_truthy (map item_entry (settlements (run_trace r)))
    /\ (forall url : jsstring,
          In (url, Rejected []) (settlements (run_trace r)) ->
          In (Failure url []) (run_results r)
          /\ ~ In (Failure url []) (run_errors r)).
Proof.
  intros Hc Hfuel.
  destruct (schedule_spec this options urls w (fuel := fuel)) as (r & Hrun & _ & Hr & He);
    [lia|assumption|].
  unfold failed_in in Hr, He.
  destruct (Z.eqb_spec (concurrent options) 1) as [|_]; [lia|].
  exists r. repeat split; try assumption.
  - rewrite Hr. apply filter_In. split; [|reflexivity].
    apply in_map_iff. exists (url, Rejected []). auto.
  - rewrite He. intros [_ Hf]%filter_In. discriminate.
Qed.

(** C9. When the list file has been read and holds a url, in sequential
    mode and in chunked mode alike, the call resolves to a report in which
    every selected item has exactly one entry, in [results] or in
    [errors]: the two arrays together are the entries of the items that
    settled, which are the selected urls, and their sizes add up to the
    reported [total]. *)
Theorem one_entry_per_item (fuel : nat) (w : W) (filePath : jsstring)
        (options : Options) (content : jsstring) :
  fs_existsSync w filePath = true ->
  fs_readFileSync w filePath = Resolved content ->
  parse_urls content <> [] ->
  1 <= concurrent options ->
  (length (parse_urls content) < fuel)%nat ->
  let selected :=
    select_range (parse_urls content) (startIndex options) (endIndex options) in
  exists (w' : W) (tr : list Event) (rep : Report),
    downloadFromFile this fuel w filePath options = Some (w', tr, Resolved rep)
    /\ map fst (settlements tr) = selected
    /\ Permutation (results rep ++ errors rep) (map item_entry (settlements tr))
    /\ Z.of_nat (length (results rep) + length (errors rep)) = total rep
    /\ total rep = Z.of_nat (length selected).
Proof.
  intros Hex Hread Hurls Hc Hfuel selected.
  rewrite (downloadFromFile_schedules this fuel w filePath options Hex Hread Hurls).
  fold selected.
  destruct (schedule_spec this options selected w (fuel := fuel) Hc)
    as (r & Hrun & Hfst & Hr & He).
  { pose proof (select_range_length (parse_urls content) (startIndex options)
                                    (endIndex options)). unfold selected. lia. }
  rewrite Hrun. exists (run_world r), (run_trace r). eexists.
  split; [reflexivity|]. cbn [results errors total].
  split; [exact Hfst|].
  split; [rewrite Hr, He; apply filter_split_perm|].
  split; [|reflexivity].
  rewrite Hr, He, filter_split_length, length_map, <- Hfst, length_map.
  reflexivity.
Qed.

(** C2. With a chunk size [c > 1] and a delay [d >= 0], the scheduler
    cuts the list into consecutive chunks of size [c], the last one
    possibly smaller; it invokes every member of a chunk, waits until all
    of them have settled, and only then turns to the next chunk; after
    each chunk but the last it stays suspended for [d] milliseconds, and
    after the last one not at all. The suspension is one timer of [d]
    milliseconds when [d] is positive (for a delay of zero no timer is
    set). With [c = 3] and 7 urls the chunk sizes are 3, 3 and 1 and the
    delay is taken twice: after the first and after the second chunk.
    The world the run leaves is the one these events tell of: the
    pipelines of a chunk have run in it before the timer fires, and the
    timer has fired before a pipeline of the next chunk runs. So the time
    that has gone by in the world, by any measure that a timer advances
    by its milliseconds, is at least [d] for each chunk but the last when
    the pipelines do not turn the time back, and exactly that when they
    take no time. *)
Theorem chunked_schedule (fuel : nat) (w : W) (options : Options)
        (urls : list jsstring) :
  1 < concurrent options ->
  0 <= delay options ->
  (length urls < fuel)%nat ->
  let c := Z.to_nat (concurrent options) in
  exists (r : @Run W) (blocks : list (list Item)),
    schedule this options urls fuel w = Some r
    /\ map (map fst) blocks = chunks c urls
    /\ concat (chunks c urls) = urls
    /\ map (@length _) (chunks c urls)
       = repeat c (length urls / c)
         ++ (if (length urls mod c =? 0)%nat then [] else [(length urls mod c)%nat])
    /\ filter (fun e => negb (is_sleep e)) (run_trace r)
       = concat (map chunk_events blocks)
    /\ pauses (run_trace r)
       = match blocks with
         | [] => []
         | _ :: blocks' => repeat (delay options) (length blocks') ++ [0]
         end
    /\ (0 < delay options ->
        run_trace r = separated [Sleep (delay options)] (map chunk_events blocks)
        /\ sleeps (run_trace r) = (length blocks - 1)%nat)
    /\ (length urls = 7%nat -> concurrent options = 3 ->
        map (@length _) blocks = [3; 3; 1]%nat
        /\ pauses (run_trace r) = [delay options; delay options; 0]
        /\ (0 < delay options -> sleeps (run_trace r) = 2%nat))
    /\ run_world r = replay this w (run_trace r)
    /\ (forall elapsed : W -> Z,
          (forall (v : W) (ms : Z), elapsed (setTimeout v ms) = elapsed v + ms) ->
          ((forall (v : W) (url : jsstring),
               elapsed v <= elapsed (fst (downloadMp3_url this v url))) ->
           elapsed w + delay options * Z.of_nat (length blocks - 1)
           <= elapsed (run_world r))
          /\ ((forall (v : W) (url : jsstring),
                  elapsed (fst (downloadMp3_url this v url)) = elapsed v) ->
              elapsed (run_world r)
              = elapsed w + delay options * Z.of_nat (length blocks - 1))).
Proof.
  intros Hc Hd Hfuel c.
  assert (Hc1 : 1 <= concurrent options) by lia.
  assert (Hcn : (1 <= c)%nat) by (unfold c; lia).
  destruct (@chunked_spec _ _ this options urls fuel Hc1 0 (start_run w))
    as (r & blocks & Hrun & Hblocks & Ht & _); [lia|unfold todo_length; lia|].
  cbn [Z.to_nat skipn start_run run_trace app] in Hblocks, Ht. fold c in Hblocks.
  assert (Hsched : schedule this options urls fuel w = Some r).
  { unfold schedule. destruct (Z.eqb_spec (concurrent options) 1); [lia|exact Hrun]. }
  pose proof (@schedule_world _ _ this options urls fuel w r Hsched) as Hworld.
  exists r, blocks.
  split; [exact Hsched|].
  split; [exact Hblocks|].
  split; [now apply concat_chunks|].
  split; [now apply chunk_sizes|].
  split; [rewrite Ht; apply chunked_trace_order|].
  assert (Hpauses : pauses (run_trace r)
                    = match blocks with
                      | [] => []
                      | _ :: blocks' => repeat (delay options) (length blocks') ++ [0]
                      end).
  { rewrite Ht. now apply pauses_chunked_trace. }
  split; [exact Hpauses|].
  assert (Hpos : 0 < delay options ->
                 run_trace r = separated [Sleep (delay options)] (map chunk_events blocks)
                 /\ sleeps (run_trace r) = (length blocks - 1)%nat).
  { intros Hd'. rewrite Ht, chunked_trace_delay by assumption.
    split; [reflexivity|].
    rewrite sleeps_separated, length_map; [reflexivity|].
    apply sleeps_blocks, sleeps_chunk_events. }
  split; [exact Hpos|].
  split.
  { intros H7 H3.
    assert (Hsizes : map (@length _) blocks = [3; 3; 1]%nat).
    { rewrite <- block_sizes, Hblocks, chunk_sizes by assumption.
      unfold c. rewrite H7, H3. reflexivity. }
    assert (Hthree : length blocks = 3%nat).
    { rewrite <- (length_map (@length _) blocks), Hsizes. reflexivity. }
    split; [exact Hsizes|].
    split.
    - rewrite Hpauses. destruct blocks as [|b1 [|b2 [|b3 [|b4 blocks]]]];
        try discriminate. reflexivity.
    - intros Hd'. destruct (Hpos Hd') as [_ ->]. now rewrite Hthree. }
  split; [exact Hworld|].
  intros elapsed Htimer.
  destruct (@elapsed_replay _ _ this elapsed (run_trace r) Htimer w) as [Hle Heq].
  rewrite <- Hworld, Ht, total_sleep_chunked_trace in Hle, Heq by assumption.
  split; [exact Hle|exact Heq].
Qed.

(** Sequential mode: the items are processed one at a time in the order
    of the list, each download being invoked and having settled before the
    next one is invoked. When the delay is positive and no item is
    rejected, the scheduler sleeps for the delay after every item but the
    last: for N items, N - 1 times. *)
Lemma sequential_schedule (fuel : nat) (w : W) (options : Options)
        (urls : list jsstring) :
  concurrent options = 1 ->
  exists r : @Run W,
    schedule this options urls fuel w = Some r
    /\ map fst (settlements (run_trace r)) = urls
    /\ filter (fun e => negb (is_sleep e)) (run_trace r)
       = concat (map item_events (settlements (run_trace r)))
    /\ (0 < delay options ->
        forallb (fun it => negb (item_rejected it)) (settlements (run_trace r)) = true ->
        run_trace r
        = separated [Sleep (delay options)]
                    (map item_events (settlements (run_trace r)))
        /\ sleeps (run_trace r) = (length urls - 1)%nat).
Proof.
  intros Hseq. unfold schedule. rewrite Hseq. cbn [Z.eqb Pos.eqb].
  destruct (sequential_spec this options urls urls 0 (start_run w))
    as (items & Hfst & Ht & _).
  cbn [start_run run_trace app] in Ht.
  eexists. split; [reflexivity|].
  rewrite Ht, settlements_sequential_trace.
  split; [exact Hfst|].
  split; [apply sequential_trace_order|].
  intros Hd Hall.
  assert (E : sequential_trace (delay options) (todo_length urls) 0 items
              = separated [Sleep (delay options)] (map item_events items)).
  { apply sequential_trace_all_resolved; try assumption.
    unfold todo_length. rewrite <- Hfst, length_map. apply Z.add_0_l. }
  rewrite E. split; [reflexivity|].
  rewrite sleeps_separated, length_map, <- Hfst, length_map; [reflexivity|].
  apply sleeps_blocks, sleeps_item_events.
Qed.

Lemma downloadMp3_after_info (w w1 : W) (url videoId : jsstring)
      (customName : option jsstring) (details : VideoDetails) :
  extractVideoId url = Some videoId ->
  ytdl_getInfo w videoId = (w1, Resolved details) ->
  let name := output_name customName details in
  let outputPath := path_join (outputDir this) name in
  downloadMp3 this w url customName
  = if fs_existsSync w1 outputPath then
      (w1, [GetInfo videoId; ExistsSync outputPath], Resolved (AlreadyExists name))
    else
      match ytdl w1 (quality this) videoId with
      | (w2, Some message) =>
          (w2, [GetInfo videoId; ExistsSync outputPath; Stream videoId],
           Rejected message)
      | (w2, None) =>
          let calls := [GetInfo videoId; ExistsSync outputPath;
                        Stream videoId; Ffmpeg outputPath] in
          match ffmpeg_run w2 videoId outputPath with
          | (w3, OnEnd) =>
              (w3, calls, Resolved (Converted name outputPath (vd_title details)))
          | (w3, OnError message) =>
              (w3, calls, Rejected (js "ffmpeg error: " ++ message))
          | (w3, Thrown message) => (w3, calls, Rejected message)
          end
      end.
Proof.
  intros Hid Hinfo name outputPath.
  subst name outputPath.
  unfold downloadMp3, getVideoInfo, output_name. rewrite Hid, Hinfo.
  cbn [filename title].
  destruct (given customName); reflexivity.
Qed.

(** C6, as the code has it. When the file already exists at
    outputDir/filename, the pipeline resolves to the skipped success after
    the metadata lookup, which gives the name, and the existence check: it
    fetches no stream and runs no transcode. Hence a second run on the
    same item is skipped, when the first one resolved, the transcoder leaves
    the file it announces, a metadata lookup removes no file, and the
    metadata has not changed in between. *)
Theorem skip_on_existing (w : W) (url : jsstring) (customName : option jsstring)
        (videoId : jsstring) :
  extractVideoId url = Some videoId ->
  (forall (w1 : W) (details : VideoDetails),
      ytdl_getInfo w videoId = (w1, Resolved details) ->
      let name := output_name customName details in
      let outputPath := path_join (outputDir this) name in
      fs_existsSync w1 outputPath = true ->
      downloadMp3 this w url customName
      = (w1, [GetInfo videoId; ExistsSync outputPath], Resolved (AlreadyExists name))
      /\ existsb stream_or_transcode [GetInfo videoId; ExistsSync outputPath] = false)
  /\ (forall (w' : W) (calls : list IO) (d : Download),
        downloadMp3 this w url customName = (w', calls, Resolved d) ->
        (forall v id p v', ffmpeg_run v id p = (v', OnEnd) -> fs_existsSync v' p = true) ->
        (forall v id v' r p, ytdl_getInfo v id = (v', r) ->
                             fs_existsSync v p = true -> fs_existsSync v' p = true) ->
        snd (ytdl_getInfo w' videoId) = snd (ytdl_getInfo w videoId) ->
        let outputPath := path_join (outputDir this) (download_filename d) in
        exists w'' : W,
          downloadMp3 this w' url customName
          = (w'', [GetInfo videoId; ExistsSync outputPath],
             Resolved (AlreadyExists (download_filename d)))
          /\ skipped (AlreadyExists (download_filename d)) = true
          /\ existsb stream_or_transcode [GetInfo videoId; ExistsSync outputPath]
             = false).
Proof.
  intros Hid. split.
  - intros w1 details Hinfo name outputPath Hex.
    rewrite (downloadMp3_after_info w url customName Hid Hinfo).
    fold name outputPath. rewrite Hex. split; reflexivity.
  - intros w' calls d Hrun Hffmpeg Hkeep Hsame outputPath.
    destruct (ytdl_getInfo w videoId) as [w1 [details|message]] eqn:Hinfo.
    2:{ unfold downloadMp3, getVideoInfo in Hrun. rewrite Hid, Hinfo in Hrun.
        discriminate. }
    rewrite (downloadMp3_after_info w url customName Hid Hinfo) in Hrun.
    cbn [snd] in Hsame.
    destruct (ytdl_getInfo w' videoId) as [w'' r2] eqn:Hinfo2.
    cbn [snd] in Hsame. subst r2.
    assert (Hthere : fs_existsSync w' outputPath = true
                     /\ download_filename d = output_name customName details).
    { unfold outputPath.
      destruct (fs_existsSync w1 (path_join (outputDir this)
                                            (output_name customName details))) eqn:Hex.
      - injection Hrun as <- _ <-. cbn [download_filename]. auto.
      - destruct (ytdl w1 (quality this) videoId) as [w2 [message|]];
          [discriminate|].
        destruct (ffmpeg_run w2 videoId
                    (path_join (outputDir this) (output_name customName details)))
          as [w3 [|message|message]] eqn:Hff; try discriminate.
        injection Hrun as <- _ <-. cbn [download_filename].
        split; [|reflexivity]. exact (Hffmpeg _ _ _ _ Hff). }
    destruct Hthere as [Hex Hname].
    exists w''.
    rewrite (downloadMp3_after_info w' url customName Hid Hinfo2).
    unfold outputPath in *. rewrite Hname in *.
    rewrite (Hkeep _ _ _ _ _ Hinfo2 Hex). repeat split.
Qed.

(** C4, as the code has it. [downloadFromFile] has no range error: a
    negative start index selects what start index 0 selects; an end index
    (not negative, exclusive) at or before the start index selects nothing,
    and so does a start index at or beyond the length of the list; and
    whatever the range, the call on a readable list that holds a url
    resolves to a report, in either mode (a chunk size of one or more).
    The interactive entry point turns the range down, before anything is
    downloaded, when the start index is negative and when the end index,
    which it takes inclusive, is more than one position before the start
    index; the latter for an end index that is a safe integer, whose
    increment is exact. *)
Theorem range_selection (urls : list jsstring) :
  (forall (s : Z) (e : num),
      s < 0 -> select_range urls (Int s) e = select_range urls (Int 0) e)
  /\ (forall s e : Z, 0 <= e <= s -> select_range urls (Int s) (Int e) = [])
  /\ (forall (s : Z) (e : num),
        Z.of_nat (length urls) <= s -> select_range urls (Int s) e = [])
  /\ (forall (fuel : nat) (w : W) (filePath content : jsstring) (options : Options),
        fs_existsSync w filePath = true ->
        fs_readFileSync w filePath = Resolved content ->
        parse_urls content = urls ->
        urls <> [] ->
        1 <= concurrent options ->
        (length urls < fuel)%nat ->
        exists (w' : W) (tr : list Event) (rep : Report),
          downloadFromFile this fuel w filePath options = Some (w', tr, Resolved rep)
          /\ total rep
             = Z.of_nat (length (select_range urls (startIndex options)
                                              (endIndex options))))
  /\ (forall (fuel : nat) (w : W) (totalVideos s e : Z),
        s < 0 \/ (safe_integer e /\ e + 1 < s) ->
        getPlaylistDetails fuel w totalVideos (Some (Int s)) (Some (Int e))
        = Some (w, [], InvalidRange)).
Proof.
  split; [|split; [|split; [|split]]].
  - intros s e Hs. unfold select_range. cbn [Math_max].
    now replace (Z.max 0 s) with (Z.max 0 0) by lia.
  - intros s e Hse. rewrite select_range_Int, slice_Int by lia.
    replace (Z.to_nat _) with O by lia. reflexivity.
  - intros s e Hs. unfold select_range. cbn [Math_max].
    apply slice_from_end. lia.
  - intros fuel w filePath content options Hex Hread <- Hurls Hc Hfuel.
    rewrite (downloadFromFile_schedules this fuel w filePath options Hex Hread Hurls).
    destruct (schedule_spec this options
                (select_range (parse_urls content) (startIndex options)
                              (endIndex options)) w (fuel := fuel) Hc)
      as (r & -> & _).
    { pose proof (select_range_length (parse_urls content) (startIndex options)
                                      (endIndex options)). lia. }
    eexists _, _, _. split; reflexivity.
  - intros fuel w totalVideos s e Hse. unfold getPlaylistDetails.
    cbn [asked_start asked_end succ_num isNaN orb num_ltb].
    destruct (Z.ltb_spec s 0); [reflexivity|].
    destruct (Z.ltb_spec (e + 1) s); [reflexivity|].
    destruct Hse as [Hs|[_ He]]; lia.
Qed.

End Claims.

(* ------------------------------------------------------------------ *)
(** ** The class on the scripted platform *)
(* ------------------------------------------------------------------ *)

Lemma str_eqb_refl (s : jsstring) : str_eqb s s = true.
Proof. unfold str_eqb. destruct (list_eq_dec N.eq_dec s s); congruence. Qed.

(** The scripted transcoder leaves the file it announces. *)
Lemma mock_ffmpeg_writes (v : Mock.World) (id p : jsstring) (v' : Mock.World) :
  ffmpeg_run v id p = (v', OnEnd) -> fs_existsSync v' p = true.
Proof.
  cbn. destruct (Mock.lookup id (Mock.no_encode v)); [discriminate|].
  intros [= <-]. cbn. rewrite existsb_app. cbn. rewrite str_eqb_refl.
  now rewrite orb_true_r.
Qed.

(** The scripted metadata lookup leaves the disk alone. *)
Lemma mock_getInfo_keeps (v : Mock.World) (id : jsstring) (v' : Mock.World)
      (r : Settled VideoDetails) (p : jsstring) :
  ytdl_getInfo v id = (v', r) -> fs_existsSync v p = true -> fs_existsSync v' p = true.
Proof.
  cbn. destruct (Mock.lookup id (Mock.no_info v)); intros [= <- _]; auto.
Qed.

Lemma mock_download_keeps_clock (v : Mock.World) (url : jsstring) :
  Mock.clock (fst (downloadMp3_url Mock.this v url)) = Mock.clock v.
Proof.
  unfold downloadMp3_url, downloadMp3, getVideoInfo.
  destruct (extractVideoId url) as [videoId|]; [|reflexivity].
  unfold ytdl_getInfo, fs_existsSync, ytdl, ffmpeg_run, Mock.platform.
  destruct (Mock.lookup videoId (Mock.no_info v)); [reflexivity|].
  cbn [filename title vd_title given].
  match goal with |- context [existsb ?f ?l] => destruct (existsb f l) end;
    [reflexivity|].
  destruct (Mock.lookup videoId (Mock.no_stream v)); [reflexivity|].
  destruct (Mock.lookup videoId (Mock.no_encode v)); reflexivity.
Qed.

(** C1, at the input where the code departs from it: three urls in
    chunks of two, the stream fetch of the second one throwing an error
    with an empty message. One item out of three is rejected, yet the
    report has three entries in [results], the entry of the rejected item
    among them, and none in [errors]. *)
Theorem chunked_silent_failure_report :
  exists (w' : Mock.World) (tr : list Event) (rep : Report),
    downloadFromFile Mock.this 4 Mock.silent_failure (js "urls.txt") (Mock.cli 2 1000)
    = Some (w', tr, Resolved rep)
    /\ map item_rejected (settlements tr) = [false; true; false]
    /\ map entry_url (results rep) = Mock.three
    /\ map is_failure (results rep) = [false; true; false]
    /\ nth_error (results rep) 1 = Some (Failure (Mock.watch "BBBBBBBBBBB") [])
    /\ errors rep = [].
Proof.
  eexists _, _, _. split; [vm_compute; reflexivity|].
  vm_compute. repeat split.
Qed.

(** The same input in sequential mode: two successes and the one failure. *)
Lemma sequential_silent_failure_report :
  exists (w' : Mock.World) (tr : list Event) (rep : Report),
    downloadFromFile Mock.this 4 Mock.silent_failure (js "urls.txt") (Mock.cli 1 1000)
    = Some (w', tr, Resolved rep)
    /\ map is_failure (results rep) = [false; false]
    /\ errors rep = [Failure (Mock.watch "BBBBBBBBBBB") []].
Proof.
  eexists _, _, _. split; [vm_compute; reflexivity|].
  vm_compute. repeat split.
Qed.

(** With a delay of zero no timer is set: seven urls in chunks of three
    and no sleep in the trace. *)
Lemma no_timer_without_delay :
  exists (w' : Mock.World) (tr : list Event) (rep : Report),
    downloadFromFile Mock.this 8 (Mock.listing "urls.txt" Mock.seven)
                     (js "urls.txt") (Mock.cli 3 0)
    = Some (w', tr, Resolved rep)
    /\ total rep = 7
    /\ pauses tr = [0; 0; 0]
    /\ sleeps tr = O.
Proof.
  eexists _, _, _. split; [vm_compute; reflexivity|].
  vm_compute. repeat split.
Qed.

(** C3, at the input where the code departs from it: two urls one after
    the other with a delay of one second, the metadata lookup of the first
    one failing. Both items are processed, in order, and the report has
    one success and one failure; but the scheduler does not sleep between
    the two, where the claim has N - 1 = 1 suspension: no time at all is
    spent in timers. *)
Theorem failed_item_skips_delay :
  exists (w' : Mock.World) (tr : list Event) (rep : Report),
    downloadFromFile Mock.this 1 Mock.unavailable_first (js "urls.txt")
                     (Mock.cli 1 1000)
    = Some (w', tr, Resolved rep)
    /\ total rep = 2
    /\ map item_rejected (settlements tr) = [true; false]
    /\ filter is_invoke tr = map Invoke (firstn 2 Mock.seven)
    /\ sleeps tr = O
    /\ Mock.clock w' = 0.
Proof.
  eexists _, _, _. split; [vm_compute; reflexivity|].
  vm_compute. repeat split.
Qed.

(** The same two urls without the failure: one suspension, of one
    second. *)
Lemma resolved_items_are_throttled :
  exists (w' : Mock.World) (tr : list Event) (rep : Report),
    downloadFromFile Mock.this 1 (Mock.listing "urls.txt" (firstn 2 Mock.seven))
                     (js "urls.txt") (Mock.cli 1 1000)
    = Some (w', tr, Resolved rep)
    /\ map item_rejected (settlements tr) = [false; false]
    /\ sleeps tr = 1%nat
    /\ Mock.clock w' = 1000.
Proof.
  eexists _, _, _. split; [vm_compute; reflexivity|].
  vm_compute. repeat split.
Qed.

(** C4 fails: with start 2 and end 1 (inclusive), and with start -1,
    [downloadFromFile] resolves, to an empty report in the first case and
    to the first two items in the second; and the interactive entry point
    lets start 2 and end 1 through. *)
Lemma no_range_error :
  (exists (w' : Mock.World) (rep : Report),
      downloadFromFile Mock.this 1 (Mock.listing "urls.txt" Mock.three)
                       (js "urls.txt") (main_options 1 0 (Int 2) (Some (Int 1)))
      = Some (w', [], Resolved rep)
      /\ results rep = [] /\ errors rep = [] /\ total rep = 0)
  /\ (exists (w' : Mock.World) (tr : list Event) (rep : Report),
        downloadFromFile Mock.this 1 (Mock.listing "urls.txt" Mock.three)
                         (js "urls.txt") (main_options 1 0 (Int (-1)) (Some (Int 1)))
        = Some (w', tr, Resolved rep)
        /\ map entry_url (results rep) = firstn 2 Mock.three)
  /\ (exists (w' : Mock.World) (rep : Report),
        getPlaylistDetails 1 (Mock.listing "playlist.txt" Mock.three) 3
                           (Some (Int 2)) (Some (Int 1))
        = Some (w', [], Downloaded (Resolved rep))
        /\ total rep = 0).
Proof.
  split; [|split].
  - eexists _, _. split; [vm_compute; reflexivity|]. vm_compute. repeat split.
  - eexists _, _, _. split; [vm_compute; reflexivity|]. vm_compute. reflexivity.
  - eexists _, _. split; [vm_compute; reflexivity|]. vm_compute. reflexivity.
Qed.

(** C6 fails on the network: the item whose file exists is skipped after
    a metadata lookup, which is a fetch from the network. *)
Lemma skipped_item_fetches_metadata :
  exists calls : list IO,
    downloadMp3 Mock.this Mock.downloaded_first (Mock.watch "AAAAAAAAAAA") None
    = (Mock.downloaded_first, calls,
       Resolved (AlreadyExists (js "Track AAAAAAAAAAA.mp3")))
    /\ calls = [GetInfo (js "AAAAAAAAAAA");
                ExistsSync (js "./downloads/Track AAAAAAAAAAA.mp3")]
    /\ existsb network_fetch calls = true.
Proof.
  eexists. split; [vm_compute; reflexivity|]. vm_compute. split; reflexivity.
Qed.

(** C8 fails as it is written: no line of the scenario names a host the
    reader knows, and the call rejects with the empty-source error. *)
Lemma scenario_host_not_recognized :
  parse_urls (join LF (Mock.scenario "x")) = []
  /\ downloadFromFile Mock.this 1 (Mock.listing "urls.txt" (Mock.scenario "x"))
                      (js "urls.txt") default_options
     = Some (Mock.listing "urls.txt" (Mock.scenario "x"), [],
             Rejected (js "No valid YouTube URLs found in file")).
Proof. split; vm_compute; reflexivity. Qed.

(** C8, as the code has it: with the host youtube.com in the place of x,
    the five lines of the scenario give a work list of exactly the two
    watch urls, in their order, which is the [fullListTotal] of the
    report; with the host x they give none, and the call rejects. *)
Theorem scenario_reading :
  parse_urls (join LF (Mock.scenario "youtube.com"))
  = [js "https://youtube.com/watch?v=AAAAAAAAAAA";
     js "https://youtube.com/watch?v=BBBBBBBBBBB"]
  /\ (exists (w' : Mock.World) (tr : list Event) (rep : Report),
        downloadFromFile Mock.this 1
                         (Mock.listing "urls.txt" (Mock.scenario "youtube.com"))
                         (js "urls.txt") default_options
        = Some (w', tr, Resolved rep)
        /\ fullListTotal rep = 2
        /\ map entry_url (results rep)
           = [js "https://youtube.com/watch?v=AAAAAAAAAAA";
              js "https://youtube.com/watch?v=BBBBBBBBBBB"])
  /\ parse_urls (join LF (Mock.scenario "x")) = []
  /\ downloadFromFile Mock.this 1 (Mock.listing "urls.txt" (Mock.scenario "x"))
                      (js "urls.txt") default_options
     = Some (Mock.listing "urls.txt" (Mock.scenario "x"), [],
             Rejected (js "No valid YouTube URLs found in file")).
Proof.
  split; [vm_compute; reflexivity|].
  split; [|split; vm_compute; reflexivity].
  eexists _, _, _. split; [vm_compute; reflexivity|]. vm_compute. split; reflexivity.
Qed.

(* ------------------------------------------------------------------ *)
(** ** The statements at concrete inputs *)
(* ------------------------------------------------------------------ *)

(** Items 2 to 4 of seven. *)
Lemma select_range_inclusive_witness :
  Mock.seven <> [] /\ 0 <= 2 <= 4 /\ 2 < Z.of_nat (length Mock.seven)
  /\ Z.of_nat (length (select_range Mock.seven (Int 2) (Int 5))) = 3
  /\ nth_error (select_range Mock.seven (Int 2) (Int 5)) 0
     = nth_error Mock.seven 2.
Proof.
  assert (H1 : Mock.seven <> []) by discriminate.
  assert (H2 : 0 <= 2 <= 4) by lia.
  assert (H3 : 2 < Z.of_nat (length Mock.seven)) by reflexivity.
  destruct (select_range_inclusive 1 15000 H1 H2 H3) as (_ & Hlen & Hnth & _).
  split; [exact H1|]. split; [exact H2|]. split; [exact H3|].
  split; [exact Hlen|].
  apply (Hnth O). vm_compute. lia.
Defined.

(** A missing list, and the list of the scenario. *)
Lemma reader_contract_witness :
  downloadFromFile Mock.this 1 (Mock.listing "urls.txt" Mock.three)
                   (js "missing.txt") default_options
  = Some (Mock.listing "urls.txt" Mock.three, [],
          Rejected (js "File not found: " ++ js "missing.txt"))
  /\ parse_urls (join LF (Mock.scenario "youtube.com"))
     = spec_read (join LF (Mock.scenario "youtube.com"))
  /\ subseq (parse_urls (join LF (Mock.scenario "youtube.com")))
            (map trim (split LF (join LF (Mock.scenario "youtube.com")))).
Proof.
  split.
  - apply (reader_contract Mock.this 1 (Mock.listing "urls.txt" Mock.three)
             (js "missing.txt") default_options).
    reflexivity.
  - destruct (reader_contract Mock.this 1
                (Mock.listing "urls.txt" (Mock.scenario "youtube.com"))
                (js "urls.txt") default_options) as [_ H].
    assert (Hex : fs_existsSync (Mock.listing "urls.txt" (Mock.scenario "youtube.com"))
                                (js "urls.txt") = true) by reflexivity.
    assert (Hread : fs_readFileSync
                      (Mock.listing "urls.txt" (Mock.scenario "youtube.com"))
                      (js "urls.txt")
                    = Resolved (join LF (Mock.scenario "youtube.com")))
      by reflexivity.
    destruct (H (join LF (Mock.scenario "youtube.com")) Hex Hread)
      as (_ & Hspec & Hsub & _).
    split; assumption.
Defined.

(** Three urls in chunks of two. *)
Lemma one_entry_per_item_witness :
  exists (w' : Mock.World) (tr : list Event) (rep : Report),
    downloadFromFile Mock.this 4 Mock.silent_failure (js "urls.txt") (Mock.cli 2 1000)
    = Some (w', tr, Resolved rep)
    /\ Z.of_nat (length (results rep) + length (errors rep)) = total rep
    /\ total rep = 3.
Proof.
  assert (Hurls : parse_urls (join LF Mock.three) <> []) by (vm_compute; discriminate).
  assert (Hc : 1 <= concurrent (Mock.cli 2 1000)) by (vm_compute; discriminate).
  assert (Hfuel : (length (parse_urls (join LF Mock.three)) < 4)%nat)
    by (vm_compute; lia).
  assert (Hex : fs_existsSync Mock.silent_failure (js "urls.txt") = true)
    by reflexivity.
  assert (Hread : fs_readFileSync Mock.silent_failure (js "urls.txt")
                  = Resolved (join LF Mock.three)) by reflexivity.
  destruct (@one_entry_per_item _ _ Mock.this 4 Mock.silent_failure (js "urls.txt")
              (Mock.cli 2 1000) (join LF Mock.three) Hex Hread Hurls Hc Hfuel)
    as (w' & tr & rep & Hrun & _ & _ & Hsum & Htotal).
  exists w', tr, rep. repeat split; assumption.
Defined.

(** The rejection with the empty message, in chunks of two. *)
Lemma empty_message_counts_as_success_witness :
  exists r : @Run Mock.World,
    schedule Mock.this (Mock.cli 2 1000) Mock.three 4 Mock.silent_failure = Some r
    /\ In (Failure (Mock.watch "BBBBBBBBBBB") []) (run_results r)
    /\ ~ In (Failure (Mock.watch "BBBBBBBBBBB") []) (run_errors r).
Proof.
  assert (Hc : 1 < concurrent (Mock.cli 2 1000)) by reflexivity.
  assert (Hfuel : (length Mock.three < 4)%nat) by (vm_compute; lia).
  destruct (empty_message_counts_as_success Mock.this Mock.silent_failure
              (Mock.cli 2 1000) Mock.three Hc Hfuel)
    as (r & Hrun & _ & _ & Hempty).
  exists r. split; [exact Hrun|].
  apply Hempty.
  assert (E : schedule Mock.this (Mock.cli 2 1000) Mock.three 4 Mock.silent_failure
              = Some r) by exact Hrun.
  vm_compute in E. injection E as <-. vm_compute. right. left. reflexivity.
Defined.

(** Seven urls in chunks of three, with a delay of one second. *)
Lemma chunked_schedule_witness :
  exists r : @Run Mock.World,
    schedule Mock.this (Mock.cli 3 1000) Mock.seven 8
             (Mock.listing "urls.txt" Mock.seven) = Some r
    /\ pauses (run_trace r) = [1000; 1000; 0]
    /\ sleeps (run_trace r) = 2%nat
    /\ Mock.clock (run_world r) = 2000.
Proof.
  assert (Hc : 1 < concurrent (Mock.cli 3 1000)) by reflexivity.
  assert (Hd : 0 <= delay (Mock.cli 3 1000)) by (vm_compute; discriminate).
  assert (Hfuel : (length Mock.seven < 8)%nat) by (vm_compute; lia).
  destruct (chunked_schedule Mock.this (Mock.listing "urls.txt" Mock.seven)
              (Mock.cli 3 1000) Mock.seven Hc Hd Hfuel)
    as (r & blocks & Hrun & _ & _ & _ & _ & _ & _ & H7 & _ & Htime).
  exists r. split; [exact Hrun|].
  assert (Hseven : length Mock.seven = 7%nat) by reflexivity.
  assert (Hthree : concurrent (Mock.cli 3 1000) = 3) by reflexivity.
  destruct (H7 Hseven Hthree) as (Hsizes & Hpauses & Hsleeps).
  split; [exact Hpauses|].
  split; [apply Hsleeps; reflexivity|].
  assert (Hblocks : length blocks = 3%nat).
  { rewrite <- (length_map (@length _) blocks), Hsizes. reflexivity. }
  assert (Htimer : forall (v : Mock.World) (ms : Z),
             Mock.clock (setTimeout v ms) = Mock.clock v + ms)
    by reflexivity.
  destruct (Htime Mock.clock Htimer) as [_ Hexact].
  rewrite (Hexact mock_download_keeps_clock), Hblocks. reflexivity.
Defined.

(** The first of three urls, downloaded and then asked for again. *)
Lemma skip_on_existing_witness :
  (exists calls : list IO,
      downloadMp3 Mock.this Mock.downloaded_first (Mock.watch "AAAAAAAAAAA") None
      = (Mock.downloaded_first, calls,
         Resolved (AlreadyExists (js "Track AAAAAAAAAAA.mp3"))))
  /\ (exists (w' w'' : Mock.World) (calls calls' : list IO) (d : Download),
        downloadMp3 Mock.this (Mock.listing "urls.txt" Mock.three)
                    (Mock.watch "AAAAAAAAAAA") None
        = (w', calls, Resolved d)
        /\ skipped d = false
        /\ downloadMp3 Mock.this w' (Mock.watch "AAAAAAAAAAA") None
           = (w'', calls', Resolved (AlreadyExists (download_filename d)))).
Proof.
  assert (Hid : extractVideoId (Mock.watch "AAAAAAAAAAA") = Some (js "AAAAAAAAAAA"))
    by (vm_compute; reflexivity).
  split.
  - destruct (@skip_on_existing _ _ Mock.this Mock.downloaded_first
                _ None _ Hid) as [Hskip _].
    assert (Hinfo : ytdl_getInfo Mock.downloaded_first (js "AAAAAAAAAAA")
                    = (Mock.downloaded_first,
                       Resolved {| vd_title := js "Track " ++ js "AAAAAAAAAAA";
                                   vd_lengthSeconds := 215;
                                   vd_author_name := js "Artist" |}))
      by reflexivity.
    destruct (Hskip _ _ Hinfo) as [Hrun _]; [vm_compute; reflexivity|].
    eexists. exact Hrun.
  - destruct (@skip_on_existing _ _ Mock.this (Mock.listing "urls.txt" Mock.three)
                _ None _ Hid) as [_ Hagain].
    assert (Hfirst : exists (w' : Mock.World) (calls : list IO) (d : Download),
               downloadMp3 Mock.this (Mock.listing "urls.txt" Mock.three)
                           (Mock.watch "AAAAAAAAAAA") None
               = (w', calls, Resolved d)
               /\ skipped d = false
               /\ snd (ytdl_getInfo w' (js "AAAAAAAAAAA"))
                  = snd (ytdl_getInfo (Mock.listing "urls.txt" Mock.three)
                                      (js "AAAAAAAAAAA"))).
    { eexists _, _, _. split; [vm_compute; reflexivity|].
      split; vm_compute; reflexivity. }
    destruct Hfirst as (w' & calls & d & Hfirst & Hnew & Hsame).
    destruct (Hagain w' calls d Hfirst (@mock_ffmpeg_writes) (@mock_getInfo_keeps)
                     Hsame)
      as (w'' & Hrun & _).
    eexists w', w'', calls, _, d.
    split; [exact Hfirst|]. split; [exact Hnew|]. exact Hrun.
Defined.

(** Three urls: start 2 with end 2 (exclusive), start 5, start -1, and the
    interactive entry point asked for start 3 and end 1. *)
Lemma range_selection_witness :
  select_range Mock.three (Int (-1)) Infinity = select_range Mock.three (Int 0) Infinity
  /\ select_range Mock.three (Int 2) (Int 2) = []
  /\ select_range Mock.three (Int 5) Infinity = []
  /\ (exists (w' : Mock.World) (tr : list Event) (rep : Report),
        downloadFromFile Mock.this 4 (Mock.listing "urls.txt" Mock.three)
                         (js "urls.txt") (main_options 2 0 (Int 2) (Some (Int 1)))
        = Some (w', tr, Resolved rep))
  /\ getPlaylistDetails 1 (Mock.listing "playlist.txt" Mock.three) 3
                        (Some (Int 3)) (Some (Int 1))
     = Some (Mock.listing "playlist.txt" Mock.three, [], InvalidRange).
Proof.
  destruct (@range_selection _ _ Mock.this Mock.three)
    as (Hneg & Hempty & Hbeyond & Hresolves & Hindex).
  split; [apply Hneg; lia|].
  split; [apply Hempty; lia|].
  split; [apply Hbeyond; vm_compute; discriminate|].
  split.
  - assert (Hc : 1 <= concurrent (main_options 2 0 (Int 2) (Some (Int 1))))
      by (vm_compute; discriminate).
    assert (Hfuel : (length Mock.three < 4)%nat) by (vm_compute; lia).
    assert (Hurls : Mock.three <> []) by discriminate.
    assert (Hparse : parse_urls (join LF Mock.three) = Mock.three)
      by (vm_compute; reflexivity).
    assert (Hex : fs_existsSync (Mock.listing "urls.txt" Mock.three) (js "urls.txt")
                  = true) by reflexivity.
    assert (Hread : fs_readFileSync (Mock.listing "urls.txt" Mock.three)
                                    (js "urls.txt")
                    = Resolved (join LF Mock.three)) by reflexivity.
    destruct (Hresolves 4%nat _ _ _ _ Hex Hread Hparse Hurls Hc Hfuel)
      as (w' & tr & rep & Hrun & _).
    now exists w', tr, rep.
  - apply Hindex. right. split; [unfold safe_integer|]; lia.
Defined.

(* ------------------------------------------------------------------ *)
(** ** [sanitizeFilename] *)
(* ------------------------------------------------------------------ *)

Lemma space_is_safe (c : N) : c = 32%N -> unsafe_char c = false.
Proof. intros ->. reflexivity. Qed.

Lemma collapse_spaces_In (s : jsstring) :
  forall (b : bool) (c : N),
    In c (collapse_spaces b s) -> c = 32%N \/ In c s.
Proof.
  induction s as [|x s IH]; intros b c; cbn [collapse_spaces]; [intros []|].
  destruct (is_space x).
  - destruct b; cbn [In].
    + intros H. destruct (IH _ _ H); auto.
    + intros [H|H]; [auto|]. destruct (IH _ _ H); auto.
  - cbn [In]. intros [H|H]; [auto|]. destruct (IH _ _ H); auto.
Qed.

(** What [collapse_spaces] returns is single spaced, and does not start
    with a space when it was entered inside a run of spaces. *)
Lemma collapse_spaces_single (s : jsstring) :
  forall b : bool,
    single_spaced (collapse_spaces b s) = true
    /\ (b = true -> starts_with_space (collapse_spaces b s) = false).
Proof.
  induction s as [|x s IH]; intros b; cbn [collapse_spaces]; [auto|].
  destruct (is_space x) eqn:Hx.
  - destruct b.
    + apply IH.
    + destruct (IH true) as [Hs Hh]. split; [|discriminate].
      cbn [single_spaced]. change (is_space 32) with true. cbn [N.eqb Pos.eqb andb].
      now rewrite Hs, (Hh eq_refl).
  - destruct (IH false) as [Hs _]. split.
    + cbn [single_spaced]. now rewrite Hx, Hs.
    + intros _. cbn [starts_with_space]. exact Hx.
Qed.

Lemma single_spaced_suffix (a s : jsstring) :
  single_spaced (a ++ s) = true -> single_spaced s = true.
Proof.
  induction a as [|x a IH]; [auto|].
  cbn [app single_spaced]. intros [_ H]%andb_true_iff. auto.
Qed.

Lemma single_spaced_prefix (s b : jsstring) :
  single_spaced (s ++ b) = true -> single_spaced s = true.
Proof.
  induction s as [|x s IH]; [reflexivity|].
  cbn [app single_spaced]. intros [Hx H]%andb_true_iff.
  rewrite (IH H), andb_true_r.
  destruct (is_space x); [|reflexivity].
  apply andb_true_iff in Hx as [-> Hn]. cbn [andb].
  destruct s; [reflexivity|exact Hn].
Qed.

Lemma trim_fixed (s : jsstring) :
  starts_with_space s = false -> starts_with_space (rev s) = false -> trim s = s.
Proof.
  intros Hh Hl. unfold trim, trimStart, trimEnd.
  assert (E : forall t, starts_with_space t = false -> drop_while is_space t = t).
  { intros [|c t] H; [reflexivity|]. cbn [starts_with_space] in H.
    cbn [drop_while]. now rewrite H. }
  now rewrite (E s Hh), (E (rev s) Hl), rev_involutive.
Qed.

Lemma trim_starts (s : jsstring) :
  starts_with_space (trim s) = false /\ starts_with_space (rev (trim s)) = false.
Proof.
  destruct (trim_ends s) as [Hh Hl]. split.
  - destruct (trim s); [reflexivity|exact Hh].
  - destruct (rev (trim s)); [reflexivity|exact Hl].
Qed.

Lemma collapse_spaces_fixed (s : jsstring) :
  forall b : bool,
    single_spaced s = true ->
    (b = true -> starts_with_space s = false) ->
    collapse_spaces b s = s.
Proof.
  induction s as [|x s IH]; intros b Hs Hb; [reflexivity|].
  cbn [single_spaced] in Hs. apply andb_true_iff in Hs as [Hx Hs].
  cbn [collapse_spaces]. destruct (is_space x) eqn:Ex.
  - apply andb_true_iff in Hx as [H32%N.eqb_eq Hn%negb_true_iff].
    destruct b.
    + specialize (Hb eq_refl). cbn [starts_with_space] in Hb. congruence.
    + subst x. now rewrite (IH true Hs (fun _ => Hn)).
  - now rewrite (IH false Hs (fun H => ltac:(discriminate))).
Qed.

(** What [sanitizeFilename] returns is a clean name. *)
Lemma sanitizeFilename_clean_name (f : jsstring) :
  clean_name (sanitizeFilename f) = true.
Proof.
  unfold clean_name, sanitizeFilename.
  set (kept := filter (fun c => negb (unsafe_char c)) f).
  destruct (trim_spec (collapse_spaces false kept)) as (a & b & E & _ & _).
  destruct (trim_starts (collapse_spaces false kept)) as [Hh Hl].
  rewrite Hh, Hl. cbn [negb]. rewrite !andb_true_r.
  apply andb_true_iff. split.
  - apply forallb_forall. intros c Hc.
    assert (Hin : In c (collapse_spaces false kept)).
    { rewrite E. apply in_or_app. right. apply in_or_app. now left. }
    destruct (collapse_spaces_In _ _ _ Hin) as [->|Hk]; [reflexivity|].
    unfold kept in Hk. now apply filter_In in Hk as [_ Hk].
  - destruct (collapse_spaces_single kept false) as [Hs _].
    rewrite E in Hs. apply single_spaced_suffix in Hs.
    now apply single_spaced_prefix in Hs.
Qed.

(** A clean name is returned as it is. *)
Lemma sanitizeFilename_fixed (f : jsstring) :
  clean_name f = true -> sanitizeFilename f = f.
Proof.
  unfold clean_name. intros H.
  apply andb_true_iff in H as [H Hl]. apply andb_true_iff in H as [H Hh].
  apply andb_true_iff in H as [Hsafe Hs].
  apply negb_true_iff in Hh, Hl.
  unfold sanitizeFilename.
  rewrite (forallb_filter_id _ _ Hsafe).
  rewrite (@collapse_spaces_fixed f false Hs) by discriminate.
  now apply trim_fixed.
Qed.

Lemma single_spaced_no_double (s : jsstring) :
  single_spaced s = true ->
  forall (a b : jsstring) (c d : N),
    s = a ++ c :: d :: b -> is_space c = true -> is_space d = false.
Proof.
  intros Hs a b c d E Hc. subst s. apply single_spaced_suffix in Hs.
  cbn [single_spaced] in Hs. rewrite Hc in Hs.
  apply andb_true_iff in Hs as [[_ Hn%negb_true_iff]%andb_true_iff _].
  exact Hn.
Qed.

Lemma single_spaced_plain (s : jsstring) :
  single_spaced s = true ->
  forall c : N, In c s -> is_space c = true -> c = 32%N.
Proof.
  induction s as [|x s IH]; intros Hs c; [intros []|].
  cbn [single_spaced] in Hs. apply andb_true_iff in Hs as [Hx Hs].
  intros [->|Hin] Hc; [|now apply IH].
  rewrite Hc in Hx. now apply andb_true_iff in Hx as [->%N.eqb_eq _].
Qed.

(** X1. The name [sanitizeFilename] returns holds none of the characters
    it removes, so neither a slash nor a backslash; its only white space
    is the plain space, never two in a row, and never at either end. *)
Theorem sanitizeFilename_normal_form (f : jsstring) :
  let name := sanitizeFilename f in
  (forall c : N, In c name ->
      unsafe_char c = false /\ c <> 47%N /\ c <> 92%N
      /\ (is_space c = true -> c = 32%N))
  /\ (forall (a b : jsstring) (c d : N),
        name = a ++ c :: d :: b -> is_space c = true -> is_space d = false)
  /\ starts_with_space name = false
  /\ starts_with_space (rev name) = false.
Proof.
  intros name. pose proof (sanitizeFilename_clean_name f) as H. fold name in H.
  unfold clean_name in H.
  apply andb_true_iff in H as [H Hl]. apply andb_true_iff in H as [H Hh].
  apply andb_true_iff in H as [Hsafe Hs].
  apply negb_true_iff in Hh, Hl.
  split; [|split; [|split]]; try assumption.
  - intros c Hc. rewrite forallb_forall in Hsafe.
    specialize (Hsafe c Hc). apply negb_true_iff in Hsafe.
    split; [exact Hsafe|].
    split; [intros ->; discriminate|].
    split; [intros ->; discriminate|].
    now apply (@single_spaced_plain name).
  - now apply (@single_spaced_no_double name).
Qed.

(** X2. [sanitizeFilename] is idempotent, and the names it leaves as they
    are are exactly the clean ones: no removed character, single plain
    spaces only, none at either end. *)
Theorem sanitizeFilename_idempotent (f : jsstring) :
  sanitizeFilename (sanitizeFilename f) = sanitizeFilename f
  /\ (sanitizeFilename f = f <-> clean_name f = true).
Proof.
  split.
  - apply sanitizeFilename_fixed, sanitizeFilename_clean_name.
  - split.
    + intros E. rewrite <- E. apply sanitizeFilename_clean_name.
    + apply sanitizeFilename_fixed.
Qed.

Lemma filter_drop_while (p : N -> bool) (s : jsstring) :
  filter (fun c => negb (p c)) (drop_while p s) = filter (fun c => negb (p c)) s.
Proof.
  induction s as [|c s IH]; [reflexivity|].
  cbn [drop_while filter]. destruct (p c) eqn:Hc; cbn [negb]; [exact IH|].
  cbn [filter]. now rewrite Hc.
Qed.

Lemma filter_rev {A : Type} (p : A -> bool) (l : list A) :
  filter p (rev l) = rev (filter p l).
Proof.
  induction l as [|x l IH]; [reflexivity|].
  cbn [rev filter]. rewrite filter_app, IH. cbn [filter].
  destruct (p x); [reflexivity|now rewrite app_nil_r].
Qed.

Lemma filter_trim (s : jsstring) :
  filter (fun c => negb (is_space c)) (trim s)
  = filter (fun c => negb (is_space c)) s.
Proof.
  unfold trim, trimEnd, trimStart.
  rewrite filter_rev, filter_drop_while, filter_rev, rev_involutive.
  apply filter_drop_while.
Qed.

Lemma filter_collapse_spaces (s : jsstring) :
  forall b : bool,
    filter (fun c => negb (is_space c)) (collapse_spaces b s)
    = filter (fun c => negb (is_space c)) s.
Proof.
  induction s as [|c s IH]; intros b; [reflexivity|].
  cbn [collapse_spaces filter]. destruct (is_space c) eqn:Hc; cbn [negb].
  - destruct b; [apply IH|]. cbn [filter]. change (is_space 32) with true.
    cbn [negb]. apply IH.
  - cbn [filter]. rewrite Hc. cbn [negb]. now rewrite IH.
Qed.

(** X3. [sanitizeFilename] loses no other character: what is not white
    space in its result is, in the same order, what is neither white space
    nor a removed character in its argument. *)
Theorem sanitizeFilename_keeps_the_rest (f : jsstring) :
  filter (fun c => negb (is_space c)) (sanitizeFilename f)
  = filter (fun c => negb (is_space c) && negb (unsafe_char c)) f.
Proof.
  unfold sanitizeFilename.
  rewrite filter_trim, filter_collapse_spaces.
  induction f as [|c f IH]; [reflexivity|].
  cbn [filter]. destruct (unsafe_char c); cbn [negb filter].
  - now rewrite andb_false_r.
  - rewrite andb_true_r. destruct (is_space c); cbn [negb]; now rewrite IH.
Qed.

(* ------------------------------------------------------------------ *)
(** ** [extractVideoId] *)
(* ------------------------------------------------------------------ *)

Lemma suffix_refl (s : jsstring) : suffix s s.
Proof. now exists []. Qed.

Lemma suffix_cons (c : N) (t s : jsstring) : suffix t s -> suffix t (c :: s).
Proof. intros [a ->]. now exists (c :: a). Qed.

Lemma suffix_trans (t u s : jsstring) : suffix t u -> suffix u s -> suffix t s.
Proof. intros [a ->] [b ->]. exists (b ++ a). now rewrite app_assoc. Qed.

Lemma suffix_skipn (n : nat) (s : jsstring) : suffix (skipn n s) s.
Proof. exists (firstn n s). now rewrite firstn_skipn. Qed.

Section Matching.
Variable A : Type.

(** A match hands the continuation what is left of the input. *)
Lemma many_suffix (p : N -> bool) (k : jsstring -> option A) (s : jsstring) (a : A) :
  many p k s = Some a -> exists s', suffix s' s /\ k s' = Some a.
Proof.
  induction s as [|c s IH]; cbn [many]; intros H.
  - exists []. split; [apply suffix_refl|exact H].
  - destruct (p c).
    + destruct (many p k s) as [a'|] eqn:E.
      * destruct (IH H) as (s' & Hs & Hk).
        exists s'. split; [now apply suffix_cons|exact Hk].
      * exists (c :: s). split; [apply suffix_refl|exact H].
    + exists (c :: s). split; [apply suffix_refl|exact H].
Qed.

(** What [p{n}] takes: [n] characters of the class. *)
Lemma times_sound (n : nat) (p : N -> bool) (k : jsstring -> option A) :
  forall (s : jsstring) (a : A),
    times n p k s = Some a ->
    exists m s', s = m ++ s' /\ length m = n /\ forallb p m = true
                 /\ k s' = Some a.
Proof.
  induction n as [|n IH]; intros s a; cbn [times]; intros H.
  - exists [], s. auto.
  - destruct s as [|c s]; [discriminate|].
    destruct (p c) eqn:Hc; [|discriminate].
    destruct (IH s a H) as (m & s' & -> & Hlen & Hall & Hk).
    exists (c :: m), s'. cbn [app length forallb]. rewrite Hc, Hall, Hlen. auto.
Qed.

Lemma times_complete (p : N -> bool) (k : jsstring -> option A) (m s : jsstring) :
  forallb p m = true -> times (length m) p k (m ++ s) = k s.
Proof.
  induction m as [|c m IH]; [reflexivity|].
  cbn [forallb length times app]. intros [-> H]%andb_true_iff. auto.
Qed.

Lemma exec_suffix (r : regex) :
  forall (s : jsstring) (k : jsstring -> option A) (a : A),
    exec r s k = Some a -> exists s', suffix s' s /\ k s' = Some a.
Proof.
  induction r as [l|p|p|p|n p|r IH|r1 IH1 r2 IH2|r1 IH1 r2 IH2];
    intros s k a; cbn [exec]; intros H.
  - destruct (startsWith l s); [|discriminate].
    exists (skipn (length l) s). split; [apply suffix_skipn|exact H].
  - destruct s as [|c s]; [discriminate|]. destruct (p c); [|discriminate].
    exists s. split; [apply suffix_cons, suffix_refl|exact H].
  - now apply many_suffix with (p := p).
  - destruct s as [|c s]; [discriminate|]. destruct (p c); [|discriminate].
    destruct (many_suffix _ _ _ H) as (s' & Hs & Hk).
    exists s'. split; [now apply suffix_cons|exact Hk].
  - destruct (times_sound _ _ _ _ H) as (m & s' & -> & _ & _ & Hk).
    exists s'. split; [now exists m|exact Hk].
  - destruct (exec r s k) as [a'|] eqn:E.
    + injection H as <-. now apply IH.
    + exists s. split; [apply suffix_refl|exact H].
  - destruct (exec r1 s k) as [a'|] eqn:E.
    + injection H as <-. now apply IH1.
    + now apply IH2.
  - destruct (IH1 _ _ _ H) as (s1 & Hs1 & H1).
    destruct (IH2 _ _ _ H1) as (s2 & Hs2 & H2).
    exists s2. split; [now apply suffix_trans with s1|exact H2].
Qed.

(** [p*] finds no match when the continuation fails on everything that
    can be left of the input. *)
Lemma many_none (p : N -> bool) (k : jsstring -> option A) (s : jsstring) :
  (forall t, suffix t s -> k t = None) -> many p k s = None.
Proof.
  induction s as [|c s IH]; intros H; cbn [many].
  - apply H, suffix_refl.
  - rewrite IH by (intros t Ht; apply H; now apply suffix_cons).
    rewrite (H (c :: s) (suffix_refl _)). now destruct (p c).
Qed.

(** A match found further on is the one [p*] returns, when it can reach
    it: the longest run comes first. *)
Lemma many_found (p : N -> bool) (k : jsstring -> option A) (m s : jsstring) (a : A) :
  forallb p m = true -> many p k s = Some a -> many p k (m ++ s) = Some a.
Proof.
  induction m as [|c m IH]; [auto|].
  cbn [forallb app many]. intros [-> H]%andb_true_iff Hs. now rewrite IH.
Qed.

Lemma exec_Chars (l s : jsstring) (k : jsstring -> option A) :
  exec (Chars l) (l ++ s) k = k s.
Proof.
  cbn [exec].
  assert (E : startsWith l (l ++ s) = true).
  { induction l as [|c l IH]; [reflexivity|]. cbn [app startsWith].
    now rewrite N.eqb_refl, IH. }
  rewrite E. f_equal. clear E. induction l; [reflexivity|assumption].
Qed.

End Matching.

Lemma startsWith_app (p q s : jsstring) :
  startsWith (p ++ q) s = true -> startsWith p s = true.
Proof.
  revert s. induction p as [|c p IH]; intros s; [reflexivity|].
  destruct s as [|d s]; [discriminate|].
  cbn [app startsWith]. intros [-> H]%andb_true_iff. now rewrite (IH s).
Qed.

Lemma includes_suffix (p t s : jsstring) :
  suffix t s -> startsWith p t = true -> includes p s = true.
Proof.
  intros [a ->] H. induction a as [|c a IH].
  - destruct t; cbn [app includes]; now rewrite H.
  - cbn [app includes]. rewrite IH. apply orb_true_r.
Qed.

Lemma match_group1_sound (prefix group : regex) (s g : jsstring) :
  match_group1 prefix group s = Some g ->
  exists t, suffix t s /\ capture_at prefix group t = Some g.
Proof.
  induction s as [|c s IH]; cbn [match_group1]; intros H.
  - destruct (capture_at prefix group []) eqn:E; [|discriminate].
    exists []. split; [apply suffix_refl|congruence].
  - destruct (capture_at prefix group (c :: s)) eqn:E.
    + exists (c :: s). split; [apply suffix_refl|congruence].
    + destruct (IH H) as (t & Ht & Hc). exists t.
      split; [now apply suffix_cons|exact Hc].
Qed.

(** A match of the expression starts on one of the two hosts. *)
Lemma capture_at_host (t g : jsstring) :
  capture_at videoId_prefix videoId_group t = Some g ->
  startsWith (js "youtube.com/") t = true \/ startsWith (js "youtu.be/") t = true.
Proof.
  unfold capture_at, videoId_prefix. cbn [exec].
  destruct (startsWith (js "youtube.com/") t); [auto|].
  destruct (startsWith (js "youtu.be/") t); [auto|discriminate].
Qed.

Lemma capture_at_group (t g : jsstring) :
  capture_at videoId_prefix videoId_group t = Some g ->
  length g = 11%nat /\ forallb videoId_char g = true
  /\ exists a b, t = a ++ g ++ b.
Proof.
  unfold capture_at. intros H.
  apply exec_suffix in H as (s1 & [a ->] & H).
  unfold videoId_group in H. cbn [exec] in H.
  apply times_sound in H as (m & s2 & -> & Hlen & Hall & H).
  injection H as <-.
  replace (length (m ++ s2) - length s2)%nat with (length m)
    by (rewrite length_app; lia).
  rewrite firstn_app, firstn_all, Nat.sub_diag, firstn_O, app_nil_r.
  split; [exact Hlen|]. split; [exact Hall|]. now exists a, s2.
Qed.

Lemma exec_Or (A : Type) (r1 r2 : regex) (s : jsstring) (k : jsstring -> option A) :
  exec (Or r1 r2) s k
  = match exec r1 s k with Some a => Some a | None => exec r2 s k end.
Proof. reflexivity. Qed.

Lemma exec_Then (A : Type) (r1 r2 : regex) (s : jsstring) (k : jsstring -> option A) :
  exec (Then r1 r2) s k = exec r1 s (fun s' => exec r2 s' k).
Proof. reflexivity. Qed.

Lemma many_step (A : Type) (p : N -> bool) (k : jsstring -> option A)
      (c : N) (s : jsstring) :
  many p k s = None -> many p k (c :: s) = k (c :: s).
Proof. intros H. cbn [many]. rewrite H. now destruct (p c). Qed.

Lemma suffix_head (P : N -> Prop) (t s : jsstring) :
  Forall P s -> suffix t s ->
  match t with [] => True | c :: _ => P c end.
Proof.
  intros H [a ->]. apply Forall_app in H as [_ H].
  destruct t; [exact I|]. now inversion H.
Qed.

Lemma line_terminator_is_space (c : N) :
  is_line_terminator c = true -> is_space c = true.
Proof.
  unfold is_line_terminator.
  intros [[[H|H]%orb_true_iff|H]%orb_true_iff|H]%orb_true_iff;
    apply N.eqb_eq in H; subst c; reflexivity.
Qed.

Lemma videoId_char_facts (c : N) :
  videoId_char c = true ->
  c <> 34%N /\ c <> 38%N /\ c <> 63%N /\ c <> 47%N /\ is_space c = false.
Proof.
  unfold videoId_char, one_of. cbn [existsb].
  intros H%negb_true_iff. apply orb_false_iff in H as [H Hs].
  repeat (apply orb_false_iff in H as [?H H]).
  repeat match goal with E : (_ =? _)%N = false |- _ => apply N.eqb_neq in E end.
  auto.
Qed.

Lemma match_group1_here (prefix group : regex) (s g : jsstring) :
  capture_at prefix group s = Some g -> match_group1 prefix group s = Some g.
Proof. intros H. destruct s; cbn [match_group1]; now rewrite H. Qed.

(** No match of the expression starts on a character that is not y. *)
Lemma match_group1_skip (pre s : jsstring) :
  Forall (fun c => c <> 121%N) pre ->
  match_group1 videoId_prefix videoId_group (pre ++ s)
  = match_group1 videoId_prefix videoId_group s.
Proof.
  induction 1 as [|c pre Hc Hpre IH]; [reflexivity|].
  cbn [app match_group1].
  assert (E : capture_at videoId_prefix videoId_group (c :: pre ++ s) = None).
  { unfold capture_at, videoId_prefix. cbn [exec].
    change (js "youtube.com/") with (121%N :: js "outube.com/").
    change (js "youtu.be/") with (121%N :: js "outu.be/").
    cbn [startsWith].
    assert (F : (121 =? c)%N = false) by (apply N.eqb_neq; congruence).
    now rewrite F. }
  now rewrite E.
Qed.

Lemma group_takes_id (id : jsstring) :
  length id = 11%nat -> forallb videoId_char id = true ->
  exec videoId_group id
       (fun s2 => Some (firstn (length id - length s2) id)) = Some id.
Proof.
  intros Hlen Hall. unfold videoId_group. cbn [exec].
  rewrite <- Hlen. rewrite <- (app_nil_r id) at 2.
  rewrite times_complete by assumption.
  cbn [length]. now rewrite Nat.sub_0_r, firstn_all.
Qed.

Lemma capture_at_watch (id : jsstring) :
  length id = 11%nat -> forallb videoId_char id = true ->
  capture_at videoId_prefix videoId_group
             (js "youtube.com/" ++ js "watch?v=" ++ id) = Some id.
Proof.
  intros Hlen Hall.
  assert (Hid : Forall (fun c => c <> 47%N /\ one_of (js "?&") c = false) id).
  { apply Forall_forall. intros c Hc. rewrite forallb_forall in Hall.
    destruct (videoId_char_facts _ (Hall c Hc)) as (_ & H38 & H63 & H47 & _).
    split; [exact H47|]. unfold one_of. cbn [js existsb N_of_ascii].
    apply N.eqb_neq in H38, H63. cbn in H38, H63 |- *.
    now rewrite H38, H63. }
  unfold capture_at, videoId_prefix.
  set (K := fun s1 : jsstring => exec videoId_group s1 _).
  rewrite exec_Or, exec_Then, exec_Chars.
  set (A1 := Then (Many1 _) _). set (A2 := Then (Or _ _) _). set (A3 := Then (Many dot) _).
  assert (E : exec (Or A1 (Or A2 A3)) (js "watch?v=" ++ id) K = Some id);
    [|now rewrite E].
  rewrite exec_Or.
  assert (E1 : exec A1 (js "watch?v=" ++ id) K = None).
  { unfold A1. rewrite exec_Then.
    change (js "watch?v=" ++ id) with (119%N :: (js "atch?v=" ++ id)).
    cbn [exec]. change (negb (one_of (js "/") 119)) with true. cbv iota.
    apply many_none. intros t Ht. rewrite ?exec_Then. cbn [exec].
    assert (Hall47 : Forall (fun c => c <> 47%N) (js "atch?v=" ++ id)).
    { apply Forall_app. split.
      - repeat constructor; discriminate.
      - eapply Forall_impl; [|exact Hid]. now intros c [H _]. }
    pose proof (suffix_head Hall47 Ht) as Hh.
    destruct t as [|c t]; [reflexivity|].
    change (js "/") with [47%N]. cbn [startsWith].
    assert (F : (47 =? c)%N = false) by (apply N.eqb_neq; congruence).
    now rewrite F. }
  rewrite E1, exec_Or.
  assert (E2 : exec A2 (js "watch?v=" ++ id) K = None) by reflexivity.
  rewrite E2. unfold A3. rewrite exec_Then. cbn [exec].
  change (js "watch?v=" ++ id) with (js "watch" ++ (63%N :: js "v=" ++ id)).
  apply many_found; [reflexivity|].
  rewrite many_step.
  - rewrite ?exec_Then. cbn [exec].
    change (one_of (js "?&") 63) with true. cbv iota.
    change (if startsWith (js "v=") (js "v=" ++ id)
            then K (skipn (length (js "v=")) (js "v=" ++ id)) else None)
      with (exec (Chars (js "v=")) (js "v=" ++ id) K).
    rewrite exec_Chars. unfold K. now apply group_takes_id.
  - apply many_none. intros t Ht. rewrite ?exec_Then. cbn [exec].
    assert (Hq : Forall (fun c => one_of (js "?&") c = false) (js "v=" ++ id)).
    { apply Forall_app. split.
      - repeat constructor.
      - eapply Forall_impl; [|exact Hid]. now intros c [_ H]. }
    pose proof (suffix_head Hq Ht) as Hh.
    destruct t as [|c t]; [reflexivity|]. now rewrite Hh.
Qed.

Lemma capture_at_short (id : jsstring) :
  length id = 11%nat -> forallb videoId_char id = true ->
  capture_at videoId_prefix videoId_group (js "youtu.be/" ++ id) = Some id.
Proof.
  intros Hlen Hall. unfold capture_at, videoId_prefix.
  set (K := fun s1 : jsstring => exec videoId_group s1 _).
  rewrite exec_Or.
  set (first := Then _ _).
  assert (E : exec first (js "youtu.be/" ++ id) K = None) by reflexivity.
  rewrite E, exec_Chars. unfold K. now apply group_takes_id.
Qed.

(** X5. From the url of a video, in the long form that the extractor
    writes and in the short one, [extractVideoId] gives back the id, for
    every id of eleven characters none of which is a double quote, an
    ampersand, a question mark, a slash or white space. *)
Theorem extractVideoId_round_trip (id : jsstring) :
  length id = 11%nat ->
  forallb videoId_char id = true ->
  extractVideoId (watch_url id) = Some id
  /\ extractVideoId (js "https://youtu.be/" ++ id) = Some id.
Proof.
  intros Hlen Hall.
  assert (Htruthy : truthy id = true) by (destruct id; [discriminate|reflexivity]).
  unfold extractVideoId, watch_url. split.
  - change (js "https://www.youtube.com/watch?v=" ++ id)
      with (js "https://www." ++ (js "youtube.com/" ++ js "watch?v=" ++ id)).
    rewrite match_group1_skip by (repeat constructor; discriminate).
    rewrite (@match_group1_here _ _ _ _ (capture_at_watch id Hlen Hall)).
    now rewrite Htruthy.
  - change (js "https://youtu.be/" ++ id)
      with (js "https://" ++ (js "youtu.be/" ++ id)).
    rewrite match_group1_skip by (repeat constructor; discriminate).
    rewrite (@match_group1_here _ _ _ _ (capture_at_short id Hlen Hall)).
    now rewrite Htruthy.
Qed.

(* ------------------------------------------------------------------ *)
(** ** src/extractor.js, and the list it leaves to the downloader *)
(* ------------------------------------------------------------------ *)

Lemma id_char_videoId_char (c : N) : id_char c = true -> videoId_char c = true.
Proof.
  unfold id_char, videoId_char, one_of, is_space. cbn [existsb].
  intros H.
  repeat match goal with
         | |- context [(?a =? ?b)%N] => destruct (N.eqb_spec a b); [subst; discriminate H|]
         end.
  cbn [orb negb].
  repeat match type of H with
         | context [(?a <=? ?b)%N] => destruct (N.leb_spec a b)
         | context [(?a =? ?b)%N] => destruct (N.eqb_spec a b)
         end; cbn in H; try discriminate H;
  repeat match goal with
         | |- context [(?a <=? ?b)%N] => destruct (N.leb_spec a b)
         end; cbn; try reflexivity; lia.
Qed.

Lemma videoId_at_sound (s id : jsstring) :
  videoId_at s = Some id ->
  length id = 11%nat /\ forallb id_char id = true
  /\ exists b, s = videoId_key ++ id ++ [34%N] ++ b.
Proof.
  unfold videoId_at.
  destruct (startsWith videoId_key s) eqn:Hkey; [|discriminate].
  set (rest := skipn (length videoId_key) s).
  destruct ((length (firstn 11 rest) =? 11)%nat && forallb id_char (firstn 11 rest)
            && startsWith [34%N] (skipn 11 rest)) eqn:H; [|discriminate].
  intros [= <-].
  apply andb_true_iff in H as [H Hq]. apply andb_true_iff in H as [Hlen Hall].
  apply Nat.eqb_eq in Hlen.
  split; [exact Hlen|]. split; [exact Hall|].
  assert (Es : s = videoId_key ++ rest).
  { unfold rest. clear -Hkey. revert s Hkey.
    induction videoId_key as [|c l IH]; intros s H; [reflexivity|].
    destruct s as [|d s]; [discriminate|]. cbn [startsWith] in H.
    apply andb_true_iff in H as [->%N.eqb_eq H].
    cbn [length skipn app]. f_equal. now apply IH. }
  destruct (skipn 11 rest) as [|q b] eqn:Eb; [discriminate|].
  cbn [startsWith] in Hq. apply andb_true_iff in Hq as [->%N.eqb_eq _].
  exists b. rewrite Es at 1. f_equal.
  rewrite <- (firstn_skipn 11 rest) at 1. now rewrite Eb.
Qed.

Lemma scan_videoIds_sound (html : jsstring) :
  forall (skip : nat) (id : jsstring),
    In id (scan_videoIds skip html) ->
    length id = 11%nat /\ forallb id_char id = true
    /\ exists a b, html = a ++ videoId_key ++ id ++ [34%N] ++ b.
Proof.
  induction html as [|c html IH]; intros skip id; cbn [scan_videoIds]; [intros []|].
  assert (Hrest : forall k, In id (scan_videoIds k html) ->
                  length id = 11%nat /\ forallb id_char id = true
                  /\ exists a b, c :: html = a ++ videoId_key ++ id ++ [34%N] ++ b).
  { intros k Hin. destruct (IH k id Hin) as (Hl & Ha & a & b & ->).
    split; [exact Hl|]. split; [exact Ha|]. now exists (c :: a), b. }
  destruct skip as [|skip]; [|apply Hrest].
  destruct (videoId_at (c :: html)) as [id'|] eqn:E; [|apply Hrest].
  intros [<-|Hin]; [|now apply Hrest with (k := (length videoId_key + 11)%nat)].
  destruct (videoId_at_sound _ E) as (Hl & Ha & b & Eb).
  split; [exact Hl|]. split; [exact Ha|]. now exists [], b.
Qed.

Lemma set_add_spec (videos : list jsstring) (url : jsstring) :
  NoDup videos ->
  NoDup (set_add videos url)
  /\ (forall u, In u (set_add videos url) <-> In u videos \/ u = url).
Proof.
  intros Hnd. unfold set_add.
  destruct (existsb (str_eqb url) videos) eqn:E.
  - split; [exact Hnd|]. intros u. split; [auto|]. intros [H| ->]; [exact H|].
    apply existsb_exists in E as (x & Hx & Ex). unfold str_eqb in Ex.
    destruct (list_eq_dec N.eq_dec url x); [now subst|discriminate].
  - split.
    + apply NoDup_app; [exact Hnd|repeat constructor; intros []|].
      intros x Hx [Heq|[]]. subst x.
      assert (existsb (str_eqb url) videos = true); [|congruence].
      apply existsb_exists. exists url. split; [exact Hx|apply str_eqb_refl].
    + intros u. rewrite in_app_iff. cbn [In]. intuition congruence.
Qed.

Lemma fold_set_add_spec (urls : list jsstring) :
  forall videos : list jsstring,
    NoDup videos ->
    NoDup (fold_left set_add urls videos)
    /\ (forall u, In u (fold_left set_add urls videos) <-> In u videos \/ In u urls).
Proof.
  induction urls as [|url urls IH]; intros videos Hnd; cbn [fold_left].
  - split; [exact Hnd|]. intros u. cbn [In]. tauto.
  - destruct (set_add_spec url Hnd) as [Hnd' Hin'].
    destruct (IH _ Hnd') as [Hnd'' Hin''].
    split; [exact Hnd''|]. intros u. rewrite Hin'', Hin'. cbn [In].
    intuition congruence.
Qed.

(** X6. The ids the fallback scan of the page finds are all in the page,
    between the key and a closing double quote, and are made of eleven
    letters, digits, underscores or hyphens: each url built on one of them
    is a url of which the downloader recovers that id, and which its
    reader keeps. *)
Theorem fallback_urls_are_downloadable (html url : jsstring) :
  In url (extractYouTubeVideoUrls [] html) ->
  exists id : jsstring,
    url = watch_url id
    /\ length id = 11%nat
    /\ forallb id_char id = true
    /\ (exists a b, html = a ++ videoId_key ++ id ++ [34%N] ++ b)
    /\ extractVideoId url = Some id
    /\ recognized url = true.
Proof.
  unfold extractYouTubeVideoUrls. cbn [map fold_left length Nat.eqb].
  intros Hin.
  destruct (@fold_set_add_spec (map watch_url (scan_videoIds 0 html)) [])
    as [_ Hmem]; [constructor|].
  apply Hmem in Hin as [[]|Hin].
  apply in_map_iff in Hin as (id & <- & Hid).
  destruct (scan_videoIds_sound _ _ _ Hid) as (Hlen & Hall & Hpage).
  assert (Hv : forallb videoId_char id = true).
  { apply forallb_forall. intros c Hc. rewrite forallb_forall in Hall.
    apply id_char_videoId_char. now apply Hall. }
  assert (Hextract : extractVideoId (watch_url id) = Some id).
  { unfold extractVideoId, watch_url.
    change (js "https://www.youtube.com/watch?v=" ++ id)
      with (js "https://www." ++ (js "youtube.com/" ++ js "watch?v=" ++ id)).
    rewrite match_group1_skip by (repeat constructor; discriminate).
    rewrite (@match_group1_here _ _ _ _ (capture_at_watch id Hlen Hv)).
    destruct id; [discriminate|reflexivity]. }
  exists id. repeat (split; [assumption || reflexivity|]).
  unfold recognized.
  assert (Hs : suffix (js "youtube.com/watch?v=" ++ id) (watch_url id))
    by now exists (js "https://www.").
  now rewrite (@includes_suffix (js "youtube.com") _ _ Hs eq_refl).
Qed.

(** X7. [extractYouTubeVideoUrls] returns no url twice. When the parsed
    page data lists ids, the urls are those of the listed ids and the page
    is not scanned; otherwise they are those of the ids the scan finds. *)
Theorem extracted_urls_are_distinct (listed : list jsstring) (html : jsstring) :
  NoDup (extractYouTubeVideoUrls listed html)
  /\ (forall url : jsstring,
        In url (extractYouTubeVideoUrls listed html)
        <-> (listed <> [] /\ In url (map watch_url listed))
            \/ (listed = [] /\ In url (map watch_url (scan_videoIds 0 html)))).
Proof.
  unfold extractYouTubeVideoUrls.
  destruct (@fold_set_add_spec (map watch_url listed) []) as [Hnd Hmem];
    [constructor|].
  destruct listed as [|id listed].
  - cbn [map fold_left length Nat.eqb].
    destruct (@fold_set_add_spec (map watch_url (scan_videoIds 0 html)) [])
      as [Hnd' Hmem']; [constructor|].
    split; [exact Hnd'|]. intros url. rewrite Hmem'. cbn [In]. intuition congruence.
  - assert (Hne : fold_left set_add (map watch_url (id :: listed)) [] <> []).
    { intros E. assert (Hin : In (watch_url id) (fold_left set_add
                                   (map watch_url (id :: listed)) [])).
      { apply Hmem. right. now left. }
      now rewrite E in Hin. }
    destruct (fold_left set_add (map watch_url (id :: listed)) []) as [|v vs] eqn:E;
      [contradiction|].
    cbn [length Nat.eqb]. split; [exact Hnd|].
    intros url. rewrite Hmem. cbn [In]. split.
    + intros [[]|H]. left. split; [discriminate|exact H].
    + intros [[_ H]|[H _]]; [now right|discriminate].
Qed.

Lemma split_without_sep (sep : N) (l : jsstring) :
  ~ In sep l -> split sep l = [l].
Proof.
  induction l as [|c l IH]; intros H; [reflexivity|].
  cbn [split]. destruct (N.eqb_spec c sep) as [->|_]; [exfalso; apply H; now left|].
  rewrite IH by (intros Hin; apply H; now right). reflexivity.
Qed.

Lemma split_app_sep (sep : N) (l rest : jsstring) :
  ~ In sep l -> split sep (l ++ sep :: rest) = l :: split sep rest.
Proof.
  induction l as [|c l IH]; intros H; cbn [app split].
  - now rewrite N.eqb_refl.
  - destruct (N.eqb_spec c sep) as [->|_]; [exfalso; apply H; now left|].
    rewrite IH by (intros Hin; apply H; now right). reflexivity.
Qed.

(** Lines that hold no separator come back from [split] after [join]. *)
Lemma split_join (sep : N) (ls : list jsstring) :
  ls <> [] -> Forall (fun l => ~ In sep l) ls -> split sep (join sep ls) = ls.
Proof.
  intros Hne Hall. induction Hall as [|l ls Hl Hls IH]; [contradiction|].
  destruct ls as [|l' ls]; [now apply split_without_sep|].
  change (join sep (l :: l' :: ls)) with (l ++ sep :: join sep (l' :: ls)).
  rewrite split_app_sep by assumption. f_equal. apply IH. discriminate.
Qed.

Lemma watch_url_is_kept (id : jsstring) :
  forallb (fun c => negb (is_space c)) id = true ->
  trim (watch_url id) = watch_url id
  /\ ~ In LF (watch_url id)
  /\ truthy (watch_url id) && negb (startsWith (js "#") (watch_url id)) = true
  /\ recognized (watch_url id) = true.
Proof.
  intros Hid. rewrite forallb_forall in Hid.
  split; [|split; [|split]].
  - apply trim_fixed; [reflexivity|].
    unfold watch_url. rewrite rev_app_distr.
    destruct (rev id) as [|c r] eqn:E; [reflexivity|].
    cbn [app starts_with_space]. apply negb_true_iff, Hid, in_rev.
    rewrite E. now left.
  - unfold watch_url. intros [H|H]%in_app_or.
    + revert H. cbn. intuition discriminate.
    + specialize (Hid _ H). discriminate Hid.
  - reflexivity.
  - unfold recognized.
    assert (Hs : suffix (js "youtube.com/watch?v=" ++ id) (watch_url id))
      by now exists (js "https://www.").
    now rewrite (@includes_suffix (js "youtube.com") _ _ Hs eq_refl).
Qed.

(** X8. The file the extractor writes is read back by [downloadFromFile]
    as the list that was written: joined with line feeds and parsed again,
    the urls of ids without white space are the same urls, in the same
    order. *)
Theorem playlist_round_trip (ids : list jsstring) :
  Forall (fun id => forallb (fun c => negb (is_space c)) id = true) ids ->
  parse_urls (playlist_file (map watch_url ids)) = map watch_url ids.
Proof.
  intros Hids. unfold parse_urls, playlist_file.
  destruct ids as [|id0 ids0] eqn:Eids; [reflexivity|]. rewrite <- Eids in *.
  assert (Hall : Forall (fun u => trim u = u /\ ~ In LF u
                   /\ truthy u && negb (startsWith (js "#") u) = true
                   /\ recognized u = true) (map watch_url ids)).
  { apply Forall_forall. intros u (id & <- & Hin)%in_map_iff.
    rewrite Forall_forall in Hids. now apply watch_url_is_kept, Hids. }
  rewrite split_join.
  - assert (E : map trim (map watch_url ids) = map watch_url ids).
    { clear -Hall. induction Hall as [|u us [Hu _] _ IH]; [reflexivity|].
      cbn [map]. now rewrite Hu, IH. }
    rewrite E. rewrite Forall_forall in Hall.
    assert (E1 : filter (fun line => truthy line && negb (startsWith (js "#") line))
                        (map watch_url ids) = map watch_url ids).
    { apply forallb_filter_id, forallb_forall. intros u Hu. apply (Hall u Hu). }
    rewrite E1. apply forallb_filter_id, forallb_forall.
    intros u Hu. apply (Hall u Hu).
  - subst ids. discriminate.
  - eapply Forall_impl; [|exact Hall]. intros u H. apply H.
Qed.

(* ------------------------------------------------------------------ *)
(** ** The index range, further *)
(* ------------------------------------------------------------------ *)

(** X9. Whatever the two indices - negative, beyond the list, not a
    number or infinite - the selection is a run of consecutive items of
    the list: it never reorders, repeats or invents an item. *)
Theorem select_range_contiguous (urls : list jsstring) (startIndex' endIndex' : num) :
  exists before after : list jsstring,
    urls = before ++ select_range urls startIndex' endIndex' ++ after.
Proof.
  unfold select_range, slice.
  set (k := Z.to_nat (relative_index _ (Math_max _ _))).
  set (n := Z.to_nat (_ - _)).
  exists (firstn k urls), (skipn n (skipn k urls)).
  now rewrite (firstn_skipn n), (firstn_skipn k).
Qed.

(** X10. The defaults of [downloadFromFile] select the whole list; so do
    a start index of zero with any end index at or beyond the length of
    the list, and a start index that is not a number is read as zero. *)
Theorem select_range_whole_list (urls : list jsstring) :
  select_range urls (startIndex default_options) (endIndex default_options) = urls
  /\ (forall e : Z, Z.of_nat (length urls) <= e ->
        select_range urls (Int 0) (Int e) = urls)
  /\ (forall e : num, select_range urls NaN e = select_range urls (Int 0) e).
Proof.
  assert (Hwhole : forall e : Z, Z.of_nat (length urls) <= e ->
                     slice urls (Int 0) (Int e) = urls).
  { intros e He. rewrite slice_Int by lia.
    rewrite (Z.min_l 0), (Z.min_r e) by lia.
    cbn [Z.to_nat skipn]. rewrite Z.sub_0_r, Nat2Z.id. apply firstn_all. }
  split; [|split].
  - change (select_range urls (startIndex default_options) (endIndex default_options))
      with (slice urls (Int (Z.max 0 0))
                  (Int (Z.min (Z.of_nat (length urls)) (Z.of_nat (length urls))))).
    rewrite Z.max_id, Z.min_id. apply Hwhole. lia.
  - intros e He. rewrite select_range_Int.
    rewrite Z.max_id, (Z.min_l _ e) by lia. apply Hwhole. lia.
  - intros e. unfold select_range, slice.
    cbn [Math_max relative_index Z.max Z.ltb].
    now rewrite Z.min_l by lia.
Qed.

(** X11. An end index below zero is not clamped: it counts from the end
    of the list, so that with [-k] the last [k] items are left out. An end
    index that is not a number selects nothing. *)
Theorem select_range_negative_end (urls : list jsstring) :
  (forall s k : Z,
      0 <= s -> 0 < k ->
      select_range urls (Int s) (Int (- k))
      = firstn (Z.to_nat (Z.of_nat (length urls) - k - s)) (skipn (Z.to_nat s) urls))
  /\ (forall s : num, select_range urls s NaN = []).
Proof.
  split.
  - intros s k Hs Hk. unfold select_range, slice.
    cbn [Math_max Math_min num_eqb_Infinity relative_index].
    set (len := Z.of_nat (length urls)).
    assert (Hlen : 0 <= len) by (unfold len; lia).
    replace (Z.min len (- k)) with (- k) by lia.
    destruct (Z.ltb_spec (- k) 0); [|lia].
    rewrite (Z.max_r 0 s) by lia.
    destruct (Z.ltb_spec s 0); [lia|].
    destruct (Z.le_gt_cases len s) as [Hout|Hin].
    + rewrite !skipn_all2 by (unfold len in *; lia). now rewrite !firstn_nil.
    + rewrite Z.min_l by lia. f_equal. lia.
  - intros s. unfold select_range, slice.
    cbn [num_eqb_Infinity]. set (len := Z.of_nat (length urls)).
    replace (Math_min (Int len) NaN) with NaN by reflexivity.
    cbn [relative_index].
    assert (Hlen : 0 <= len) by (unfold len; lia).
    assert (H : 0 <= relative_index len (Math_max (Int 0) s)).
    { destruct s as [|z|]; cbn [Math_max relative_index]; try lia.
      destruct (Z.ltb_spec (Z.max 0 z) 0); lia. }
    now replace (Z.to_nat (0 - _)) with O by lia.
Qed.


(* ------------------------------------------------------------------ *)
(** ** [downloadMp3], further *)
(* ------------------------------------------------------------------ *)

Section Pipeline.
Context {W : Type} {platform : Platform W}.
Variable this : Downloader.


Lemma sanitized_name_is_safe (n : jsstring) :
  forallb (fun c => negb (unsafe_char c)) (sanitizeFilename n ++ js ".mp3") = true.
Proof.
  rewrite forallb_app. apply andb_true_iff. split; [|reflexivity].
  pose proof (sanitizeFilename_clean_name n) as H. unfold clean_name in H.
  now repeat (apply andb_true_iff in H as [H _]).
Qed.

(** X14. The file name of a download that resolves is the sanitized custom
    name, when one is given, and else the sanitized title of the video,
    followed by the extension: it holds no slash, no backslash and no
    other reserved character, whatever the title, and the path of a
    converted file is that name joined to the output directory. *)
Theorem resolved_filename_is_safe (w w' : W) (url : jsstring)
        (customName : option jsstring) (calls : list IO) (d : Download) :
  downloadMp3 this w url customName = (w', calls, Resolved d) ->
  (exists name : jsstring,
      download_filename d = sanitizeFilename name ++ js ".mp3"
      /\ match given customName with
         | Some n => name = n
         | None => exists (videoId : jsstring) (details : VideoDetails),
                     extractVideoId url = Some videoId
                     /\ snd (ytdl_getInfo w videoId) = Resolved details
                     /\ name = vd_title details
         end)
  /\ forallb (fun c => negb (unsafe_char c)) (download_filename d) = true
  /\ (forall f p t : jsstring,
        d = Converted f p t -> p = path_join (outputDir this) f).
Proof.
  unfold downloadMp3, getVideoInfo. intros H.
  destruct (extractVideoId url) as [videoId|]; [|discriminate].
  destruct (ytdl_getInfo w videoId) as [w1 [details|message]] eqn:Hinfo;
    [|discriminate].
  cbn [filename title] in H.
  set (name := match given customName with
               | Some n => n
               | None => vd_title details
               end).
  assert (Hname : match given customName with
                  | Some n => sanitizeFilename n ++ js ".mp3"
                  | None => sanitizeFilename (vd_title details) ++ js ".mp3"
                  end = sanitizeFilename name ++ js ".mp3")
    by (unfold name; now destruct (given customName)).
  rewrite Hname in H.
  assert (Hd : download_filename d = sanitizeFilename name ++ js ".mp3"
               /\ (forall f p t : jsstring,
                     d = Converted f p t -> p = path_join (outputDir this) f)).
  { destruct (fs_existsSync w1 _).
    - injection H as _ _ <-. split; [reflexivity|discriminate].
    - destruct (ytdl w1 (quality this) videoId) as [w2 [message|]]; [discriminate|].
      destruct (ffmpeg_run w2 videoId _) as [w3 [|message|message]]; try discriminate.
      injection H as _ _ <-. split; [reflexivity|]. now intros f p t [= <- <- _]. }
  destruct Hd as [Hfile Hpath].
  split.
  { exists name. split; [exact Hfile|]. unfold name.
    destruct (given customName); [reflexivity|].
    exists videoId, details. now rewrite Hinfo. }
  split; [|exact Hpath].
  rewrite Hfile. apply sanitized_name_is_safe.
Qed.

(** X15. A rejection of [downloadMp3] whose message is empty can only come
    from the stream or from the transcoder throwing with that message: the
    rejections for an invalid url, for a failed metadata lookup and for an
    error event of the transcoder all carry a message, so that the chunked
    loop, which tells failures by the truth value of the message, counts
    them as errors. *)
Theorem silent_rejection_origin (w w' : W) (url : jsstring)
        (customName : option jsstring) (calls : list IO) (message : jsstring) :
  downloadMp3 this w url customName = (w', calls, Rejected message) ->
  error_truthy (to_entry url (Rejected message)) = false ->
  message = []
  /\ exists (videoId outputPath : jsstring) (w1 : W),
       extractVideoId url = Some videoId
       /\ (ytdl w1 (quality this) videoId = (w', Some [])
           /\ calls = [GetInfo videoId; ExistsSync outputPath; Stream videoId]
           \/ ffmpeg_run w1 videoId outputPath = (w', Thrown [])
              /\ calls = [GetInfo videoId; ExistsSync outputPath;
                          Stream videoId; Ffmpeg outputPath]).
Proof.
  unfold downloadMp3, getVideoInfo. cbn [to_entry error_truthy]. intros H Hm.
  assert (Hempty : message = []) by (destruct message; [reflexivity|discriminate]).
  split; [exact Hempty|]. subst message.
  destruct (extractVideoId url) as [videoId|]; [|discriminate].
  destruct (ytdl_getInfo w videoId) as [w1 [details|message]]; [|discriminate].
  cbn [filename title] in H.
  match type of H with
  | context [path_join ?d ?n] => set (outputPath := path_join d n) in *
  end.
  destruct (fs_existsSync w1 outputPath); [discriminate|].
  exists videoId, outputPath.
  destruct (ytdl w1 (quality this) videoId) as [w2 [message|]] eqn:Hstream.
  - injection H as <- <- ->. exists w1. auto.
  - destruct (ffmpeg_run w2 videoId outputPath) as [w3 [|message|message]] eqn:Hff;
      try discriminate.
    injection H as <- <- ->. exists w2. auto.
Qed.

End Pipeline.

(* ------------------------------------------------------------------ *)
(** ** [downloadFromFile], further *)
(* ------------------------------------------------------------------ *)

Lemma subseq_map {A B : Type} (f : A -> B) (l1 l2 : list A) :
  subseq l1 l2 -> subseq (map f l1) (map f l2).
Proof. induction 1; cbn [map]; now constructor. Qed.

Lemma entry_url_item_entry (items : list Item) :
  map entry_url (map item_entry items) = map fst items.
Proof.
  rewrite map_map. apply map_ext. intros [u [d|m]]; reflexivity.
Qed.

Lemma sleeps_sequential_trace (d n : Z) (items : list Item) :
  0 < d ->
  forall i, i + Z.of_nat (length items) = n ->
  sleeps (sequential_trace d n i items) = resolved_before_last items.
Proof.
  intros Hd. induction items as [|it items IH]; intros i Hn; [reflexivity|].
  cbn [sequential_trace]. rewrite !sleeps_app, sleeps_item_events.
  rewrite (IH (i + 1)) by (cbn [length] in Hn; lia).
  destruct (Z.ltb_spec 0 d); [|lia]. rewrite andb_true_r.
  destruct items as [|it' items].
  - cbn [length] in Hn. destruct (Z.ltb_spec i (n - 1)); [lia|].
    rewrite andb_false_r. reflexivity.
  - cbn [length] in Hn. destruct (Z.ltb_spec i (n - 1)); [|lia].
    rewrite andb_true_r. cbn [resolved_before_last].
    destruct (item_rejected it); reflexivity.
Qed.

Lemma resolved_before_last_bound (items : list Item) :
  (resolved_before_last items <= length items - 1)%nat.
Proof.
  induction items as [|it [|it' items] IH]; [reflexivity|reflexivity|].
  change (resolved_before_last (it :: it' :: items))
    with ((if item_rejected it then 0 else 1)
          + resolved_before_last (it' :: items))%nat.
  cbn [length] in *. destruct (item_rejected it); lia.
Qed.

Lemma resolved_before_last_none (items : list Item) :
  forallb item_rejected (removelast items) = true ->
  resolved_before_last items = O.
Proof.
  induction items as [|it [|it' items] IH]; [reflexivity|reflexivity|].
  change (removelast (it :: it' :: items)) with (it :: removelast (it' :: items)).
  change (resolved_before_last (it :: it' :: items))
    with ((if item_rejected it then 0 else 1)
          + resolved_before_last (it' :: items))%nat.
  cbn [forallb]. intros [Hit Hrest]%andb_true_iff.
  now rewrite Hit, IH.
Qed.

Section Batch.
Context {W : Type} {platform : Platform W}.
Variable this : Downloader.

(** X16. [downloadFromFile] rejects only before any download: for a
    missing file, for a file that cannot be read, and for a file without a
    valid url. Then nothing has been invoked and the world is as it was.
    No failure of a download makes the call reject. *)
Theorem batch_rejects_before_any_download (fuel : nat) (w w' : W)
        (filePath : jsstring) (options : Options) (tr : list Event)
        (message : jsstring) :
  downloadFromFile this fuel w filePath options = Some (w', tr, Rejected message) ->
  w' = w /\ tr = []
  /\ (fs_existsSync w filePath = false
      /\ message = js "File not found: " ++ filePath
      \/ fs_existsSync w filePath = true
         /\ fs_readFileSync w filePath = Rejected message
      \/ fs_existsSync w filePath = true
         /\ (exists content : jsstring,
               fs_readFileSync w filePath = Resolved content
               /\ parse_urls content = [])
         /\ message = js "No valid YouTube URLs found in file").
Proof.
  unfold downloadFromFile. intros H.
  destruct (fs_existsSync w filePath); cbn [negb] in H.
  2:{ injection H as <- <- <-. split; [reflexivity|]. split; [reflexivity|].
      left. split; reflexivity. }
  destruct (fs_readFileSync w filePath) as [content|m].
  2:{ injection H as <- <- <-. split; [reflexivity|]. split; [reflexivity|].
      right. left. split; reflexivity. }
  destruct (parse_urls content) as [|u urls] eqn:Hurls; cbn [length Nat.eqb] in H.
  - injection H as <- <- <-. split; [reflexivity|]. split; [reflexivity|].
    right. right. split; [reflexivity|]. split; [|reflexivity].
    now exists content.
  - destruct (schedule _ _ _ _ _); discriminate.
Qed.

(** X17. With a chunk size of zero or less, a call that has a url to
    process never ends: the index of the chunked loop does not move
    forward, and no number of iterations lets the promise settle. When the
    range selects nothing the call resolves at once, for every chunk size,
    to a report without entries, and nothing is invoked. *)
Theorem nonpositive_chunk_size_never_ends (w : W) (filePath : jsstring)
        (options : Options) (content : jsstring) :
  fs_existsSync w filePath = true ->
  fs_readFileSync w filePath = Resolved content ->
  parse_urls content <> [] ->
  let selected :=
    select_range (parse_urls content) (startIndex options) (endIndex options) in
  (selected <> [] ->
   concurrent options <= 0 ->
   forall fuel : nat, downloadFromFile this fuel w filePath options = None)
  /\ (selected = [] ->
      forall fuel : nat,
        downloadFromFile this (S fuel) w filePath options
        = Some (w, [], Resolved {| results := []; errors := []; total := 0;
                                   fullListTotal :=
                                     Z.of_nat (length (parse_urls content)) |})).
Proof.
  intros Hex Hread Hurls selected. split.
  - intros Hsel Hc fuel.
    rewrite (downloadFromFile_schedules this fuel w filePath options Hex Hread Hurls).
    fold selected. unfold schedule.
    destruct (Z.eqb_spec (concurrent options) 1) as [|_]; [lia|].
    rewrite chunked_diverges; [reflexivity|assumption|assumption|lia].
  - intros Hsel fuel.
    rewrite (downloadFromFile_schedules this (S fuel) w filePath options
               Hex Hread Hurls).
    fold selected. rewrite Hsel. unfold schedule.
    destruct (concurrent options =? 1); reflexivity.
Qed.

(** X18. In the report of a call that went through, in either mode, the
    entries of [results] and those of [errors] follow the order of the
    selected urls; [errors] holds failure entries only, and in sequential
    mode [results] holds success entries only; [total] lies between zero
    and [fullListTotal], which counts the valid urls of the file and is at
    least one. *)
Theorem report_keeps_order (fuel : nat) (w : W) (filePath : jsstring)
        (options : Options) (content : jsstring) :
  fs_existsSync w filePath = true ->
  fs_readFileSync w filePath = Resolved content ->
  parse_urls content <> [] ->
  1 <= concurrent options ->
  (length (parse_urls content) < fuel)%nat ->
  let selected :=
    select_range (parse_urls content) (startIndex options) (endIndex options) in
  exists (w' : W) (tr : list Event) (rep : Report),
    downloadFromFile this fuel w filePath options = Some (w', tr, Resolved rep)
    /\ subseq (map entry_url (results rep)) selected
    /\ subseq (map entry_url (errors rep)) selected
    /\ Forall (fun e => is_failure e = true) (errors rep)
    /\ (concurrent options = 1 ->
        Forall (fun e => is_failure e = false) (results rep))
    /\ 0 <= total rep <= fullListTotal rep
    /\ 1 <= fullListTotal rep
    /\ fullListTotal rep = Z.of_nat (length (parse_urls content)).
Proof.
  intros Hex Hread Hurls Hc Hfuel selected.
  rewrite (downloadFromFile_schedules this fuel w filePath options Hex Hread Hurls).
  fold selected.
  pose proof (select_range_length (parse_urls content) (startIndex options)
                                  (endIndex options)) as Hsel.
  fold selected in Hsel.
  destruct (schedule_spec this options selected w (fuel := fuel) Hc)
    as (r & Hrun & Hfst & Hr & He); [lia|].
  rewrite Hrun. exists (run_world r), (run_trace r). eexists.
  split; [reflexivity|]. cbn [results errors total fullListTotal].
  assert (Hsub : forall p : Entry -> bool,
             subseq (map entry_url
                       (filter p (map item_entry (settlements (run_trace r)))))
                    selected).
  { intros p. rewrite <- Hfst, <- entry_url_item_entry.
    apply subseq_map, subseq_filter. }
  split; [rewrite Hr; apply Hsub|].
  split; [rewrite He; apply Hsub|].
  split.
  { rewrite He. apply Forall_forall. intros e [_ Hf]%filter_In.
    unfold failed_in in Hf. destruct (concurrent options =? 1); [exact Hf|].
    destruct e; [discriminate|reflexivity]. }
  split.
  { intros Hseq. rewrite Hr. apply Forall_forall. intros e [_ Hf]%filter_In.
    unfold failed_in in Hf. rewrite Hseq in Hf. cbn [Z.eqb Pos.eqb] in Hf.
    now apply negb_true_iff in Hf. }
  split; [lia|]. split; [|reflexivity].
  destruct (parse_urls content); [contradiction|cbn [length]; lia].
Qed.

(** X19. In sequential mode with a positive delay, the timer is set once
    for each item that resolves and is not the last of the list: never
    after a rejected item, never more often than there are items but one,
    and not at all when every item before the last is rejected. With a
    delay of zero or less no timer is set. *)
Theorem sequential_timers (fuel : nat) (w : W) (options : Options)
        (urls : list jsstring) :
  concurrent options = 1 ->
  exists r : @Run W,
    schedule this options urls fuel w = Some r
    /\ map fst (settlements (run_trace r)) = urls
    /\ (0 < delay options ->
        sleeps (run_trace r) = resolved_before_last (settlements (run_trace r))
        /\ (sleeps (run_trace r) <= length urls - 1)%nat
        /\ (forallb item_rejected (removelast (settlements (run_trace r))) = true ->
            sleeps (run_trace r) = O))
    /\ (delay options <= 0 -> sleeps (run_trace r) = O).
Proof.
  intros Hseq. unfold schedule. rewrite Hseq. cbn [Z.eqb Pos.eqb].
  destruct (sequential_spec this options urls urls 0 (start_run w))
    as (items & Hfst & Ht & _).
  cbn [start_run run_trace app] in Ht.
  eexists. split; [reflexivity|].
  rewrite Ht, settlements_sequential_trace.
  split; [exact Hfst|]. split.
  - intros Hd.
    assert (E : sleeps (sequential_trace (delay options) (todo_length urls) 0 items)
                = resolved_before_last items).
    { apply sleeps_sequential_trace; [assumption|].
      unfold todo_length. rewrite <- Hfst, length_map. apply Z.add_0_l. }
    rewrite E. split; [reflexivity|]. split.
    + rewrite <- Hfst, length_map. apply resolved_before_last_bound.
    + apply resolved_before_last_none.
  - intros Hd. rewrite sequential_trace_no_delay by assumption.
    unfold sleeps. clear. induction items as [|it items IH]; [reflexivity|].
    cbn [map concat]. rewrite filter_app, length_app. exact IH.
Qed.

(** X20. src/index.js: when both questions are left without an answer and
    the playlist has as many videos as the file holds urls, or more, the
    call downloads what [downloadFromFile] downloads with its default
    options: the whole list, one url at a time, 15 seconds apart. *)
Theorem empty_answers_download_everything (fuel : nat) (w : W) (totalVideos : Z) :
  0 <= totalVideos ->
  (forall content : jsstring,
      fs_readFileSync w (js "playlist.txt") = Resolved content ->
      Z.of_nat (length (parse_urls content)) <= totalVideos) ->
  getPlaylistDetails fuel w totalVideos None None
  = match downloadFromFile (new_downloader None None) fuel w (js "playlist.txt")
            default_options with
    | None => None
    | Some (w', tr, s) => Some (w', tr, Downloaded s)
    end.
Proof.
  intros Htotal Hfile. unfold getPlaylistDetails.
  cbn [asked_start asked_end succ_num isNaN orb num_ltb].
  destruct (Z.ltb_spec 0 0); [lia|].
  destruct (Z.ltb_spec (totalVideos - 1 + 1) 0); [lia|]. cbn [orb].
  unfold downloadFromFile.
  destruct (fs_existsSync w (js "playlist.txt")); [|reflexivity]. cbn [negb].
  destruct (fs_readFileSync w (js "playlist.txt")) as [content|m] eqn:Hread;
    [|reflexivity].
  specialize (Hfile content eq_refl).
  destruct (length (parse_urls content) =? 0)%nat; [reflexivity|].
  cbn [startIndex endIndex default_options].
  assert (E : select_range (parse_urls content) (Int 0) (Int (totalVideos - 1 + 1))
              = select_range (parse_urls content) (Int 0) Infinity).
  { unfold select_range. cbn [num_eqb_Infinity Math_min Math_max].
    do 2 f_equal. lia. }
  rewrite E. reflexivity.
Qed.

End Batch.

(* ------------------------------------------------------------------ *)
(** ** The fallback scan and the reader, further *)
(* ------------------------------------------------------------------ *)

Lemma startsWith_prefix (p s : jsstring) : startsWith p (p ++ s) = true.
Proof.
  induction p as [|c p IH]; [reflexivity|].
  cbn [app startsWith]. now rewrite N.eqb_refl, IH.
Qed.

Lemma videoId_at_complete (id b : jsstring) :
  length id = 11%nat ->
  forallb id_char id = true ->
  videoId_at (videoId_key ++ id ++ [34%N] ++ b) = Some id.
Proof.
  intros Hlen Hall. unfold videoId_at. rewrite startsWith_prefix.
  rewrite skipn_app, skipn_all, Nat.sub_diag.
  change (skipn 0 (id ++ [34%N] ++ b)) with (id ++ [34%N] ++ b). cbn [app].
  assert (E1 : firstn 11 (id ++ 34%N :: b) = id).
  { rewrite <- Hlen, firstn_app, Nat.sub_diag, firstn_all. cbn [firstn].
    apply app_nil_r. }
  assert (E2 : skipn 11 (id ++ 34%N :: b) = 34%N :: b).
  { rewrite <- Hlen, skipn_app, Nat.sub_diag, skipn_all. reflexivity. }
  rewrite E1, E2, Hlen, Hall. reflexivity.
Qed.

Lemma scan_videoIds_complete (id b : jsstring) :
  length id = 11%nat ->
  forallb id_char id = true ->
  forall a : jsstring,
    scan_videoIds 0 (a ++ videoId_key ++ id ++ [34%N] ++ b) <> [].
Proof.
  intros Hlen Hall. induction a as [|c a IH].
  - rewrite app_nil_l. pose proof (@videoId_at_complete id b Hlen Hall) as E.
    destruct (videoId_key ++ id ++ [34%N] ++ b) as [|k rest] eqn:Ek;
      [discriminate|].
    cbn [scan_videoIds]. rewrite E. discriminate.
  - change ((c :: a) ++ videoId_key ++ id ++ [34%N] ++ b)
      with (c :: (a ++ videoId_key ++ id ++ [34%N] ++ b)).
    cbn [scan_videoIds].
    destruct (videoId_at (c :: a ++ videoId_key ++ id ++ [34%N] ++ b));
      [discriminate|exact IH].
Qed.

(** X21. The fallback scan finds a url exactly when the page holds, at
    some place, the key, eleven letters, digits, underscores or hyphens
    between double quotes: with nothing listed in the page data, the
    extractor returns the empty list for the pages without such a place,
    and for no other page. *)
Theorem fallback_finds_an_id (html : jsstring) :
  extractYouTubeVideoUrls [] html <> []
  <-> exists a id b : jsstring,
        html = a ++ videoId_key ++ id ++ [34%N] ++ b
        /\ length id = 11%nat
        /\ forallb id_char id = true.
Proof.
  unfold extractYouTubeVideoUrls. cbn [map fold_left length Nat.eqb].
  destruct (@fold_set_add_spec (map watch_url (scan_videoIds 0 html)) [])
    as [_ Hmem]; [constructor|].
  split.
  - intros Hne.
    destruct (fold_left set_add (map watch_url (scan_videoIds 0 html)) [])
      as [|u us] eqn:E; [contradiction|].
    assert (Hin : In u (u :: us)) by now left.
    apply Hmem in Hin as [[]|Hin].
    apply in_map_iff in Hin as (id & _ & Hid).
    destruct (scan_videoIds_sound _ _ _ Hid) as (Hlen & Hall & a & b & Hpage).
    now exists a, id, b.
  - intros (a & id & b & -> & Hlen & Hall) E.
    pose proof (@scan_videoIds_complete id b Hlen Hall a) as Hne.
    destruct (scan_videoIds 0 (a ++ videoId_key ++ id ++ [34%N] ++ b))
      as [|id' ids] eqn:Escan; [contradiction|].
    assert (Hin : In (watch_url id')
                     (fold_left set_add (map watch_url (id' :: ids)) [])).
    { apply Hmem. right. now left. }
    now rewrite E in Hin.
Qed.

Lemma trim_In (s : jsstring) (c : N) : In c (trim s) -> In c s.
Proof.
  intros H. destruct (trim_spec s) as (a & b & E & _). rewrite E.
  apply in_or_app. right. apply in_or_app. now left.
Qed.

(** A list of lines that the reader keeps as they are is read back from
    the file that holds them. *)
Lemma parse_urls_join_kept (us : list jsstring) :
  Forall (fun u => trim u = u /\ ~ In LF u
                   /\ truthy u && negb (startsWith (js "#") u) = true
                   /\ recognized u = true) us ->
  parse_urls (join LF us) = us.
Proof.
  intros Hall. unfold parse_urls.
  destruct us as [|u0 us0] eqn:Eus; [reflexivity|]. rewrite <- Eus in *.
  rewrite split_join.
  - assert (E : map trim us = us).
    { clear -Hall. induction Hall as [|u us [Hu _] _ IH]; [reflexivity|].
      cbn [map]. now rewrite Hu, IH. }
    rewrite E. rewrite Forall_forall in Hall.
    assert (E1 : filter (fun line => truthy line && negb (startsWith (js "#") line))
                        us = us).
    { apply forallb_filter_id, forallb_forall. intros u Hu. apply (Hall u Hu). }
    rewrite E1. apply forallb_filter_id, forallb_forall.
    intros u Hu. apply (Hall u Hu).
  - subst us. discriminate.
  - eapply Forall_impl; [|exact Hall]. intros u H. apply H.
Qed.

(** X4. An id [extractVideoId] returns is made of eleven characters, none
    of them a double quote, an ampersand, a question mark, a slash or white
    space; it is a part of the url, and the url names one of the two hosts
    followed by a slash, so that it passes the host test of the reader of
    [downloadFromFile]. The reader keeps such a url, as the line it is,
    when it is trimmed, holds no line feed and does not start with the
    comment sign; behind a comment sign it is dropped, id or not. *)
Theorem extractVideoId_shape (url id : jsstring) :
  extractVideoId url = Some id ->
  length id = 11%nat
  /\ forallb videoId_char id = true
  /\ (exists a b, url = a ++ id ++ b)
  /\ includes (js "youtube.com/") url || includes (js "youtu.be/") url = true
  /\ recognized url = true
  /\ (trim url = url -> ~ In LF url ->
      parse_urls url = if startsWith (js "#") url then [] else [url]).
Proof.
  unfold extractVideoId. intros H.
  destruct (match_group1 videoId_prefix videoId_group url) as [g|] eqn:E;
    [|discriminate].
  destruct (truthy g); [|discriminate]. injection H as ->.
  apply match_group1_sound in E as (t & Ht & E).
  destruct (capture_at_group _ E) as (Hlen & Hall & a & b & Et).
  split; [exact Hlen|]. split; [exact Hall|].
  assert (Hpart : exists a b, url = a ++ id ++ b).
  { destruct Ht as [a0 ->]. exists (a0 ++ a), b. rewrite Et.
    now rewrite <- !app_assoc. }
  split; [exact Hpart|].
  assert (Hhost : includes (js "youtube.com/") url || includes (js "youtu.be/") url
                  = true
                  /\ recognized url = true).
  { unfold recognized.
    destruct (capture_at_host _ E) as [Hh|Hh].
    - rewrite (includes_suffix _ Ht Hh).
      change (js "youtube.com/") with (js "youtube.com" ++ [47%N]) in Hh.
      apply startsWith_app in Hh. rewrite (includes_suffix _ Ht Hh). auto.
    - rewrite (includes_suffix _ Ht Hh).
      change (js "youtu.be/") with (js "youtu.be" ++ [47%N]) in Hh.
      apply startsWith_app in Hh. rewrite (includes_suffix _ Ht Hh).
      rewrite !orb_true_r. auto. }
  destruct Hhost as [Hhost Hrec].
  split; [exact Hhost|]. split; [exact Hrec|].
  intros Htrim Hlf. unfold parse_urls.
  rewrite split_without_sep by exact Hlf. cbn [map filter].
  rewrite Htrim.
  assert (Htruthy : truthy url = true).
  { destruct Hpart as (a' & b' & ->). destruct id; [discriminate|].
    now destruct a'. }
  rewrite Htruthy. cbn [andb].
  destruct (startsWith (js "#") url); cbn [negb filter]; [reflexivity|].
  fold (recognized url). now rewrite Hrec.
Qed.

(** X22. Reading is a normalisation: the urls [downloadFromFile] reads in
    a content, written one per line, are read back as the same list.
    Every url it reads is trimmed, holds no line feed, is not empty and
    does not start with the comment sign. *)
Theorem parse_urls_idempotent (content : jsstring) :
  parse_urls (join LF (parse_urls content)) = parse_urls content
  /\ Forall (fun url => trim url = url /\ ~ In LF url /\ url <> []
                        /\ startsWith (js "#") url = false)
            (parse_urls content).
Proof.
  assert (Hall : Forall (fun u => trim u = u /\ ~ In LF u
                   /\ truthy u && negb (startsWith (js "#") u) = true
                   /\ recognized u = true) (parse_urls content)).
  { apply Forall_forall. intros u Hu.
    apply parse_urls_In in Hu as (Hin & Hne & Hhash & Hrec).
    apply in_map_iff in Hin as (l & <- & Hl).
    pose proof (split_no_sep LF content) as Hsep. rewrite Forall_forall in Hsep.
    destruct (trim_starts l) as [Hh Ht].
    split; [now apply trim_fixed|].
    split; [intros H; apply (Hsep l Hl); now apply trim_In|].
    split; [|exact Hrec].
    rewrite Hhash. destruct (trim l); [contradiction|reflexivity]. }
  split; [now apply parse_urls_join_kept|].
  eapply Forall_impl; [|exact Hall].
  intros u (Ht & Hlf & Hk & _). split; [exact Ht|]. split; [exact Hlf|].
  apply andb_true_iff in Hk as [Hne Hhash]. apply negb_true_iff in Hhash.
  split; [|exact Hhash]. intros ->. discriminate.
Qed.

(* ------------------------------------------------------------------ *)
(** ** The further statements at concrete inputs *)
(* ------------------------------------------------------------------ *)

(** A name with one white space character at its end. *)
Lemma sanitizeFilename_normal_form_witness :
  In 97%N (sanitizeFilename (js "a/b "))
  /\ unsafe_char 97 = false.
Proof.
  assert (Hin : In 97%N (sanitizeFilename (js "a/b "))) by (vm_compute; auto).
  split; [exact Hin|].
  destruct (sanitizeFilename_normal_form (js "a/b ")) as [H _].
  exact (proj1 (H 97%N Hin)).
Defined.

Lemma extractVideoId_shape_witness :
  extractVideoId (Mock.watch "AAAAAAAAAAA") = Some (js "AAAAAAAAAAA")
  /\ length (js "AAAAAAAAAAA") = 11%nat
  /\ recognized (Mock.watch "AAAAAAAAAAA") = true
  /\ parse_urls (Mock.watch "AAAAAAAAAAA") = [Mock.watch "AAAAAAAAAAA"]
  /\ extractVideoId (js "#https://youtu.be/AAAAAAAAAAA") = Some (js "AAAAAAAAAAA")
  /\ parse_urls (js "#https://youtu.be/AAAAAAAAAAA") = [].
Proof.
  assert (Hid : extractVideoId (Mock.watch "AAAAAAAAAAA") = Some (js "AAAAAAAAAAA"))
    by (vm_compute; reflexivity).
  destruct (extractVideoId_shape _ Hid) as (Hlen & _ & _ & _ & Hrec & Hkept).
  assert (Htrim : trim (Mock.watch "AAAAAAAAAAA") = Mock.watch "AAAAAAAAAAA")
    by (vm_compute; reflexivity).
  assert (Hlf : ~ In LF (Mock.watch "AAAAAAAAAAA"))
    by (vm_compute; intuition discriminate).
  split; [exact Hid|]. split; [exact Hlen|]. split; [exact Hrec|].
  split; [exact (Hkept Htrim Hlf)|].
  assert (Hid' : extractVideoId (js "#https://youtu.be/AAAAAAAAAAA")
                 = Some (js "AAAAAAAAAAA")) by (vm_compute; reflexivity).
  split; [exact Hid'|].
  destruct (extractVideoId_shape _ Hid') as (_ & _ & _ & _ & _ & Hdropped).
  assert (Htrim' : trim (js "#https://youtu.be/AAAAAAAAAAA")
                   = js "#https://youtu.be/AAAAAAAAAAA") by (vm_compute; reflexivity).
  assert (Hlf' : ~ In LF (js "#https://youtu.be/AAAAAAAAAAA"))
    by (vm_compute; intuition discriminate).
  exact (Hdropped Htrim' Hlf').
Defined.

Lemma extractVideoId_round_trip_witness :
  extractVideoId (watch_url (js "dQw4w9WgXcQ")) = Some (js "dQw4w9WgXcQ")
  /\ extractVideoId (js "https://youtu.be/" ++ js "dQw4w9WgXcQ")
     = Some (js "dQw4w9WgXcQ").
Proof.
  assert (Hlen : length (js "dQw4w9WgXcQ") = 11%nat) by reflexivity.
  assert (Hall : forallb videoId_char (js "dQw4w9WgXcQ") = true) by reflexivity.
  exact (extractVideoId_round_trip (js "dQw4w9WgXcQ") Hlen Hall).
Defined.

(** A page that holds one id. *)
Lemma fallback_urls_are_downloadable_witness :
  exists id : jsstring,
    watch_url (js "abcDEF_-019") = watch_url id
    /\ extractVideoId (watch_url (js "abcDEF_-019")) = Some id.
Proof.
  assert (Hin : In (watch_url (js "abcDEF_-019"))
                   (extractYouTubeVideoUrls []
                      (js "{" ++ videoId_key ++ js "abcDEF_-019" ++ [34%N] ++ js "}")))
    by (vm_compute; auto).
  destruct (fallback_urls_are_downloadable _ _ Hin) as (id & Hurl & _ & _ & _ & Hid & _).
  exists id. split; [exact Hurl|exact Hid].
Defined.

Lemma playlist_round_trip_witness :
  parse_urls (playlist_file (map watch_url [js "AAAAAAAAAAA"; js "BBBBBBBBBBB"]))
  = map watch_url [js "AAAAAAAAAAA"; js "BBBBBBBBBBB"].
Proof.
  apply playlist_round_trip. repeat constructor.
Defined.

Lemma select_range_whole_list_witness :
  select_range Mock.three (Int 0) (Int 5) = Mock.three.
Proof.
  destruct (select_range_whole_list Mock.three) as (_ & H & _).
  apply H. vm_compute. discriminate.
Defined.

(** Seven urls, from index 1 on, without the last two. *)
Lemma select_range_negative_end_witness :
  select_range Mock.seven (Int 1) (Int (- 2))
  = firstn (Z.to_nat (Z.of_nat (length Mock.seven) - 2 - 1))
           (skipn (Z.to_nat 1) Mock.seven).
Proof.
  destruct (select_range_negative_end Mock.seven) as [H _].
  assert (Hs : 0 <= 1) by lia. assert (Hk : 0 < 2) by lia.
  exact (H 1 2 Hs Hk).
Defined.



(** A title with a slash and a colon in it, given as the custom name. *)
Lemma resolved_filename_is_safe_witness :
  exists (w' : Mock.World) (calls : list IO) (d : Download),
    downloadMp3 Mock.this (Mock.listing "urls.txt" Mock.three)
                (Mock.watch "AAAAAAAAAAA") (Some (js "AC/DC: Live"))
    = (w', calls, Resolved d)
    /\ forallb (fun c => negb (unsafe_char c)) (download_filename d) = true.
Proof.
  assert (Hrun : exists (w' : Mock.World) (calls : list IO) (d : Download),
             downloadMp3 Mock.this (Mock.listing "urls.txt" Mock.three)
                         (Mock.watch "AAAAAAAAAAA") (Some (js "AC/DC: Live"))
             = (w', calls, Resolved d))
    by (eexists _, _, _; vm_compute; reflexivity).
  destruct Hrun as (w' & calls & d & Hrun).
  exists w', calls, d. split; [exact Hrun|].
  exact (proj1 (proj2 (resolved_filename_is_safe _ _ _ _ Hrun))).
Defined.

(** The stream of the second url throws an error without a message. *)
Lemma silent_rejection_origin_witness :
  exists (videoId outputPath : jsstring) (w1 : Mock.World),
    extractVideoId (Mock.watch "BBBBBBBBBBB") = Some videoId
    /\ (ytdl w1 (quality Mock.this) videoId = (Mock.silent_failure, Some [])
        /\ [GetInfo (js "BBBBBBBBBBB");
            ExistsSync (js "./downloads/Track BBBBBBBBBBB.mp3");
            Stream (js "BBBBBBBBBBB")]
           = [GetInfo videoId; ExistsSync outputPath; Stream videoId]
        \/ ffmpeg_run w1 videoId outputPath = (Mock.silent_failure, Thrown [])
           /\ [GetInfo (js "BBBBBBBBBBB");
               ExistsSync (js "./downloads/Track BBBBBBBBBBB.mp3");
               Stream (js "BBBBBBBBBBB")]
              = [GetInfo videoId; ExistsSync outputPath;
                 Stream videoId; Ffmpeg outputPath]).
Proof.
  assert (Hrun : downloadMp3 Mock.this Mock.silent_failure
                             (Mock.watch "BBBBBBBBBBB") None
                 = (Mock.silent_failure,
                    [GetInfo (js "BBBBBBBBBBB");
                     ExistsSync (js "./downloads/Track BBBBBBBBBBB.mp3");
                     Stream (js "BBBBBBBBBBB")],
                    Rejected []))
    by (vm_compute; reflexivity).
  assert (Hfalsy : error_truthy (to_entry (Mock.watch "BBBBBBBBBBB") (Rejected []))
                   = false) by reflexivity.
  exact (proj2 (@silent_rejection_origin _ _ _ _ _ _ _ _ _ Hrun Hfalsy)).
Defined.

(** A list file that is not there. *)
Lemma batch_rejects_before_any_download_witness :
  fs_existsSync (Mock.listing "urls.txt" Mock.three) (js "missing.txt") = false
  /\ js "File not found: " ++ js "missing.txt"
     = js "File not found: " ++ js "missing.txt"
  \/ fs_existsSync (Mock.listing "urls.txt" Mock.three) (js "missing.txt") = true
     /\ fs_readFileSync (Mock.listing "urls.txt" Mock.three) (js "missing.txt")
        = Rejected (js "File not found: " ++ js "missing.txt")
  \/ fs_existsSync (Mock.listing "urls.txt" Mock.three) (js "missing.txt") = true
     /\ (exists content : jsstring,
           fs_readFileSync (Mock.listing "urls.txt" Mock.three) (js "missing.txt")
           = Resolved content
           /\ parse_urls content = [])
     /\ js "File not found: " ++ js "missing.txt"
        = js "No valid YouTube URLs found in file".
Proof.
  assert (Hrun : downloadFromFile Mock.this 1 (Mock.listing "urls.txt" Mock.three)
                                  (js "missing.txt") default_options
                 = Some (Mock.listing "urls.txt" Mock.three, [],
                         Rejected (js "File not found: " ++ js "missing.txt")))
    by reflexivity.
  exact (proj2 (proj2 (@batch_rejects_before_any_download _ _ _ _ _ _ _ _ _ _ Hrun))).
Defined.

(** Three urls with [--concurrent 0]. *)
Lemma nonpositive_chunk_size_never_ends_witness :
  downloadFromFile Mock.this 1000 (Mock.listing "urls.txt" Mock.three)
                   (js "urls.txt") (Mock.cli 0 1000) = None.
Proof.
  assert (Hex : fs_existsSync (Mock.listing "urls.txt" Mock.three) (js "urls.txt")
                = true) by reflexivity.
  assert (Hread : fs_readFileSync (Mock.listing "urls.txt" Mock.three) (js "urls.txt")
                  = Resolved (join LF Mock.three)) by reflexivity.
  assert (Hurls : parse_urls (join LF Mock.three) <> [])
    by (vm_compute; discriminate).
  destruct (@nonpositive_chunk_size_never_ends _ _ Mock.this _ _ (Mock.cli 0 1000)
              _ Hex Hread Hurls) as [H _].
  apply H; vm_compute; discriminate.
Defined.

(** Three urls in chunks of two, the second one failing without a
    message. *)
Lemma report_keeps_order_witness :
  exists (w' : Mock.World) (tr : list Event) (rep : Report),
    downloadFromFile Mock.this 4 Mock.silent_failure (js "urls.txt") (Mock.cli 2 1000)
    = Some (w', tr, Resolved rep)
    /\ subseq (map entry_url (results rep)) Mock.three
    /\ Forall (fun e => is_failure e = true) (errors rep)
    /\ 0 <= total rep <= fullListTotal rep.
Proof.
  assert (Hurls : parse_urls (join LF Mock.three) <> []) by (vm_compute; discriminate).
  assert (Hc : 1 <= concurrent (Mock.cli 2 1000)) by (vm_compute; discriminate).
  assert (Hfuel : (length (parse_urls (join LF Mock.three)) < 4)%nat)
    by (vm_compute; lia).
  assert (Hex : fs_existsSync Mock.silent_failure (js "urls.txt") = true)
    by reflexivity.
  assert (Hread : fs_readFileSync Mock.silent_failure (js "urls.txt")
                  = Resolved (join LF Mock.three)) by reflexivity.
  destruct (@report_keeps_order _ _ Mock.this 4 Mock.silent_failure (js "urls.txt")
              (Mock.cli 2 1000) (join LF Mock.three) Hex Hread Hurls Hc Hfuel)
    as (w' & tr & rep & Hrun & Hres & _ & Herr & _ & Htotal & _).
  exists w', tr, rep.
  split; [exact Hrun|]. split; [exact Hres|]. split; [exact Herr|exact Htotal].
Defined.

(** Two urls, the first one unavailable, one second of delay. *)
Lemma sequential_timers_witness :
  exists r : @Run Mock.World,
    schedule Mock.this (Mock.cli 1 1000) (firstn 2 Mock.seven) 0 Mock.unavailable_first
    = Some r
    /\ sleeps (run_trace r) = O.
Proof.
  assert (Hseq : concurrent (Mock.cli 1 1000) = 1) by reflexivity.
  destruct (@sequential_timers _ _ Mock.this 0 Mock.unavailable_first
              (Mock.cli 1 1000) (firstn 2 Mock.seven) Hseq)
    as (r & Hrun & _ & Hpos & _).
  exists r. split; [exact Hrun|].
  assert (Hd : 0 < delay (Mock.cli 1 1000)) by reflexivity.
  destruct (Hpos Hd) as (_ & _ & Hnone). apply Hnone.
  assert (E : schedule Mock.this (Mock.cli 1 1000) (firstn 2 Mock.seven) 0
                       Mock.unavailable_first = Some r) by exact Hrun.
  vm_compute in E. injection E as <-. vm_compute. reflexivity.
Defined.

(** A playlist of three videos, both questions left empty. *)
Lemma empty_answers_download_everything_witness :
  getPlaylistDetails 1 (Mock.listing "playlist.txt" Mock.three) 3 None None
  = match downloadFromFile (new_downloader None None) 1
            (Mock.listing "playlist.txt" Mock.three) (js "playlist.txt")
            default_options with
    | None => None
    | Some (w', tr, s) => Some (w', tr, Downloaded s)
    end.
Proof.
  assert (Htotal : 0 <= 3) by lia.
  assert (Hfile : forall content : jsstring,
             fs_readFileSync (Mock.listing "playlist.txt" Mock.three)
                             (js "playlist.txt") = Resolved content ->
             Z.of_nat (length (parse_urls content)) <= 3).
  { intros content [= <-]. vm_compute. discriminate. }
  exact (@empty_answers_download_everything _ _ 1
           (Mock.listing "playlist.txt" Mock.three) 3 Htotal Hfile).
Defined.

(** A page that holds one id between two braces. *)
Lemma fallback_finds_an_id_witness :
  extractYouTubeVideoUrls []
    ([] ++ videoId_key ++ js "abcDEF_-019" ++ [34%N] ++ js "}") <> [].
Proof.
  apply fallback_finds_an_id.
  exists [], (js "abcDEF_-019"), (js "}"). repeat split.
Defined.
